(** * NASLib: the NAS-Bench-301 search space and the successive-halving optimizer

    A shallow embedding of
      - [naslib/search_spaces/nasbench301/graph.py]
        ([NasBench301SearchSpace]: [query], [_truncate_input_edges],
        [prepare_discretization], [sample_random_architecture]), and
      - [naslib/optimizers/discrete/sh/optimizer.py]
        ([SuccessiveHalving]: [new_epoch], [_update_history],
        [update_optimizer_stats]),
    followed by the properties of these functions.

    Conventions.  Python integers are [Z]; a finite floating-point number
    (an accuracy or a run time returned by the surrogate benchmark, an
    architecture weight) is the rational [Q] it denotes, and the arithmetic
    of torch on the weights, which rounds, is a parameter; a raised
    exception is the [Raise] constructor of [result]; objects that the
    optimizer shares between its population and its history live in an
    explicit heap and are named by their address. *)

From stdpp Require Import gmap strings list sorting.
From Stdlib Require Import ZArith QArith Qround Lia Lqa.

Local Open Scope Z_scope.

(** ** Exceptions *)

Inductive PyError : Type :=
| NotImplementedError
| AssertionError
| NameError
| IndexError
| AttributeError
| ZeroDivisionError
| ValueError
| KeyError.

Inductive result (A : Type) : Type :=
| Ok (a : A)
| Raise (e : PyError).

Arguments Ok {A} a.
Arguments Raise {A} e.

Global Instance result_ret : MRet result := fun A a => Ok a.

Global Instance result_bind : MBind result := fun A B k c =>
  match c with
  | Ok a => k a
  | Raise e => Raise e
  end.

(** ** Python built-ins used by the two files *)

(** [l[i]] for an index that is never negative here. *)
Definition py_index {A : Type} (l : list A) (i : Z) : result A :=
  if i <? 0 then Raise IndexError
  else match l !! Z.to_nat i with
       | Some a => Ok a
       | None => Raise IndexError
       end.

(** [l[i] = x]; raises out of range. *)
Definition py_setitem {A : Type} (l : list A) (i : Z) (x : A) : result (list A) :=
  if (i <? 0) || (Z.of_nat (length l) <=? i) then Raise IndexError
  else Ok (<[Z.to_nat i := x]> l).

(** [l[0:k]]: a negative stop counts from the end of the list. *)
Definition py_slice_to {A : Type} (l : list A) (k : Z) : list A :=
  if k <? 0 then take (Z.to_nat (Z.of_nat (length l) + k)) l
  else take (Z.to_nat k) l.

(** [sorted(l, key=key, reverse=True)].  Python's sort is stable, also with
    [reverse=True]: elements with equal keys keep their relative order. *)
Fixpoint insert_desc {A : Type} (key : A → Q) (x : A) (l : list A) : list A :=
  match l with
  | [] => [x]
  | y :: l' =>
      if Qlt_le_dec (key x) (key y) then y :: insert_desc key x l'
      else x :: y :: l'
  end.

Definition sorted_desc {A : Type} (key : A → Q) (l : list A) : list A :=
  foldr (insert_desc key) [] l.

(** The truth value of an integer. *)
Definition truthy (z : Z) : bool := negb (z =? 0).

(** [random.randint(lo, hi)]: a value in [lo..hi]; [r] is the raw outcome of
    the generator. *)
Definition randint (lo hi : Z) (r : nat) : Z :=
  lo + Z.of_nat r `mod` (hi - lo + 1).

(** ** Performance metrics ([naslib.search_spaces.core.query_metrics]) *)

Inductive Metric : Type :=
| RAW
| TRAIN_ACCURACY
| VAL_ACCURACY
| TEST_ACCURACY
| TRAIN_LOSS
| TRAIN_TIME.

Global Instance Metric_eq_dec : EqDecision Metric.
Proof. solve_decision. Defined.

(** ** Tensors of architecture weights

    An entry of an [alpha] tensor is a finite floating-point number, that is
    the rational it denotes, or [-inf].  Floating-point comparisons are
    exact, so [torch.min] and [torch.max] are the minimum and the maximum of
    these rationals.  The arithmetic of torch rounds, and is library code:
    [F.softmax] and the subtraction [x - 0.001] are parameters of the
    development, with whatever rounding they have.  NaN is not represented:
    the softmax of a tensor without a finite entry is outside the model. *)

Inductive ext : Type :=
| NegInf
| Fin (q : Q).

Class Torch : Type := {
  F_softmax : list ext → list Q;
  sub_eps : Q → Q
}.

(** [a - 0.001]; [-inf] stays [-inf]. *)
Definition ext_sub_eps `{Torch} (a : ext) : ext :=
  match a with
  | NegInf => NegInf
  | Fin q => Fin (sub_eps q)
  end.

Definition ext_min (a b : ext) : ext :=
  match a, b with
  | NegInf, _ => NegInf
  | _, NegInf => NegInf
  | Fin x, Fin y => if Qlt_le_dec y x then Fin y else Fin x
  end.

(** [torch.min(t)] of a non-empty tensor. *)
Definition torch_min (t : list ext) : ext :=
  match t with
  | [] => NegInf
  | a :: t' => foldl ext_min a t'
  end.

Definition Qmax' (a b : Q) : Q := if Qlt_le_dec a b then b else a.

(** [torch.max(t)] of a non-empty tensor. *)
Definition torch_max (t : list Q) : Q :=
  match t with
  | [] => 0%Q
  | a :: t' => foldl Qmax' a t'
  end.

(** ** Edge data ([naslib.search_spaces.core.graph.EdgeData]) *)

(** The candidate operations of [_set_ops] (the kernel size distinguishes the
    two separable and the two dilated convolutions). *)
Inductive Primitive : Type :=
| Identity
| FactorizedReduce
| Zero
| MaxPool
| AvgPool
| SepConv (kernel_size : Z)
| DilConv (kernel_size : Z).

Definition get_op_name (p : Primitive) : string :=
  match p with
  | Identity => "Identity"
  | FactorizedReduce => "FactorizedReduce"
  | Zero => "Zero"
  | MaxPool => "MaxPool"
  | AvgPool => "AvgPool"
  | SepConv _ => "SepConv"
  | DilConv _ => "DilConv"
  end.

(** The [op] attribute: one operation, or the list of candidates. *)
Inductive OpAttr : Type :=
| OpSingle (p : Primitive)
| OpList (ps : list Primitive).

(** Modelled from the spec: the class [EdgeData] of
    [naslib/search_spaces/core/graph.py], which is not part of the two files
    embedded here.  The spec describes it as the "attribute container for a
    graph edge (operation choice, metadata, finalization flag)".  An absent
    attribute is [None]: [e.has("alpha")] is [is_Some (alpha e)], and
    [e.has("final") and e.final] is [final e = Some true].  [delete()] flags
    the edge; the flagged edges are removed from the graph once the bulk
    update is over. *)
Record EdgeData : Type := mkEdgeData {
  op : OpAttr;
  alpha : option (list ext);
  final : option bool;
  cell_name : option string;
  deleted : bool
}.

Definition has_alpha (e : EdgeData) : bool := bool_decide (is_Some (alpha e)).

Definition is_final (e : EdgeData) : bool :=
  match final e with
  | Some true => true
  | _ => false
  end.

Definition finalize (e : EdgeData) : EdgeData :=
  mkEdgeData (op e) (alpha e) (Some true) (cell_name e) (deleted e).

Definition delete (e : EdgeData) : EdgeData :=
  mkEdgeData (op e) (alpha e) (final e) (cell_name e) true.

Definition set_op (o : OpAttr) (e : EdgeData) : EdgeData :=
  mkEdgeData o (alpha e) (final e) (cell_name e) (deleted e).

Definition set_alpha (a : list ext) (e : EdgeData) : EdgeData :=
  mkEdgeData (op e) (Some a) (final e) (cell_name e) (deleted e).

Definition set_cell_name (n : string) (e : EdgeData) : EdgeData :=
  mkEdgeData (op e) (alpha e) (final e) (Some n) (deleted e).

(** [EdgeData()]: the identity operation, nothing else set. *)
Definition EdgeData_new : EdgeData :=
  mkEdgeData (OpSingle Identity) None None None false.

(** An incoming edge as [update_nodes] hands it to the update function: the
    source node and the edge's data. *)
Definition InEdge : Type := Z * EdgeData.

(** [t[1] = v] on a tensor. *)
Definition tensor_set1 (t : list ext) (v : ext) : result (list ext) :=
  if decide (length t ≤ 1)%nat then Raise IndexError
  else Ok (<[1%nat := v]> t).

(** [ops.pop(1)] *)
Definition pop1 {A : Type} (l : list A) : list A := take 1 l ++ drop 2 l.

(** ** [NasBench301SearchSpace._truncate_input_edges]

    The function mutates the data of the incoming edges in place and returns
    nothing; here it returns the incoming edges as the call leaves them, in
    the order it received them.  [rnd] gives the raw outcomes of the calls of
    [random.randint], in order. *)

Section Truncate.
Context `{Torch}.

(** The sort key, as the floating-point softmax of torch gives it.
    [edge_data.alpha.detach()] shares its storage with [alpha], so the
    assignment to [alpha[1]] is visible on the edge. *)
Definition _largest_post_softmax_weight (edge : InEdge) : result (Q * InEdge) :=
  let '(u, edge_data) := edge in
  match alpha edge_data with
  | None => Raise AttributeError
  | Some a =>
      a' ← tensor_set1 a (ext_sub_eps (torch_min a));
      Ok (torch_max (F_softmax a'), (u, set_alpha a' edge_data))
  end.

(** The first loop of the one-shot case; [true] reports the early
    [return] at a finalized edge. *)
Fixpoint mask_zero_ops (in_edges : list InEdge) : result (bool * list InEdge) :=
  match in_edges with
  | [] => Ok (false, [])
  | (u, data) :: rest =>
      if is_final data then Ok (true, (u, data) :: rest)
      else
        match alpha data with
        | None => Raise AttributeError
        | Some a =>
            a' ← tensor_set1 a NegInf;
            '(returned, rest') ← mask_zero_ops rest;
            Ok (returned, (u, set_alpha a' data) :: rest')
        end
  end.

(** The first loop of the discrete case. *)
Definition drop_zero_op (edge : InEdge) : result InEdge :=
  let '(u, data) := edge in
  match op data with
  | OpSingle _ => Ok edge
  | OpList ps =>
      match ps !! 1%nat with
      | None => Raise IndexError
      | Some p =>
          if String.eqb (get_op_name p) "Zero"
          then Ok (u, set_op (OpList (pop1 ps)) data)
          else Ok edge
      end
  end.

(** [for _ in range(n): in_edges[random.randint(0, len(in_edges) - 1)][1].delete()] *)
Fixpoint delete_random (n : nat) (rnd : nat → nat) (in_edges : list InEdge)
  : list InEdge :=
  match n with
  | O => in_edges
  | S n' =>
      let i := randint 0 (Z.of_nat (length in_edges) - 1) (rnd O) in
      delete_random n' (fun j => rnd (S j))
        (alter (fun e => (e.1, delete e.2)) (Z.to_nat i) in_edges)
  end.

Definition _truncate_input_edges (in_edges : list InEdge) (rnd : nat → nat)
  : result (list InEdge) :=
  let k := 2%nat in
  if decide (k ≤ length in_edges)%nat then
    if existsb (fun e => has_alpha e.2 || is_final e.2) in_edges then
      (* one-shot case *)
      '(returned, in_edges1) ← mask_zero_ops in_edges;
      if returned : bool then Ok in_edges1
      else
        keyed ← mapM _largest_post_softmax_weight in_edges1;
        let sorted_edge_ids := snd <$> sorted_desc fst keyed in
        let keep_edges := fst <$> take k sorted_edge_ids in
        Ok ((fun e : InEdge =>
               if bool_decide (e.1 ∈ keep_edges) then e else (e.1, delete e.2))
              <$> (snd <$> keyed))
    else
      (* discrete case *)
      in_edges1 ← mapM drop_zero_op in_edges;
      if existsb (fun e => is_final e.2) in_edges1 then Ok in_edges1
      else Ok (delete_random (length in_edges1 - k) rnd in_edges1)
  else Ok in_edges.
End Truncate.

(** ** Cells and [prepare_discretization] *)

(** A cell: its nodes and its edges [(u, v, data)], in insertion order. *)
Record Cell : Type := mkCell {
  cell_nodes : list Z;
  cell_edges : list (Z * Z * EdgeData)
}.

Definition in_edges_of (v : Z) (edges : list (Z * Z * EdgeData)) : list InEdge :=
  omap (fun e : Z * Z * EdgeData =>
          if decide (e.1.2 = v) then Some (e.1.1, e.2) else None) edges.

(** The data of the edges into [v] after the update function has run. *)
Fixpoint store_in_edges (v : Z) (new : list InEdge) (edges : list (Z * Z * EdgeData))
  : list (Z * Z * EdgeData) :=
  match edges with
  | [] => []
  | e :: edges' =>
      if decide (e.1.2 = v) then
        match new with
        | n :: new' => (e.1, n.2) :: store_in_edges v new' edges'
        | [] => e :: edges'
        end
      else e :: store_in_edges v new edges'
  end.

Definition _delete_flagged_edges (edges : list (Z * Z * EdgeData))
  : list (Z * Z * EdgeData) :=
  filter (fun e => deleted e.2 = false) edges.

Section Discretization.
Context `{Torch}.

(** Modelled from the spec: [Graph.update_nodes] of
    [naslib/search_spaces/core/graph.py], the "scoped bulk update" that
    calls the update function on every node of the cells carrying one of
    the scope labels, with the node's incoming edges, and afterwards
    removes the edges flagged by [delete()].  [rnd v] gives the raw random
    outcomes drawn while node [v] is processed. *)
Fixpoint update_nodes_edges (nodes : list Z) (rnd : Z → nat → nat)
    (edges : list (Z * Z * EdgeData)) : result (list (Z * Z * EdgeData)) :=
  match nodes with
  | [] => Ok edges
  | v :: nodes' =>
      new ← _truncate_input_edges (in_edges_of v edges) (rnd v);
      update_nodes_edges nodes' rnd (store_in_edges v new edges)
  end.

Definition prepare_discretization_cell (c : Cell) (rnd : Z → nat → nat)
  : result Cell :=
  edges ← update_nodes_edges (cell_nodes c) rnd (cell_edges c);
  Ok (mkCell (cell_nodes c) (_delete_flagged_edges edges)).
End Discretization.

(** ** The NAS-Bench-301 search space *)

Definition NUM_VERTICES : Z := 4.
Definition NUM_OPS : Z := 7.

Definition OPTIMIZER_SCOPE : list string :=
  ["n_stage_1"; "n_stage_2"; "n_stage_3"; "r_stage_1"; "r_stage_2"].

(** The compact encoding: for the normal and for the reduction cell, the
    pairs [(input node, operation)]. *)
Definition Compact : Type := list (Z * Z) * list (Z * Z).

(** The attributes of the search-space object that the embedded methods read
    or write; [cells] holds the subgraphs of the macro-graph nodes with their
    scope. *)
Record NasBench301SearchSpace : Type := mkSpace {
  compact : option Compact;
  labeled_archs : option (list Compact);
  instantiate_model : bool;
  max_epoch : Z;
  cells : list (string * Cell)
}.

(** The conversions of [naslib/search_spaces/nasbench301/conversions.py] are
    not part of the embedded files: they are parameters of the development.
    [convert_compact_to_naslib] rewrites the edges of the cells only. *)
Class Conversions : Type := {
  Genotype : Type;
  convert_naslib_to_genotype : NasBench301SearchSpace → Genotype;
  convert_compact_to_naslib : Compact → list (string * Cell) → list (string * Cell)
}.

(** The benchmark handle: [dataset_api["nb301_model"]] holds the performance
    predictor and the run-time predictor. *)
Record DatasetApi `{Conversions} : Type := mkApi {
  nb301_model : (Genotype → Q) * (Genotype → Q)
}.

(** The list of candidate operations installed by [_set_ops]. *)
Definition _set_ops (stride : Z) (data : EdgeData) : EdgeData :=
  set_op (OpList [ if stride =? 1 then Identity else FactorizedReduce;
                   Zero; MaxPool; AvgPool; SepConv 3; SepConv 5;
                   DilConv 3; DilConv 5 ]) data.

(** The cell built by [__init__] and [_set_cell_ops]: two input nodes, four
    intermediate nodes, the output node, the edges in the order in which
    [__init__] adds them. *)
Definition cell_template (name : string) (reduction : bool) : Cell :=
  let inner : list (Z * Z) :=
    ((fun i => (1, i)) <$> [3; 4; 5; 6]) ++ ((fun i => (2, i)) <$> [3; 4; 5; 6])
    ++ [(3, 4); (3, 5); (3, 6)] ++ [(4, 5); (4, 6)] ++ [(5, 6)] in
  let stride (u : Z) : Z :=
    if reduction && bool_decide (u ∈ [1; 2]) then 2 else 1 in
  mkCell [1; 2; 3; 4; 5; 6; 7]
    (((fun e : Z * Z =>
         (e, _set_ops (stride e.1) (set_cell_name name EdgeData_new))) <$> inner)
     ++ ((fun i => ((i, 7), finalize EdgeData_new)) <$> [3; 4; 5; 6])).

Definition NasBench301SearchSpace_init : NasBench301SearchSpace :=
  let normal := cell_template "normal_cell" false in
  let reduction := cell_template "reduction_cell" true in
  mkSpace None None true 100
    [ ("n_stage_1", normal); ("n_stage_1", normal); ("r_stage_1", reduction);
      ("n_stage_2", normal); ("n_stage_2", normal); ("r_stage_2", reduction);
      ("n_stage_3", normal); ("n_stage_3", normal) ].

(** The incoming edges of node [v] of a cell that survive, after the flagged
    edges were removed. *)
Definition incoming (v : Z) (c : Cell) : list InEdge := in_edges_of v (cell_edges c).

Section SearchSpaceMethods.
Context `{Torch} `{Conversions}.

(** [prepare_discretization]: [update_nodes] over the cells of the
    optimizer scope.  [rnd n v] gives the raw random outcomes drawn at node
    [v] of the [n]-th cell. *)
Fixpoint prepare_discretization_cells (n : nat) (cs : list (string * Cell))
    (rnd : nat → Z → nat → nat) : result (list (string * Cell)) :=
  match cs with
  | [] => Ok []
  | (scope, c) :: cs' =>
      c' ← (if bool_decide (scope ∈ OPTIMIZER_SCOPE)
            then prepare_discretization_cell c (rnd n) else Ok c);
      cs'' ← prepare_discretization_cells (S n) cs' rnd;
      Ok ((scope, c') :: cs'')
  end.

Definition prepare_discretization (self : NasBench301SearchSpace)
    (rnd : nat → Z → nat → nat) : result NasBench301SearchSpace :=
  cs ← prepare_discretization_cells 0 (cells self) rnd;
  Ok (mkSpace (compact self) (labeled_archs self) (instantiate_model self)
              (max_epoch self) cs).

(** [assert not epoch or epoch in [-1, 100]]; an integer is true when it
    is not zero. *)
Definition epoch_assertion (epoch : Z) : bool :=
  negb (truthy epoch) || bool_decide (epoch ∈ [-1; 100]).

Definition query (self : NasBench301SearchSpace) (metric : option Metric)
    (dataset : string) (epoch : Z) (dataset_api : option DatasetApi) : result Q :=
  match dataset_api with
  | None => Raise NotImplementedError
  | Some api =>
      if negb (epoch_assertion epoch) then Raise AssertionError
      else
        let genotype := convert_naslib_to_genotype self in
        if decide (metric = Some VAL_ACCURACY) then
          Ok ((nb301_model api).1 genotype)
        else if decide (metric = Some TRAIN_TIME) then
          Ok ((nb301_model api).2 genotype)
        else Ok (-1)%Q
  end.

Definition set_compact (self : NasBench301SearchSpace) (c : Compact)
  : NasBench301SearchSpace :=
  mkSpace (Some c) (labeled_archs self) (instantiate_model self) (max_epoch self)
    (if instantiate_model self then convert_compact_to_naslib c (cells self)
     else cells self).

(** [make_compact_immutable] turns the lists into tuples; the encoding
    does not distinguish them. *)
Definition set_spec (self : NasBench301SearchSpace) (c : Compact)
  : NasBench301SearchSpace := set_compact self c.

(** [random.choice(seq)] *)
Definition random_choice {A : Type} (l : list A) (r : nat) : result A :=
  match l !! (r `mod` length l)%nat with
  | Some a => Ok a
  | None => Raise IndexError
  end.

Definition sample_random_labeled_architecture (self : NasBench301SearchSpace)
    (rnd : nat → nat) : result NasBench301SearchSpace :=
  match labeled_archs self with
  | None => Raise AssertionError
  | Some archs =>
      op_indices ← random_choice archs (rnd O);
      Ok (set_spec self op_indices)
  end.

(** [np.random.choice(range(n))]: one value of [0..n-1]. *)
Definition np_choice (n : Z) (r : nat) : Z := Z.of_nat r `mod` n.

(** [np.random.choice(range(n), 2, replace=False)]: the first value is one
    of the [n], the second one of the [n-1] others. *)
Definition np_choice2 (n : Z) (r1 r2 : nat) : Z * Z :=
  let a := Z.of_nat r1 `mod` n in
  let b := Z.of_nat r2 `mod` (n - 1) in
  (a, if b <? a then b else b + 1).

(** One turn of the loop of [sample_random_architecture]; it consumes
    eight raw outcomes, starting at [rnd (8 * i)]. *)
Definition sample_vertex (rnd : nat → nat) (compact : Compact) (i : nat) : Compact :=
  let r (j : nat) := rnd (8 * i + j)%nat in
  let ops := (fun j => np_choice NUM_OPS (r j)) <$> seq 0 (Z.to_nat NUM_VERTICES) in
  let op_at (j : nat) := default 0 (ops !! j) in
  let nodes_in_normal := np_choice2 (Z.of_nat i + 2) (r 4%nat) (r 5%nat) in
  let nodes_in_reduce := np_choice2 (Z.of_nat i + 2) (r 6%nat) (r 7%nat) in
  (compact.1 ++ [(nodes_in_normal.1, op_at 0%nat); (nodes_in_normal.2, op_at 1%nat)],
   compact.2 ++ [(nodes_in_reduce.1, op_at 2%nat); (nodes_in_reduce.2, op_at 3%nat)]).

Definition sample_random_architecture (self : NasBench301SearchSpace)
    (dataset_api : option DatasetApi) (load_labeled : bool) (rnd : nat → nat)
  : result NasBench301SearchSpace :=
  if load_labeled then sample_random_labeled_architecture self rnd
  else
    let compact := foldl (sample_vertex rnd) ([], []) (seq 0 (Z.to_nat NUM_VERTICES)) in
    Ok (set_compact self compact).
End SearchSpaceMethods.

(** ** The interface of a queryable search space

    The optimizer works on any search space that can sample a random
    architecture and be queried on a benchmark; [NasBench301SearchSpace] is
    one. *)

Class SearchSpace (G Api : Type) : Type := {
  space_QUERYABLE : bool;
  space_sample_random_architecture : G → option Api → (nat → nat) → result G;
  space_query : G → option Metric → string → Z → option Api → result Q
}.

Global Instance NasBench301_SearchSpace `{Conversions}
  : SearchSpace NasBench301SearchSpace DatasetApi := {|
  space_QUERYABLE := true;
  space_sample_random_architecture := fun self api rnd =>
    sample_random_architecture self api false rnd;
  space_query := query
|}.

(** ** The successive-halving optimizer *)

(** A population entry: the [torch.nn.Module] that carries the architecture
    and its measurements.  [accuracy] is assigned before the object is stored
    anywhere; [time] only under the "time" budget. *)
Record Model (G : Type) : Type := mkModel {
  arch : G;
  accuracy : Q;
  time : option Q
}.

Arguments mkModel {G} _ _ _.
Arguments arch {G} _.
Arguments accuracy {G} _.
Arguments time {G} _.

(** [config.search] and [config.dataset] *)
Record Config : Type := mkConfig {
  cfg_budget_max : Z;
  cfg_dataset : string;
  cfg_min_fidelity : Z;
  cfg_number_archs : Z;
  cfg_eta : Z;
  cfg_budget_type : string
}.

(** The optimizer's attributes.  [sampled_archs] and [history] hold
    addresses into [heap]: both lists can name the same object, and an
    assignment to [model.accuracy] is seen through both. *)
Record SuccessiveHalving (G Api : Type) : Type := mkSH {
  budget_max : Z;
  performance_metric : Metric;
  dataset : string;
  end_ : bool;
  fidelity : Z;
  number_archs : Z;
  eta : Z;
  budget_type : string;
  fidelity_counter : Z;
  sampled_archs : list nat;
  history : list nat;
  optimizer_stats : gmap nat (gmap string (list Q));
  search_space : G;
  dataset_api : option Api;
  heap : list (Model G)
}.

Arguments mkSH {G Api}.
Arguments budget_max {G Api} _.
Arguments performance_metric {G Api} _.
Arguments dataset {G Api} _.
Arguments end_ {G Api} _.
Arguments fidelity {G Api} _.
Arguments number_archs {G Api} _.
Arguments eta {G Api} _.
Arguments budget_type {G Api} _.
Arguments fidelity_counter {G Api} _.
Arguments sampled_archs {G Api} _.
Arguments history {G Api} _.
Arguments optimizer_stats {G Api} _.
Arguments search_space {G Api} _.
Arguments dataset_api {G Api} _.
Arguments heap {G Api} _.

Section Optimizer.
Context {G Api : Type} `{SearchSpace G Api}.

Local Abbreviation SH := (SuccessiveHalving G Api).

(** [__init__] followed by [adapt_search_space]. *)
Definition SuccessiveHalving_new (config : Config) (space : G)
    (api : option Api) : result SH :=
  if negb space_QUERYABLE then Raise AssertionError
  else
    Ok (mkSH (cfg_budget_max config) VAL_ACCURACY (cfg_dataset config) false
             (cfg_min_fidelity config) (cfg_number_archs config) (cfg_eta config)
             (cfg_budget_type config) 0 [] [] ∅ space api []).

(** [model.accuracy] of the object at address [r]. *)
Definition accuracy_at (hp : list (Model G)) (r : nat) : Q :=
  match hp !! r with
  | Some m => accuracy m
  | None => 0%Q
  end.

(** The attributes that [new_epoch] assigns. *)
Definition assign (self : SH) (end' : bool) (fidelity' number_archs' counter' : Z)
    (sampled' history' : list nat) (stats' : gmap nat (gmap string (list Q)))
    (heap' : list (Model G)) : SH :=
  mkSH (budget_max self) (performance_metric self) (dataset self) end'
       fidelity' number_archs' (eta self) (budget_type self) counter'
       sampled' history' stats' (search_space self) (dataset_api self) heap'.

(** The loop of [_update_history] over a full history. *)
Fixpoint replace_first_lower (acc : nat → Q) (child : nat) (hist : list nat)
  : list nat :=
  match hist with
  | [] => []
  | p :: rest =>
      if Qlt_le_dec (acc p) (acc child) then child :: rest
      else p :: replace_first_lower acc child rest
  end.

Definition _update_history (self : SH) (child : nat) : SH :=
  let hist :=
    if decide (length (history self) < 100)%nat then history self ++ [child]
    else replace_first_lower (accuracy_at (heap self)) child (history self) in
  assign self (end_ self) (fidelity self) (number_archs self) (fidelity_counter self)
         (sampled_archs self) hist (optimizer_stats self) (heap self).

(** [stats[h][name].append(v)] on the [defaultdict] of [defaultdict]s. *)
Definition stats_append (h : nat) (name : string) (v : Q)
    (stats : gmap nat (gmap string (list Q))) : gmap nat (gmap string (list Q)) :=
  let inner := default ∅ (stats !! h) in
  <[h := <[name := default [] (inner !! name) ++ [v]]> inner]> stats.

Definition stat_metrics : list (string * Metric) :=
  [ ("train_acc", TRAIN_ACCURACY); ("val_acc", VAL_ACCURACY);
    ("test_acc", TEST_ACCURACY); ("train_time", TRAIN_TIME) ]%string.

Definition update_optimizer_stats (self : SH) : result SH :=
  r ← py_index (sampled_archs self) (fidelity_counter self);
  match heap self !! r with
  | None => Raise IndexError
  | Some m =>
      stats ← foldl (fun acc (nm : string * Metric) =>
                 stats ← acc;
                 metric_value ← space_query (arch m) (Some nm.2) (dataset self)
                                  (fidelity self) (dataset_api self);
                 Ok (stats_append r nm.1 metric_value stats))
               (Ok (optimizer_stats self)) stat_metrics;
      Ok (assign self (end_ self) (fidelity self) (number_archs self)
            (fidelity_counter self) (sampled_archs self) (history self)
            (stats_append r "fidelity" (inject_Z (fidelity self)) stats)
            (heap self))
  end.

(** The end of a round: the body of [if self.fidelity_counter ==
    self.number_archs] in [new_epoch].  [math.floor] of a product of
    integers is the product; [math.floor(n / eta)] is the floor division,
    which raises for [eta = 0]. *)
Definition end_of_round (self : SH) : result SH :=
  let fidelity' := eta self * fidelity self in
  let sorted := sorted_desc (accuracy_at (heap self)) (sampled_archs self) in
  '(end', sampled') ←
    (if budget_max self <? fidelity' then Ok (true, sorted)
     else if eta self =? 0 then Raise ZeroDivisionError
     else if negb (number_archs self `div` eta self =? 0) then
       Ok (end_ self, py_slice_to sorted (number_archs self `div` eta self))
     else
       best ← py_index sorted 0;
       Ok (true, [best]));
  Ok (assign self end' fidelity' (Z.of_nat (length sampled')) 0 sampled'
        (history self) (optimizer_stats self) (heap self)).

(** The first part of [new_epoch], up to the call of [_update_history]:
    the budget and the optimizer at that point.  [rnd] gives the raw random
    outcomes drawn by this call. *)
Definition evaluate_next (self : SH) (rnd : nat → nat) : result (Q * SH) :=
  let filling := Z.of_nat (length (sampled_archs self)) <? number_archs self in
  (* the model: a fresh object, or the one at the position counter *)
  '(r, a, old_time) ←
    (if filling then
       a ← space_sample_random_architecture (search_space self) (dataset_api self) rnd;
       Ok (length (heap self), a, None)
     else
       r ← py_index (sampled_archs self) (fidelity_counter self);
       match heap self !! r with
       | None => Raise IndexError
       | Some m => Ok (r, arch m, time m)
       end);
  acc ← space_query a (Some (performance_metric self)) (dataset self)
          (fidelity self) (dataset_api self);
  '(budget, time') ←
    (if String.eqb (budget_type self) "time" then
       t ← space_query a (Some (performance_metric self)) (dataset self)
             (fidelity self) (dataset_api self);
       Ok (t, Some t)
     else if negb (String.eqb (budget_type self) "epoch") then Raise NameError
     else Ok (1%Q, old_time));
  let model := mkModel a acc time' in
  '(heap', sampled') ←
    (if filling then Ok (heap self ++ [model], sampled_archs self ++ [r])
     else
       s ← py_setitem (sampled_archs self) (fidelity_counter self) r;
       Ok (<[r := model]> (heap self), s));
  let self1 := assign self (end_ self) (fidelity self) (number_archs self)
                 (fidelity_counter self) sampled' (history self)
                 (optimizer_stats self) heap' in
  self2 ← update_optimizer_stats self1;
  let self3 := assign self2 (end_ self2) (fidelity self2) (number_archs self2)
                 (fidelity_counter self2 + 1) (sampled_archs self2) (history self2)
                 (optimizer_stats self2) (heap self2) in
  Ok (budget, _update_history self3 r).

(** [new_epoch]: the budget it returns and the optimizer it leaves. *)
Definition new_epoch (self : SH) (rnd : nat → nat) : result (Q * SH) :=
  '(budget, self4) ← evaluate_next self rnd;
  if fidelity_counter self4 =? number_archs self4 then
    self5 ← end_of_round self4;
    Ok (budget, self5)
  else Ok (budget, self4).

(** Successive calls of [new_epoch]; [rnd i] serves the [i]-th call.  The
    budgets are returned in the order of the calls. *)
Fixpoint run (n : nat) (rnd : nat → nat → nat) (self : SH) : result (list Q * SH) :=
  match n with
  | O => Ok ([], self)
  | S n' =>
      '(b, self') ← new_epoch self (rnd O);
      '(bs, self'') ← run n' (fun i => rnd (S i)) self';
      Ok (b :: bs, self'')
  end.

(** A round: one call of [new_epoch] for every architecture of the
    population; and [k] rounds in a row, as the search loop runs them.
    [rnd j i] serves the [i]-th call of the [j]-th round. *)
Definition round (rnd : nat → nat → nat) (self : SH) : result SH :=
  '(_, self') ← run (Z.to_nat (number_archs self)) rnd self;
  Ok self'.

Fixpoint rounds (k : nat) (rnd : nat → nat → nat → nat) (self : SH) : result SH :=
  match k with
  | O => Ok self
  | S k' =>
      self' ← round (rnd O) self;
      rounds k' (fun j => rnd (S j)) self'
  end.
End Optimizer.

(** ** Concrete collaborators, used to run the definitions *)

(** A positive, increasing stand-in for the exponential. *)
Definition rational_exp (x : Q) : Q :=
  if Qlt_le_dec x 0 then (1 / (1 - x))%Q else (1 + x)%Q.

Definition ext_exp (a : ext) : Q :=
  match a with
  | NegInf => 0%Q
  | Fin q => rational_exp q
  end.

Definition Qsum (t : list Q) : Q := foldr Qplus 0%Q t.

(** The softmax without rounding: [exp(t_i) / sum_j exp(t_j)]. *)
Definition exact_softmax (t : list ext) : list Q :=
  let s := Qsum (ext_exp <$> t) in
  (fun a => (ext_exp a / s)%Q) <$> t.

(** An arithmetic that does not round. *)
Definition rational_Torch : Torch :=
  {| F_softmax := exact_softmax; sub_eps := fun x => (x - (1 # 1000))%Q |}.

(** An arithmetic that rounds: every softmax weight is rounded up to the
    next multiple of 1/16, so that weights that differ by less come out
    equal, as close weights do in floating point. *)
Definition ceil16 (q : Q) : Q := (Qceiling (q * 16) # 16)%Q.

Definition coarse_Torch : Torch :=
  {| F_softmax := fun t => ceil16 <$> exact_softmax t;
     sub_eps := fun x => ceil16 (x - (1 # 1000)) |}.

(** Conversions that take the compact encoding as the genotype and leave the
    cells alone. *)
Definition compact_Conversions : Conversions := {|
  Genotype := option Compact;
  convert_naslib_to_genotype := compact;
  convert_compact_to_naslib := fun _ cs => cs
|}.

(** A benchmark whose performance predictor answers 90 and whose run-time
    predictor answers 5000. *)
Definition constant_api : @DatasetApi compact_Conversions :=
  @mkApi compact_Conversions (fun _ => 90%Q, fun _ => 5000%Q).

(** A benchmark that can be queried at every epoch: an architecture is a
    number, and its accuracy at an epoch is that number plus the epoch. *)
Definition table_SearchSpace : SearchSpace Z unit := {|
  space_QUERYABLE := true;
  space_sample_random_architecture := fun _ _ rnd => Ok (Z.of_nat (rnd O));
  space_query := fun a metric _ epoch api =>
    match api with
    | None => Raise NotImplementedError
    | Some _ =>
        if decide (metric = Some VAL_ACCURACY) then Ok (inject_Z (a + epoch))
        else if decide (metric = Some TRAIN_TIME) then Ok (inject_Z epoch)
        else Ok (-1)%Q
    end
|}.

(** ** Well-formed compact encodings *)

(** The two pairs of intermediate node [i]: distinct inputs among the [i + 2]
    earlier nodes, operations among the first seven primitives. *)
Definition vertex_pairs_ok (i : nat) (p1 p2 : Z * Z) : Prop :=
  p1.1 ≠ p2.1 ∧
  0 ≤ p1.1 < Z.of_nat i + 2 ∧ 0 ≤ p2.1 < Z.of_nat i + 2 ∧
  0 ≤ p1.2 ≤ 6 ∧ 0 ≤ p2.2 ≤ 6.

Definition cell_encoding_ok (c : list (Z * Z)) : Prop :=
  length c = 8%nat ∧
  ∀ i : nat, (i < 4)%nat →
    ∃ p1 p2, c !! (2 * i)%nat = Some p1 ∧ c !! (2 * i + 1)%nat = Some p2 ∧
             vertex_pairs_ok i p1 p2.

(** A labeled architecture that uses the eighth primitive. *)
Definition labeled_with_op7 : Compact :=
  ([(0, 7); (1, 7); (0, 7); (1, 7); (0, 7); (1, 7); (0, 7); (1, 7)],
   [(0, 7); (1, 7); (0, 7); (1, 7); (0, 7); (1, 7); (0, 7); (1, 7)]).

(** ** Inputs used to run the discretization and the optimizer *)

(** The edges that survive among the incoming edges of a node. *)
Definition surviving (in_edges : list InEdge) : list InEdge :=
  filter (fun e => deleted e.2 = false) in_edges.

(** The incoming edges of intermediate node 5 of the normal cell, as the
    constructor leaves them: four edges that carry the list of candidate
    operations, none finalized, none with architecture weights. *)
Definition node5_in_edges : list InEdge :=
  in_edges_of 5 (cell_edges (cell_template "normal_cell" false)).

(** An edge with architecture weights and nothing else. *)
Definition alpha_edge (a : list ext) : EdgeData :=
  mkEdgeData (OpSingle Identity) (Some a) None None false.

(** The optimizer on the NAS-Bench-301 search space under the "time" budget,
    started at the only epoch that the benchmark accepts. *)
Definition time_budget_config : Config := mkConfig 100 "cifar10" 100 2 2 "time".

Definition time_budget_optimizer
  : result (SuccessiveHalving NasBench301SearchSpace (@DatasetApi compact_Conversions)) :=
  @SuccessiveHalving_new _ _ (@NasBench301_SearchSpace compact_Conversions)
    time_budget_config NasBench301SearchSpace_init (Some constant_api).

(** ** Order of a list *)

(** [a] occurs in [l] with [b] somewhere after it. *)
Definition before {A : Type} (l : list A) (a b : A) : Prop :=
  ∃ l1 l2, l = l1 ++ a :: l2 ∧ b ∈ l2.

(** The order that a stable descending sort of [l] establishes: a larger
    key first, and among equal keys the element that [l] lists first. *)
Definition ranked_before {A : Type} (key : A → Q) (l : list A) (a b : A) : Prop :=
  (key b < key a)%Q ∨ ((key a == key b)%Q ∧ before l a b).

(** ** States of the optimizer *)

(** The optimizer of the table benchmark just before the last call of a
    round: two architectures per round, the first one evaluated. *)
Definition last_call_state : SuccessiveHalving Z unit :=
  mkSH 8 VAL_ACCURACY "cifar10" false 1 2 2 "epoch" 1 [0%nat] [0%nat] ∅ 0 (Some tt)
       [mkModel 5 (inject_Z 6) None].

(** The optimizer between two rounds: the counter is at 0, the population is
    empty (before the first round) or has [number_archs] entries. *)
Definition round_start {G Api : Type} (eta0 bmax : Z) (s : SuccessiveHalving G Api)
  : Prop :=
  fidelity_counter s = 0 ∧ 1 ≤ number_archs s ∧
  (sampled_archs s = [] ∨ Z.of_nat (length (sampled_archs s)) = number_archs s) ∧
  eta s = eta0 ∧ budget_max s = bmax ∧ 1 ≤ fidelity s.

(** The optimizer inside a round, [i] architectures evaluated. *)
Definition in_round {G Api : Type} (s0 s : SuccessiveHalving G Api) (i : Z) : Prop :=
  fidelity_counter s = i ∧
  (Z.of_nat (length (sampled_archs s)) = i ∨
   Z.of_nat (length (sampled_archs s)) = number_archs s) ∧
  eta s = eta s0 ∧ budget_max s = budget_max s0 ∧ fidelity s = fidelity s0 ∧
  number_archs s = number_archs s0 ∧ end_ s = end_ s0.

(** The scenario of the spec on the table benchmark: 8 architectures,
    [eta = 2], fidelities from 1 to 8. *)
Definition scenario_config (budget_max : Z) : Config :=
  mkConfig budget_max "cifar10" 1 8 2 "epoch".

Definition scenario_optimizer (budget_max : Z) : result (SuccessiveHalving Z unit) :=
  @SuccessiveHalving_new Z unit table_SearchSpace (scenario_config budget_max) 0 (Some tt).

Definition scenario_rnd : nat → nat → nat → nat := fun j i _ => (3 * i + j)%nat.

(** ** The one-shot case *)

(** The weights of an edge once the no-op entry is forced to [-inf]. *)
Definition masked (a : list ext) : list ext := <[1%nat := NegInf]> a.

Definition mask_edge (e : InEdge) : InEdge :=
  match alpha e.2 with
  | Some a => (e.1, set_alpha (masked a) e.2)
  | None => e
  end.

(** The largest post-softmax weight of an edge, the no-op excluded. *)
Definition post_softmax_weight `{Torch} (e : EdgeData) : Q :=
  match alpha e with
  | Some a => torch_max (F_softmax (masked a))
  | None => 0%Q
  end.

(** An incoming edge of the one-shot case: not finalized, not yet deleted,
    with a weight for each of at least two candidates, one of them besides
    the no-op finite. *)
Definition one_shot_edge (e : InEdge) : Prop :=
  is_final e.2 = false ∧ deleted e.2 = false ∧
  ∃ a, alpha e.2 = Some a ∧ (2 ≤ length a)%nat ∧
       ∃ (i : nat) (q : Q), i ≠ 1%nat ∧ a !! i = Some (Fin q).

(** Three incoming edges whose largest weights are so close to 1 that they
    come out equal once rounded: without rounding the third edge has the
    largest weight. *)
Definition tied_in_edges : list InEdge :=
  [ (1, alpha_edge [Fin 100; Fin 0; Fin 0]);
    (2, alpha_edge [Fin 100; Fin 0; Fin 0]);
    (3, alpha_edge [Fin 200; Fin 0; Fin 0]) ].

(** ** The optimizer's reports *)

(** [max(seq, key=key)]: the first element with the largest key; the running
    maximum is replaced only by a strictly larger key. *)
Fixpoint py_max_from {A : Type} (key : A → Q) (best : A) (l : list A) : A :=
  match l with
  | [] => best
  | x :: l' => py_max_from key (if Qlt_le_dec (key best) (key x) then x else best) l'
  end.

Definition py_max {A : Type} (key : A → Q) (l : list A) : result A :=
  match l with
  | [] => Raise ValueError
  | x :: l' => Ok (py_max_from key x l')
  end.

(** [l[-1]] *)
Definition py_last {A : Type} (l : list A) : result A :=
  match last l with
  | Some a => Ok a
  | None => Raise IndexError
  end.

Section Reports.
Context {G Api : Type} `{SearchSpace G Api}.

(** [get_final_architecture]: the architecture of the population entry with
    the largest accuracy. *)
Definition get_final_architecture (self : SuccessiveHalving G Api) : result G :=
  r ← py_max (accuracy_at (heap self)) (sampled_archs self);
  match heap self !! r with
  | Some m => Ok (arch m)
  | None => Raise IndexError
  end.

(** [train_statistics]; the queries leave the epoch at its default, -1. *)
Definition train_statistics (self : SuccessiveHalving G Api) (report_incumbent : bool)
  : result (Q * Q * Q * Q) :=
  best_arch ←
    (if report_incumbent then get_final_architecture self
     else
       r ← py_last (sampled_archs self);
       match heap self !! r with
       | Some m => Ok (arch m)
       | None => Raise IndexError
       end);
  train_acc ← space_query best_arch (Some TRAIN_ACCURACY) (dataset self) (-1) (dataset_api self);
  val_acc ← space_query best_arch (Some VAL_ACCURACY) (dataset self) (-1) (dataset_api self);
  test_acc ← space_query best_arch (Some TEST_ACCURACY) (dataset self) (-1) (dataset_api self);
  train_time ← space_query best_arch (Some TRAIN_TIME) (dataset self) (-1) (dataset_api self);
  Ok (train_acc, val_acc, test_acc, train_time).

Definition test_statistics (self : SuccessiveHalving G Api) : result Q :=
  best_arch ← get_final_architecture self;
  space_query best_arch (Some RAW) (dataset self) (-1) (dataset_api self).

Definition get_end (self : SuccessiveHalving G Api) : bool := end_ self.

(** [get_checkpointables]: the history, under the key "model". *)
Definition get_checkpointables (self : SuccessiveHalving G Api) : list nat :=
  history self.
End Reports.

(** The objects of the optimizer are in order: the population names each
    object once, and the population and the history name allocated objects
    only. *)
Definition heap_wf {G Api : Type} (s : SuccessiveHalving G Api) : Prop :=
  NoDup (sampled_archs s) ∧
  (∀ r, r ∈ sampled_archs s → (r < length (heap s))%nat) ∧
  (∀ r, r ∈ history s → (r < length (heap s))%nat).

(** [stats[h][name]], the empty list when the key is absent (the map is a
    [defaultdict] of [defaultdict(list)]). *)
Definition stat_list (stats : gmap nat (gmap string (list Q))) (h : nat)
    (name : string) : list Q :=
  default [] (default ∅ (stats !! h) !! name).

(** The optimizer of the table benchmark with a full population of one
    architecture, measured once. *)
Definition full_state : SuccessiveHalving Z unit :=
  mkSH 8 VAL_ACCURACY "cifar10" false 2 1 2 "epoch" 0 [0%nat] [0%nat] ∅ 0 (Some tt)
       [mkModel 5 (inject_Z 6) None].

(** The optimizer on the NAS-Bench-301 search space with fidelities from 100
    to 400. *)
Definition nb301_config : Config := mkConfig 400 "cifar10" 100 2 2 "epoch".

(** ** The discrete case *)

(** The positions drawn by the [n] calls of [random.randint(0, len - 1)]. *)
Definition drawn_indices (n len : nat) (rnd : nat → nat) : list nat :=
  (fun j => Z.to_nat (randint 0 (Z.of_nat len - 1) (rnd j))) <$> seq 0 n.

(** An incoming edge of the discrete case: no weights, not finalized, not
    yet deleted, and a candidate list, if any, of at least two operations. *)
Definition discrete_edge (e : InEdge) : Prop :=
  has_alpha e.2 = false ∧ is_final e.2 = false ∧ deleted e.2 = false ∧
  ∀ ps, op e.2 = OpList ps → (2 ≤ length ps)%nat.

(** The edge as the first loop of the discrete case leaves it. *)
Definition without_zero (e : InEdge) : InEdge :=
  match drop_zero_op e with
  | Ok e' => e'
  | Raise _ => e
  end.

(** ** The macro-graph and its operations *)

(** [{i: v for i in range(lo, hi)}] *)
Definition range_dict (lo hi v : Z) : gmap Z Z :=
  list_to_map ((fun i => (i, v)) <$> seqZ lo (hi - lo)).

(** [d.update(e)]: the entries of [e] replace those of [d]. *)
Definition dict_update (d e : gmap Z Z) : gmap Z Z := e ∪ d.

(** [d[k]] *)
Definition dict_get {K V : Type} `{Countable K} (d : gmap K V) (k : K) : result V :=
  match d !! k with
  | Some v => Ok v
  | None => Raise KeyError
  end.

Definition channel_maps (reduction_cell_indices : list Z) (max_index : Z)
  : result (gmap Z Z * gmap Z Z) :=
  match reduction_cell_indices with
  | [r_1; r_2] =>
      let channel_map_from :=
        dict_update (dict_update (dict_update ∅ (range_dict 2 r_1 0))
                       (range_dict r_1 r_2 1)) (range_dict r_2 max_index 2) in
      let channel_map_to :=
        dict_update (dict_update (dict_update ∅ (range_dict 3 (r_1 + 1) 0))
                       (range_dict (r_1 + 1) (r_2 + 1) 1))
                    (range_dict (r_2 + 1) max_index 2) in
      Ok (channel_map_from, channel_map_to)
  | _ => Raise AssertionError
  end.

(** The operations that sit on the edges of the macro-graph, with their
    channel arguments. *)
Inductive MacroOp : Type :=
| MIdentity
| MStem (C_in C_out : Z)
| MReLUConvBN (C_in C_out kernel_size : Z) (affine : bool)
| MFactorizedReduce (C_in C_out : Z) (affine : bool)
| MClassifier (in_features num_classes : Z)
| MAuxiliaryHead (C_in num_classes : Z).

(** The edges of the macro-graph, in the order in which [__init__] adds
    them. *)
Definition makrograph_edges (auxiliary : bool) : list (Z * Z) :=
  ((fun i => (i, i + 1)) <$> seqZ 1 10)
  ++ ((fun i => (i, i + 2)) <$> seqZ 4 6)
  ++ [(2, 4); (2, 5)]
  ++ (if auxiliary then [(11, 12); (11, 13)] else [(11, 12)]).

(** [sorted(self.edges(data=True))]: by source, then by target. *)
Definition edge_le (e1 e2 : Z * Z) : bool :=
  (e1.1 <? e2.1) || ((e1.1 =? e2.1) && (e1.2 <=? e2.2)).

Fixpoint insert_edge (e : Z * Z) (l : list (Z * Z)) : list (Z * Z) :=
  match l with
  | [] => [e]
  | e' :: l' => if edge_le e e' then e :: e' :: l' else e' :: insert_edge e l'
  end.

Definition sorted_edges (l : list (Z * Z)) : list (Z * Z) := foldr insert_edge [] l.

Definition set_edge_op (ops : gmap (Z * Z) MacroOp) (e : Z * Z) (o : MacroOp)
  : result (gmap (Z * Z) MacroOp) :=
  match ops !! e with
  | Some _ => Ok (<[e := o]> ops)
  | None => Raise KeyError
  end.

(** One turn of the loop of [_set_makrograph_ops] over the sorted edges. *)
Definition set_connecting_op (channels : list Z) (num_in_edges : Z)
    (channel_map_from channel_map_to : gmap Z Z) (reduction_cell_indices : list Z)
    (max_index : Z) (affine : bool)
    (ops : gmap (Z * Z) MacroOp) (e : Z * Z) : result (gmap (Z * Z) MacroOp) :=
  let '(u, v) := e in
  if (1 <? u) && (v <? max_index) then
    if u =? 3 then Ok ops
    else
      kf ← dict_get channel_map_from u;
      C_in ← py_index channels kf;
      kt ← dict_get channel_map_to v;
      C_out ← py_index channels kt;
      if C_in =? C_out then
        let C_in' := if u =? 2 then C_in * 3 else C_in * num_in_edges in
        let C_out' := if bool_decide (v ∈ reduction_cell_indices) then C_out * 2 else C_out in
        set_edge_op ops e (MReLUConvBN C_in' C_out' 1 affine)
      else
        set_edge_op ops e (MFactorizedReduce (C_in * num_in_edges) C_out affine)
  else Ok ops.

Definition _set_makrograph_ops (in_channels num_classes : Z) (channels : list Z)
    (num_in_edges : Z) (edges : list (Z * Z))
    (channel_map_from channel_map_to : gmap Z Z) (reduction_cell_indices : list Z)
    (max_index : Z) (affine : bool) : result (gmap (Z * Z) MacroOp) :=
  let stem_multiplier := 3 in
  let ops0 : gmap (Z * Z) MacroOp := list_to_map ((fun e => (e, MIdentity)) <$> edges) in
  c0 ← py_index channels 0;
  ops1 ← set_edge_op ops0 (1, 2) (MStem in_channels (c0 * stem_multiplier));
  ops2 ← foldl (fun acc e =>
                  ops ← acc;
                  set_connecting_op channels num_in_edges channel_map_from
                    channel_map_to reduction_cell_indices max_index affine ops e)
               (Ok ops1) (sorted_edges edges);
  last_edge ← py_last (sorted_edges edges);
  c_last ← py_last channels;
  set_edge_op ops2 last_edge (MClassifier (c_last * num_in_edges) num_classes).

(** The macro-graph as [__init__] leaves it: the channel widths
    [32, 64, 128], four incoming edges per cell output, the reduction cells
    at the nodes 6 and 9. *)
Definition makrograph_ops (in_channels num_classes : Z) (auxiliary : bool)
  : result (gmap (Z * Z) MacroOp) :=
  let channels := [32; 64; 128] in
  let num_in_edges := 4 in
  let reduction_cell_indices := [6; 9] in
  '(channel_map_from, channel_map_to) ← channel_maps reduction_cell_indices 12;
  _set_makrograph_ops in_channels num_classes channels num_in_edges
    (makrograph_edges auxiliary) channel_map_from channel_map_to
    reduction_cell_indices 12 true.

(** [prepare_evaluation]: with the auxiliary output, the edge from node 11
    to node 12 gets the auxiliary head. *)
Definition prepare_evaluation (num_classes : Z) (channels : list Z) (num_in_edges : Z)
    (auxiliary : bool) (ops : gmap (Z * Z) MacroOp) : result (gmap (Z * Z) MacroOp) :=
  if auxiliary then
    c_last ← py_last channels;
    set_edge_op ops (11, 12) (MAuxiliaryHead (c_last * num_in_edges) num_classes)
  else Ok ops.

(** The channel width that [_set_cell_ops] gives to the cell at a node of
    the macro-graph: by stage for the normal cells, by position for the
    reduction cells. *)
Definition cell_scopes : list (Z * string) :=
  [ (4, "n_stage_1"); (5, "n_stage_1"); (6, "r_stage_1"); (7, "n_stage_2");
    (8, "n_stage_2"); (9, "r_stage_2"); (10, "n_stage_3"); (11, "n_stage_3") ]%string.

Definition cell_channels (channels : list Z) (reduction_cell_indices : list Z)
  : gmap Z Z :=
  let stages := ["n_stage_1"; "n_stage_2"; "n_stage_3"]%string in
  let normal : list (Z * Z) :=
    '(scope, c) ← zip stages channels;
    omap (fun ns : Z * string =>
            if String.eqb ns.2 scope then Some (ns.1, c) else None) cell_scopes in
  let reduction : list (Z * Z) := zip reduction_cell_indices (drop 1 channels) in
  list_to_map (normal ++ reduction).

(** What an operation does to the channel width. *)
Definition maps_width (o : MacroOp) (w_in w_out : Z) : Prop :=
  match o with
  | MIdentity => w_in = w_out
  | MStem a b | MReLUConvBN a b _ _ | MFactorizedReduce a b _ => a = w_in ∧ b = w_out
  | MClassifier a _ | MAuxiliaryHead a _ => a = w_in
  end.

(** ** Further inputs *)

(** An optimizer on the NAS-Bench-301 search space whose population holds
    the search space as [__init__] leaves it, measured once. *)
Definition nb301_state
  : SuccessiveHalving NasBench301SearchSpace (@DatasetApi compact_Conversions) :=
  mkSH 400 VAL_ACCURACY "cifar10" false 100 2 2 "epoch" 1 [0%nat] [0%nat] ∅
       NasBench301SearchSpace_init (Some constant_api)
       [mkModel NasBench301SearchSpace_init 90%Q None].

(** An edge as [_set_cell_ops] leaves it: the candidate list of [_set_ops]
    on data without weights, not finalized and not deleted. *)
Definition fresh_edge (e : InEdge) : Prop :=
  ∃ stride data, e.2 = _set_ops stride data ∧
    alpha data = None ∧ is_final data = false ∧ deleted data = false.

(** * Properties *)

(** ** [query] *)

Section QueryProperties.
Context `{Conversions}.

Lemma epoch_assertion_spec (epoch : Z) :
  epoch_assertion epoch = true ↔ epoch = 0 ∨ epoch = -1 ∨ epoch = 100.
Proof.
  unfold epoch_assertion, truthy.
  rewrite orb_true_iff, negb_true_iff, negb_false_iff, Z.eqb_eq, bool_decide_eq_true.
  rewrite !elem_of_cons, elem_of_nil. tauto.
Qed.

(** C5, as amended.  Whenever a benchmark handle is supplied, the epoch
    assertion of [query] passes exactly for the epochs 0, -1 and 100:
    [query] raises [AssertionError] for every other epoch and for none of
    these three. *)
Theorem query_epoch_assertion (self : NasBench301SearchSpace)
    (metric : option Metric) (ds : string) (epoch : Z) (api : DatasetApi) :
  (epoch_assertion epoch = true ↔ epoch = 0 ∨ epoch = -1 ∨ epoch = 100) ∧
  (query self metric ds epoch (Some api) = Raise AssertionError
     ↔ ¬ (epoch = 0 ∨ epoch = -1 ∨ epoch = 100)).
Proof.
  split; [apply epoch_assertion_spec|].
  rewrite <- epoch_assertion_spec. unfold query.
  destruct (epoch_assertion epoch); simpl.
  - split; [|intros []; reflexivity].
    repeat case_decide; discriminate.
  - split; [intros _; discriminate | reflexivity].
Qed.

(** C6.  With a benchmark handle and an epoch that passes the assertion,
    [query] returns -1 for every metric other than the validation accuracy
    and the train time; without a handle it raises [NotImplementedError]
    whatever the metric and the epoch. *)
Theorem query_sentinel (self : NasBench301SearchSpace)
    (metric : option Metric) (ds : string) (epoch : Z) (api : DatasetApi)
    (Hepoch : epoch_assertion epoch = true)
    (Hval : metric ≠ Some VAL_ACCURACY) (Htime : metric ≠ Some TRAIN_TIME) :
  query self metric ds epoch (Some api) = Ok (-1)%Q ∧
  ∀ (metric' : option Metric) (epoch' : Z),
    query self metric' ds epoch' None = Raise NotImplementedError.
Proof.
  split; [|reflexivity].
  unfold query. rewrite Hepoch. simpl.
  repeat case_decide; congruence.
Qed.
End QueryProperties.

(** C5, as the spec states it, fails at epoch 0: the assertion passes and
    [query] answers, although 0 is neither -1 nor 100. *)
Lemma query_epoch_zero_passes :
  epoch_assertion 0 = true ∧
  query NasBench301SearchSpace_init (Some RAW) "cifar10" 0 (Some constant_api)
    = Ok (-1)%Q ∧
  ¬ (∀ epoch : Z, epoch_assertion epoch = true ↔ epoch = -1 ∨ epoch = 100).
Proof.
  split; [reflexivity|]. split; [reflexivity|].
  intros Hall. destruct (proj1 (Hall 0) eq_refl); discriminate.
Qed.

(** [query_sentinel] at the test accuracy and epoch 100. *)
Lemma query_sentinel_witness :
  epoch_assertion 100 = true ∧
  query NasBench301SearchSpace_init (Some TEST_ACCURACY) "cifar10" 100
    (Some constant_api) = Ok (-1)%Q.
Proof.
  split; [reflexivity|].
  apply (query_sentinel NasBench301SearchSpace_init (Some TEST_ACCURACY)
           "cifar10" 100 constant_api); [reflexivity | discriminate | discriminate].
Defined.

(** ** [_update_history] *)

Section HistoryProperties.
Context {G Api : Type}.

Lemma replace_first_lower_length (acc : nat → Q) (child : nat) (hist : list nat) :
  length (replace_first_lower acc child hist) = length hist.
Proof.
  induction hist as [|p rest IH]; simpl; [reflexivity|].
  destruct (Qlt_le_dec (acc p) (acc child)); simpl; congruence.
Qed.

Lemma replace_first_lower_hit (acc : nat → Q) (child : nat) (hist : list nat) :
  ∀ (i : nat) (p : nat),
    hist !! i = Some p →
    (acc p < acc child)%Q →
    (∀ j q, (j < i)%nat → hist !! j = Some q → ¬ (acc q < acc child)%Q) →
    replace_first_lower acc child hist = <[i := child]> hist.
Proof.
  induction hist as [|p0 rest IH]; intros i p Hi Hlt Hfirst; [discriminate|].
  simpl. destruct i as [|i]; simpl in *.
  - injection Hi as ->.
    destruct (Qlt_le_dec (acc p) (acc child)) as [_|Hle]; [reflexivity|].
    exfalso. exact (Qle_not_lt _ _ Hle Hlt).
  - destruct (Qlt_le_dec (acc p0) (acc child)) as [Hlt0|_].
    + exfalso. apply (Hfirst O p0); [lia | reflexivity | exact Hlt0].
    + f_equal. apply (IH i p Hi Hlt).
      intros j q Hj Hq. apply (Hfirst (S j) q); [lia | exact Hq].
Qed.

Lemma replace_first_lower_miss (acc : nat → Q) (child : nat) (hist : list nat) :
  (∀ p, p ∈ hist → ¬ (acc p < acc child)%Q) →
  replace_first_lower acc child hist = hist.
Proof.
  induction hist as [|p rest IH]; intros Hnone; simpl; [reflexivity|].
  destruct (Qlt_le_dec (acc p) (acc child)) as [Hlt|_].
  - exfalso. apply (Hnone p); [left | exact Hlt].
  - f_equal. apply IH. intros q Hq. apply Hnone. right. exact Hq.
Qed.

(** C9.  [_update_history] keeps [len(history) <= 100]: below 100 entries it
    appends the child; otherwise it overwrites the first entry whose accuracy
    is strictly lower than the child's and nothing else; and when no entry
    has a lower accuracy the history stays as it is. *)
Theorem update_history_bounded (self : SuccessiveHalving G Api) (child : nat) :
  let acc := accuracy_at (heap self) in
  let hist := history self in
  let hist' := history (_update_history self child) in
  ((length hist ≤ 100)%nat → (length hist' ≤ 100)%nat) ∧
  ((length hist < 100)%nat → hist' = hist ++ [child]) ∧
  (∀ (i p : nat),
      (100 ≤ length hist)%nat →
      hist !! i = Some p →
      (acc p < acc child)%Q →
      (∀ j q, (j < i)%nat → hist !! j = Some q → ¬ (acc q < acc child)%Q) →
      hist' = <[i := child]> hist ∧
      ∀ j, j ≠ i → hist' !! j = hist !! j) ∧
  ((100 ≤ length hist)%nat →
   (∀ p, p ∈ hist → ¬ (acc p < acc child)%Q) →
   hist' = hist).
Proof.
  intros acc hist hist'. subst hist'. unfold _update_history. simpl.
  fold hist. fold acc.
  destruct (decide (length hist < 100)%nat) as [Hlt|Hge].
  - split; [|split; [|split]].
    + intros _. rewrite length_app. simpl. lia.
    + reflexivity.
    + intros; lia.
    + intros; lia.
  - split; [|split; [|split]].
    + intros Hle. rewrite replace_first_lower_length. exact Hle.
    + intros; lia.
    + intros i p _ Hi Hp Hfirst.
      rewrite (replace_first_lower_hit acc child hist i p Hi Hp Hfirst).
      split; [reflexivity|].
      intros j Hj. apply list_lookup_insert_ne. congruence.
    + intros _ Hnone. apply replace_first_lower_miss. exact Hnone.
Qed.
End HistoryProperties.

(** ** [sample_random_architecture] *)

Lemma np_choice_bound (r : nat) : 0 ≤ np_choice NUM_OPS r ≤ 6.
Proof.
  unfold np_choice, NUM_OPS.
  pose proof (Z.mod_pos_bound (Z.of_nat r) 7 ltac:(lia)). lia.
Qed.

Lemma np_choice2_spec (n : Z) (r1 r2 : nat) :
  2 ≤ n →
  (np_choice2 n r1 r2).1 ≠ (np_choice2 n r1 r2).2 ∧
  0 ≤ (np_choice2 n r1 r2).1 < n ∧ 0 ≤ (np_choice2 n r1 r2).2 < n.
Proof.
  intros Hn. unfold np_choice2. simpl.
  pose proof (Z.mod_pos_bound (Z.of_nat r1) n ltac:(lia)) as Ha.
  pose proof (Z.mod_pos_bound (Z.of_nat r2) (n - 1) ltac:(lia)) as Hb.
  destruct (Z.ltb_spec (Z.of_nat r2 `mod` (n - 1)) (Z.of_nat r1 `mod` n)); lia.
Qed.

(** Every ordered pair of distinct values is an outcome of [np_choice2]. *)
Lemma np_choice2_onto (n a b : Z) :
  0 ≤ a < n → 0 ≤ b < n → a ≠ b →
  ∃ r1 r2, np_choice2 n r1 r2 = (a, b).
Proof.
  intros Ha Hb Hab.
  exists (Z.to_nat a), (Z.to_nat (if b <? a then b else b - 1)).
  unfold np_choice2. rewrite !Z2Nat.id by (destruct (Z.ltb_spec b a); lia).
  rewrite (Z.mod_small a n) by lia.
  destruct (Z.ltb_spec b a) as [Hlt|Hge].
  - rewrite (Z.mod_small b (n - 1)) by lia.
    destruct (Z.ltb_spec b a); [reflexivity | lia].
  - rewrite (Z.mod_small (b - 1) (n - 1)) by lia.
    destruct (Z.ltb_spec (b - 1) a); [lia | f_equal; lia].
Qed.

Lemma vertex_pairs_sampled (i : nat) (r1 r2 ro1 ro2 : nat) :
  vertex_pairs_ok i
    ((np_choice2 (Z.of_nat i + 2) r1 r2).1, np_choice NUM_OPS ro1)
    ((np_choice2 (Z.of_nat i + 2) r1 r2).2, np_choice NUM_OPS ro2).
Proof.
  unfold vertex_pairs_ok. cbn [fst snd].
  pose proof (np_choice2_spec (Z.of_nat i + 2) r1 r2 ltac:(lia)) as (Hne & H1 & H2).
  pose proof (np_choice_bound ro1). pose proof (np_choice_bound ro2).
  split; [exact Hne | lia].
Qed.

Section SamplingProperties.
Context `{Conversions}.

(** C10, as amended.  Called with [load_labeled] false (the default),
    [sample_random_architecture] returns for every outcome of its random
    draws, and installs a compact encoding with 8 pairs per cell type; the
    two inputs of intermediate node i are distinct and below i + 2, and every
    operation index lies in 0..6. *)
Theorem sample_random_architecture_compact (self : NasBench301SearchSpace)
    (api : option DatasetApi) (rnd : nat → nat) :
  ∃ self' normal reduce,
    sample_random_architecture self api false rnd = Ok self' ∧
    compact self' = Some (normal, reduce) ∧
    cell_encoding_ok normal ∧ cell_encoding_ok reduce.
Proof.
  unfold sample_random_architecture. simpl.
  eexists _, _, _. split; [reflexivity|]. split; [reflexivity|].
  split; (split; [reflexivity|]); intros i Hi;
    destruct i as [|[|[|[|i]]]]; try lia;
    eexists _, _; (split; [reflexivity|]); (split; [reflexivity|]);
    first [ apply (vertex_pairs_sampled 0) | apply (vertex_pairs_sampled 1)
          | apply (vertex_pairs_sampled 2) | apply (vertex_pairs_sampled 3) ].
Qed.
End SamplingProperties.

(** C10, as the spec states it, fails when [load_labeled] is set: on the
    search space as [__init__] leaves it the call raises and installs
    nothing, and with labeled architectures supplied it installs one of them,
    whatever operations it uses. *)
Lemma sample_labeled_counterexample :
  @sample_random_architecture compact_Conversions NasBench301SearchSpace_init
     (Some constant_api) true (fun _ => O) = Raise AssertionError ∧
  ∃ self',
    @sample_random_architecture compact_Conversions
       (mkSpace None (Some [labeled_with_op7]) true 100 [])
       (Some constant_api) true (fun _ => O) = Ok self' ∧
    compact self' = Some labeled_with_op7 ∧
    ¬ cell_encoding_ok labeled_with_op7.1.
Proof.
  split; [reflexivity|].
  eexists. split; [reflexivity|]. split; [reflexivity|].
  intros [_ Hok]. destruct (Hok O ltac:(lia)) as (p1 & p2 & H1 & H2 & Hv).
  simpl in H1. injection H1 as <-. destruct Hv as (_ & _ & _ & Hop & _).
  simpl in Hop. lia.
Qed.

(** ** [_truncate_input_edges]: the discrete case *)

(** C1.  The discrete case draws the edge to delete among all incoming edges,
    those already deleted included: when both draws for node 5 of the normal
    cell fall on the same edge, three of its four incoming edges survive
    [_truncate_input_edges], and the node still has three incoming edges
    after [prepare_discretization] has run on the cell. *)
Theorem truncate_discrete_repeated_draw (E : Torch) :
  length node5_in_edges = 4%nat ∧
  Forall (fun e : InEdge =>
            is_final e.2 = false ∧ has_alpha e.2 = false ∧ deleted e.2 = false)
         node5_in_edges ∧
  (∃ out, _truncate_input_edges node5_in_edges (fun _ => O) = Ok out ∧
          length (surviving out) = 3%nat) ∧
  (∃ c, prepare_discretization_cell (cell_template "normal_cell" false)
          (fun _ _ => O) = Ok c ∧
        length (incoming 5 c) = 3%nat).
Proof.
  split; [reflexivity|]. split.
  - repeat constructor.
  - split; eexists; (split; [vm_compute; reflexivity|]); reflexivity.
Qed.

(** ** [new_epoch]: the budget it returns *)

(** C3.  Under the "time" budget [new_epoch] queries the performance metric
    a second time and returns that value: on a benchmark that predicts the
    accuracy 90 and the run time 5000 for the sampled architecture, the
    returned budget is 90. *)
Theorem new_epoch_time_budget_is_accuracy :
  ∃ self b self',
    time_budget_optimizer = Ok self ∧
    @new_epoch _ _ (@NasBench301_SearchSpace compact_Conversions) self (fun _ => O)
      = Ok (b, self') ∧
    b = 90%Q ∧
    (∀ m, m ∈ heap self' →
       accuracy m = 90%Q ∧ time m = Some 90%Q ∧
       @query compact_Conversions (arch m) (Some TRAIN_TIME) "cifar10" 100
         (Some constant_api) = Ok 5000%Q).
Proof.
  eexists _, _, _. split; [reflexivity|]. split; [vm_compute; reflexivity|].
  split; [reflexivity|].
  intros m Hm. apply list_elem_of_singleton in Hm. subst m.
  split; [reflexivity|]. split; reflexivity.
Qed.

(** ** The stable descending sort *)

Lemma StronglySorted_mono {A : Type} (R R' : A → A → Prop) (l : list A) :
  (∀ a b, R a b → R' a b) → StronglySorted R l → StronglySorted R' l.
Proof.
  intros Himpl Hs. induction Hs as [|x l Hs IH Hx]; constructor; [exact IH|].
  eapply Forall_impl; [exact Hx|]. intros b. apply Himpl.
Qed.

Section SortProperties.
Context {A : Type} (key : A → Q).

Lemma insert_desc_perm (x : A) (l : list A) : insert_desc key x l ≡ₚ x :: l.
Proof.
  induction l as [|y l IH]; simpl; [reflexivity|].
  destruct (Qlt_le_dec (key x) (key y)); [|reflexivity].
  rewrite IH. apply Permutation_swap.
Qed.

Lemma sorted_desc_perm (l : list A) : sorted_desc key l ≡ₚ l.
Proof.
  induction l as [|x l IH]; simpl; [reflexivity|].
  rewrite insert_desc_perm. by rewrite IH.
Qed.

Lemma sorted_desc_length (l : list A) : length (sorted_desc key l) = length l.
Proof. by rewrite sorted_desc_perm. Qed.

Lemma before_cons (x : A) (l : list A) (a b : A) :
  before l a b → before (x :: l) a b.
Proof.
  intros (l1 & l2 & -> & Hb). exists (x :: l1), l2. split; [reflexivity | exact Hb].
Qed.

Lemma before_head (x : A) (l : list A) (b : A) : b ∈ l → before (x :: l) x b.
Proof. intros Hb. exists [], l. split; [reflexivity | exact Hb]. Qed.

Lemma ranked_before_key (l : list A) (a b : A) :
  ranked_before key l a b → (key b <= key a)%Q.
Proof.
  intros [Hlt|[Heq _]]; [apply Qlt_le_weak, Hlt|].
  rewrite Heq. apply Qle_refl.
Qed.

(** Inserting the head of [x :: l] into a ranking of elements of [l]. *)
Lemma insert_desc_ranked (x : A) (l s : list A) :
  (∀ z, z ∈ s → z ∈ l) →
  StronglySorted (ranked_before key (x :: l)) s →
  StronglySorted (ranked_before key (x :: l)) (insert_desc key x s).
Proof.
  intros Hin Hs. induction Hs as [|y s Hs IH Hy]; simpl.
  - repeat constructor.
  - destruct (Qlt_le_dec (key x) (key y)) as [Hlt|Hle].
    + constructor.
      * apply IH. intros z Hz. apply Hin. by right.
      * rewrite insert_desc_perm. constructor; [by left | exact Hy].
    + constructor; [by constructor|].
      constructor.
      * destruct (Qlt_le_dec (key y) (key x)) as [Hlt|Hle'].
        -- by left.
        -- right. split; [by apply Qle_antisym|].
           apply before_head, Hin. by left.
      * rewrite Forall_forall in Hy |- *. intros z Hz.
        pose proof (ranked_before_key _ _ _ (Hy z Hz)) as Hzy.
        destruct (Qlt_le_dec (key z) (key x)) as [Hlt|Hle'].
        -- by left.
        -- right. split.
           ++ apply Qle_antisym; [exact Hle'|].
              apply (Qle_trans _ (key y)); [exact Hzy | exact Hle].
           ++ apply before_head, Hin. by right.
Qed.

Lemma ranked_before_cons (x : A) (l : list A) (a b : A) :
  ranked_before key l a b → ranked_before key (x :: l) a b.
Proof.
  intros [Hlt|[Heq Hb]]; [by left|]. right. split; [exact Heq|]. by apply before_cons.
Qed.

(** The sorted list ranks its elements: larger keys first, ties in the order
    of the input. *)
Lemma sorted_desc_ranked (l : list A) :
  StronglySorted (ranked_before key l) (sorted_desc key l).
Proof.
  induction l as [|x l IH]; simpl; [constructor|].
  apply insert_desc_ranked.
  - intros z Hz. by rewrite <- (sorted_desc_perm l).
  - revert IH. apply StronglySorted_mono. intros a b. apply ranked_before_cons.
Qed.

Lemma sorted_desc_descending (l : list A) :
  StronglySorted (fun a b => (key b <= key a)%Q) (sorted_desc key l).
Proof.
  generalize (sorted_desc_ranked l). apply StronglySorted_mono.
  intros a b. apply ranked_before_key.
Qed.

(** The first element of the sorted list has the largest key. *)
Lemma sorted_desc_head_best (l : list A) (best : A) :
  sorted_desc key l !! 0%nat = Some best →
  ∀ x, x ∈ l → (key x <= key best)%Q.
Proof.
  intros Hbest x Hx. rewrite <- (sorted_desc_perm l) in Hx.
  pose proof (sorted_desc_descending l) as Hs.
  destruct (sorted_desc key l) as [|y s]; [discriminate|].
  injection Hbest as ->. apply StronglySorted_inv in Hs as [_ Hall].
  apply elem_of_cons in Hx as [->|Hx]; [apply Qle_refl|].
  rewrite Forall_forall in Hall. by apply Hall.
Qed.
End SortProperties.

Lemma bind_Ok {A B : Type} (c : result A) (k : A → result B) (b : B) :
  c ≫= k = Ok b → ∃ a, c = Ok a ∧ k a = Ok b.
Proof. destruct c as [a|e]; simpl; [eauto | discriminate]. Qed.

Tactic Notation "inv_bind" hyp(H) "as" simple_intropattern(x) ident(Hx) :=
  apply bind_Ok in H as (x & Hx & H).

(** ** [new_epoch]: the end of a round *)

Section RoundProperties.
Context {G Api : Type} `{SearchSpace G Api}.

Lemma update_optimizer_stats_frame (self self' : SuccessiveHalving G Api) :
  update_optimizer_stats self = Ok self' →
  ∃ stats, self' = assign self (end_ self) (fidelity self) (number_archs self)
             (fidelity_counter self) (sampled_archs self) (history self) stats (heap self).
Proof.
  unfold update_optimizer_stats. intros Hu.
  inv_bind Hu as r Hr. destruct (heap self !! r); [|discriminate].
  inv_bind Hu as stats Hstats. injection Hu as <-. eauto.
Qed.

Lemma evaluate_next_frame (self mid : SuccessiveHalving G Api) rnd b :
  evaluate_next self rnd = Ok (b, mid) →
  budget_max mid = budget_max self ∧ eta mid = eta self ∧
  fidelity mid = fidelity self ∧ number_archs mid = number_archs self ∧
  end_ mid = end_ self ∧ fidelity_counter mid = fidelity_counter self + 1 ∧
  ((Z.of_nat (length (sampled_archs self)) < number_archs self ∧
    length (sampled_archs mid) = S (length (sampled_archs self))) ∨
   (number_archs self ≤ Z.of_nat (length (sampled_archs self)) ∧
    0 ≤ fidelity_counter self < Z.of_nat (length (sampled_archs self)) ∧
    length (sampled_archs mid) = length (sampled_archs self))).
Proof.
  unfold evaluate_next. intros He.
  inv_bind He as [[r a] old_time] Hmodel.
  inv_bind He as acc Hacc. inv_bind He as [budget time'] Hbudget.
  inv_bind He as [heap' sampled'] Hstore.
  inv_bind He as self2 Hstats. injection He as <- <-.
  apply update_optimizer_stats_frame in Hstats as [stats ->]. simpl.
  repeat (split; [reflexivity|]).
  destruct (Z.ltb_spec (Z.of_nat (length (sampled_archs self))) (number_archs self))
    as [Hfill|Hfull].
  - left. injection Hstore as <- <-. split; [exact Hfill|].
    rewrite length_app. simpl. lia.
  - right. inv_bind Hstore as s Hs. injection Hstore as <- <-.
    unfold py_setitem in Hs.
    destruct (Z.ltb_spec (fidelity_counter self) 0);
      destruct (Z.leb_spec (Z.of_nat (length (sampled_archs self))) (fidelity_counter self));
      simpl in Hs; try discriminate.
    injection Hs as <-. rewrite length_insert. lia.
Qed.

Lemma end_of_round_spec (mid : SuccessiveHalving G Api) :
  0 < eta mid → 1 ≤ number_archs mid → sampled_archs mid ≠ [] →
  let next := eta mid * fidelity mid in
  let sorted := sorted_desc (accuracy_at (heap mid)) (sampled_archs mid) in
  let k := number_archs mid `div` eta mid in
  ∃ self',
    end_of_round mid = Ok self' ∧
    fidelity self' = next ∧ fidelity_counter self' = 0 ∧
    number_archs self' = Z.of_nat (length (sampled_archs self')) ∧
    heap self' = heap mid ∧ history self' = history mid ∧
    eta self' = eta mid ∧ budget_max self' = budget_max mid ∧
    (budget_max mid < next → end_ self' = true ∧ sampled_archs self' = sorted) ∧
    (next ≤ budget_max mid → 0 < k →
       end_ self' = end_ mid ∧ sampled_archs self' = take (Z.to_nat k) sorted) ∧
    (next ≤ budget_max mid → ¬ 0 < k →
       end_ self' = true ∧ sampled_archs self' = take 1 sorted ∧
       length (sampled_archs self') = 1%nat).
Proof.
  intros Heta Hn Hne next sorted k. unfold end_of_round.
  fold next. fold sorted. fold k.
  assert (Hk : 0 ≤ k) by (apply Z.div_pos; lia).
  destruct (Z.ltb_spec (budget_max mid) next) as [Hover|Hfits].
  - simpl. eexists. split; [reflexivity|]. simpl.
    repeat (split; [reflexivity|]).
    split; [done|]. split; intros; lia.
  - destruct (Z.eqb_spec (eta mid) 0) as [|_]; [lia|].
    destruct (Z.eqb_spec k 0) as [Hk0|Hk0]; simpl.
    + assert (Hs : ∃ best rest, sorted = best :: rest).
      { destruct sorted as [|best rest] eqn:Hs; [|eauto].
        exfalso. apply Hne. apply Permutation_nil_r.
        rewrite <- (sorted_desc_perm (accuracy_at (heap mid))). fold sorted. by rewrite Hs. }
      destruct Hs as (best & rest & Hs). rewrite Hs. simpl.
      eexists. split; [reflexivity|]. simpl.
      repeat (split; [reflexivity|]).
      split; [intros; lia|]. split; [intros; lia|]. done.
    + unfold py_slice_to. destruct (Z.ltb_spec k 0); [lia|].
      eexists. split; [reflexivity|]. simpl.
      repeat (split; [reflexivity|]).
      split; [intros; lia|]. split; [done|]. intros; lia.
Qed.

Lemma new_epoch_mid (self mid : SuccessiveHalving G Api) rnd b :
  evaluate_next self rnd = Ok (b, mid) →
  fidelity_counter mid ≠ number_archs mid →
  new_epoch self rnd = Ok (b, mid).
Proof.
  intros He Hc. unfold new_epoch. rewrite He. simpl.
  destruct (Z.eqb_spec (fidelity_counter mid) (number_archs mid)); [done|reflexivity].
Qed.

Lemma new_epoch_last (self mid : SuccessiveHalving G Api) rnd b :
  evaluate_next self rnd = Ok (b, mid) →
  fidelity_counter mid = number_archs mid →
  new_epoch self rnd = end_of_round mid ≫= λ self', Ok (b, self').
Proof.
  intros He Hc. unfold new_epoch. rewrite He. simpl.
  destruct (Z.eqb_spec (fidelity_counter mid) (number_archs mid)); [reflexivity|done].
Qed.

(** C2.  For a positive [eta]: when the call of [new_epoch] that brings the
    position counter to [number_archs] has evaluated its architecture, it
    returns; the population was sorted by descending accuracy; the stored
    fidelity is [eta * fidelity]; if that exceeds [budget_max] the optimizer
    ends with the whole sorted population; otherwise if
    [number_archs / eta] (floor division) is positive the population is cut
    to that many of the best entries; otherwise only the best entry stays
    and the optimizer ends; and in all cases [number_archs] is the length of
    the new population and the counter is 0. *)
Theorem new_epoch_end_of_round (self mid : SuccessiveHalving G Api)
    (rnd : nat → nat) (b : Q)
    (Heta : 0 < eta self)
    (Heval : evaluate_next self rnd = Ok (b, mid))
    (Hlast : fidelity_counter self + 1 = number_archs self) :
  let acc := accuracy_at (heap mid) in
  let next := eta self * fidelity self in
  let sorted := sorted_desc acc (sampled_archs mid) in
  let k := number_archs self `div` eta self in
  sorted ≡ₚ sampled_archs mid ∧
  StronglySorted (fun r1 r2 => (acc r2 <= acc r1)%Q) sorted ∧
  ∃ self',
    new_epoch self rnd = Ok (b, self') ∧
    fidelity self' = next ∧
    fidelity_counter self' = 0 ∧
    number_archs self' = Z.of_nat (length (sampled_archs self')) ∧
    (budget_max self < next →
       end_ self' = true ∧ sampled_archs self' = sorted) ∧
    (next ≤ budget_max self → 0 < k →
       end_ self' = end_ self ∧ sampled_archs self' = take (Z.to_nat k) sorted) ∧
    (next ≤ budget_max self → ¬ 0 < k →
       end_ self' = true ∧ sampled_archs self' = take 1 sorted ∧
       length (sampled_archs self') = 1%nat ∧
       ∀ best, sampled_archs self' = [best] →
         ∀ r, r ∈ sampled_archs mid → (acc r <= acc best)%Q).
Proof.
  intros acc next sorted k.
  split; [apply sorted_desc_perm|]. split; [apply sorted_desc_descending|].
  pose proof (evaluate_next_frame _ _ _ _ Heval)
    as (Hbm & He & Hf & Hn & Hend & Hc & Hlen).
  assert (Hn1 : 1 ≤ number_archs mid) by lia.
  assert (Hne : sampled_archs mid ≠ []).
  { intros Hnil. rewrite Hnil in Hlen. simpl in Hlen. lia. }
  destruct (end_of_round_spec mid ltac:(lia) Hn1 Hne)
    as (self' & Hr & Hf' & Hc' & Hn' & _ & _ & _ & _ & Hover & Hcut & Hone).
  rewrite Hbm, He, Hf, Hn, Hend in *.
  exists self'. split.
  - rewrite (new_epoch_last self mid rnd b Heval) by lia. by rewrite Hr.
  - split; [exact Hf'|]. split; [exact Hc'|]. split; [exact Hn'|].
    split; [exact Hover|]. split; [exact Hcut|].
    intros Hfits Hk. destruct (Hone Hfits Hk) as (Hend' & Hs & Hl).
    split; [exact Hend'|]. split; [exact Hs|]. split; [exact Hl|].
    intros best Hbest r Hr'. apply (sorted_desc_head_best acc (sampled_archs mid)); [|exact Hr'].
    rewrite Hs in Hbest. unfold acc.
    destruct (sorted_desc (accuracy_at (heap mid)) (sampled_archs mid)) as [|x rest];
      simpl in Hbest; [discriminate|].
    rewrite take_0 in Hbest. injection Hbest as ->. reflexivity.
Qed.
End RoundProperties.

(** [new_epoch_end_of_round] on the table benchmark: the second of two
    architectures is evaluated, the better one is promoted to fidelity 2. *)
Lemma new_epoch_end_of_round_witness :
  ∃ self',
    @new_epoch Z unit table_SearchSpace last_call_state (fun _ => 9%nat)
      = Ok (1%Q, self') ∧
    fidelity self' = 2 ∧ fidelity_counter self' = 0 ∧
    number_archs self' = 1 ∧ sampled_archs self' = [1%nat].
Proof.
  pose proof (fun mid b Heval =>
    @new_epoch_end_of_round Z unit table_SearchSpace last_call_state mid
      (fun _ => 9%nat) b eq_refl Heval eq_refl) as Hround.
  edestruct Hround as (_ & _ & self' & Hnew & Hf & Hc & Hn & _ & Hcut & _);
    [vm_compute; reflexivity|].
  destruct Hcut as [_ Hs]; [vm_compute; discriminate | reflexivity |].
  exists self'. split; [exact Hnew|]. split; [exact Hf|]. split; [exact Hc|].
  rewrite Hn, Hs. split; reflexivity.
Defined.

(** ** Rounds of successive halving *)

Section HalvingProperties.
Context {G Api : Type} `{SearchSpace G Api}.

Lemma new_epoch_inv (self self' : SuccessiveHalving G Api) rnd b :
  new_epoch self rnd = Ok (b, self') →
  ∃ mid, evaluate_next self rnd = Ok (b, mid) ∧
    ((fidelity_counter mid ≠ number_archs mid ∧ self' = mid) ∨
     (fidelity_counter mid = number_archs mid ∧ end_of_round mid = Ok self')).
Proof.
  unfold new_epoch. intros Hn. inv_bind Hn as [b' mid] He.
  destruct (Z.eqb_spec (fidelity_counter mid) (number_archs mid)) as [Heq|Hne].
  - inv_bind Hn as s Hs. injection Hn as -> ->. eauto.
  - injection Hn as -> ->. eauto.
Qed.

(** A call inside a round keeps the parameters and moves the counter. *)
Lemma evaluate_next_in_round (s0 s mid : SuccessiveHalving G Api) rnd b (i : Z) :
  in_round s0 s i → 0 ≤ i < number_archs s0 →
  evaluate_next s rnd = Ok (b, mid) →
  in_round s0 mid (i + 1).
Proof.
  intros (Hc & Hlen & He & Hb & Hf & Hn & Hend) Hi Heval.
  pose proof (evaluate_next_frame _ _ _ _ Heval)
    as (Hbm' & He' & Hf' & Hn' & Hend' & Hc' & Hlen').
  unfold in_round. rewrite Hbm', He', Hf', Hn', Hend', Hc'.
  repeat split; try congruence; try lia.
Qed.

(** The calls of a round: the last one runs [end_of_round] on a full
    population. *)
Lemma run_round (m : nat) :
  ∀ (s0 s s' : SuccessiveHalving G Api) rnd bs (i : Z),
    in_round s0 s i → 0 ≤ i → i + Z.of_nat (S m) = number_archs s0 →
    run (S m) rnd s = Ok (bs, s') →
    ∃ mid, in_round s0 mid (number_archs s0) ∧ sampled_archs mid ≠ [] ∧
           end_of_round mid = Ok s'.
Proof.
  induction m as [|m IH]; intros s0 s s' rnd bs i Hin Hi Hm Hrun.
  - simpl in Hrun. inv_bind Hrun as [b s1] Hnew. injection Hrun as <- <-.
    apply new_epoch_inv in Hnew as (mid & Heval & Hcase).
    pose proof (evaluate_next_in_round s0 s mid _ _ i Hin ltac:(lia) Heval) as Hmid.
    pose proof (evaluate_next_frame _ _ _ _ Heval) as (_ & _ & _ & _ & _ & _ & Hlen).
    replace (i + 1) with (number_archs s0) in Hmid by lia.
    exists mid. split; [exact Hmid|].
    destruct Hmid as (Hc & _ & _ & _ & _ & Hn & _).
    split.
    + intros Hnil. rewrite Hnil in Hlen. simpl in Hlen.
      destruct Hin as (? & ? & ? & ? & ? & ? & ?). lia.
    + destruct Hcase as [[Hne _]|[_ Hend]]; [congruence | exact Hend].
  - change (run (S (S m)) rnd s) with
      (new_epoch s (rnd O) ≫= λ '(b, self'),
         run (S m) (fun j => rnd (S j)) self' ≫= λ '(bs, self''), Ok (b :: bs, self''))
      in Hrun.
    inv_bind Hrun as [b s1] Hnew. inv_bind Hrun as [bs' s2] Hrest.
    injection Hrun as <- <-.
    apply new_epoch_inv in Hnew as (mid & Heval & Hcase).
    pose proof (evaluate_next_in_round s0 s mid _ _ i Hin ltac:(lia) Heval) as Hmid.
    destruct Hcase as [[_ ->]|[Heq _]].
    + apply (IH s0 mid s2 (fun j => rnd (S j)) bs' (i + 1) Hmid); [lia | lia | exact Hrest].
    + destruct Hmid as (Hc & _ & _ & _ & _ & Hn & _). lia.
Qed.

Lemma round_start_in_round (eta0 bmax : Z) (s : SuccessiveHalving G Api) :
  round_start eta0 bmax s → in_round s s 0.
Proof.
  intros (Hc & Hn & Hlen & _). unfold in_round.
  repeat split; try done.
  destruct Hlen as [->|Hl]; [by left | by right].
Qed.

(** One round from a state between rounds. *)
Lemma round_spec (eta0 bmax : Z) (s s' : SuccessiveHalving G Api) rnd :
  2 ≤ eta0 → round_start eta0 bmax s → round rnd s = Ok s' →
  round_start eta0 bmax s' ∧
  fidelity s' = eta0 * fidelity s ∧
  number_archs s' = Z.of_nat (length (sampled_archs s')) ∧
  (bmax < fidelity s' → end_ s' = true) ∧
  (end_ s = true → end_ s' = true) ∧
  (number_archs s' < number_archs s ∨
   (number_archs s' = 1 ∧ number_archs s = 1) ∨
   (bmax < fidelity s' ∧ number_archs s' = number_archs s)).
Proof.
  intros Heta Hs Hround. unfold round in Hround.
  inv_bind Hround as [bs s1] Hrun. injection Hround as <-.
  pose proof Hs as (Hc & Hn & Hlen & He & Hb & Hf).
  destruct (Z.to_nat (number_archs s)) as [|m] eqn:Hm; [lia|].
  destruct (run_round m s s s1 rnd bs 0 (round_start_in_round _ _ _ Hs)
              ltac:(lia) ltac:(lia) Hrun)
    as (mid & (Hmc & Hmlen & Hme & Hmb & Hmf & Hmn & Hmend) & Hne & Hend).
  destruct (end_of_round_spec mid ltac:(lia) ltac:(lia) Hne)
    as (s1' & Hr & Hf' & Hc' & Hn' & _ & _ & He' & Hb' & Hover & Hcut & Hone).
  rewrite Hend in Hr. injection Hr as <-.
  rewrite Hme, Hmb, Hmf, Hmn, Hmend in *. rewrite He, Hb in *.
  assert (Hmid_len : Z.of_nat (length (sampled_archs mid)) = number_archs s).
  { destruct Hmlen as [Hl|Hl]; lia. }
  assert (Hsorted : length (sorted_desc (accuracy_at (heap mid)) (sampled_archs mid))
                    = length (sampled_archs mid)) by apply sorted_desc_length.
  assert (Hkn : number_archs s `div` eta0 < number_archs s)
    by (apply Z.div_lt; lia).
  assert (Hk0 : 0 ≤ number_archs s `div` eta0) by (apply Z.div_pos; lia).
  assert (Hfid : fidelity s < eta0 * fidelity s) by nia.
  unfold round_start.
  destruct (Z.lt_ge_cases bmax (eta0 * fidelity s)) as [Ho|Hfit].
  - destruct (Hover Ho) as [Hendt Hsa].
    assert (Hl : number_archs s1 = number_archs s) by (rewrite Hn', Hsa; lia).
    split_and!;
      first [ done | lia | (right; lia) | (right; right; lia) | (intros; lia) ].
  - destruct (Z.lt_ge_cases 0 (number_archs s `div` eta0)) as [Hk|Hk].
    + destruct (Hcut Hfit Hk) as [Hende Hsa].
      assert (Hl : number_archs s1 = number_archs s `div` eta0).
      { rewrite Hn', Hsa, length_take. lia. }
      split_and!;
        first [ done | lia | congruence | (right; lia) | (left; lia) | (intros; lia) ].
    + destruct (Hone Hfit ltac:(lia)) as (Hendt & Hsa & Hl1).
      assert (Hl : number_archs s1 = 1) by (rewrite Hn', Hl1; done).
      split_and!;
        first [ done | lia | (right; lia) | (left; lia) | (right; left; lia)
              | (intros; lia) ].
Qed.

Lemma rounds_spec (eta0 bmax : Z) (k : nat) :
  ∀ (s s' : SuccessiveHalving G Api) rnd,
    2 ≤ eta0 → round_start eta0 bmax s → rounds k rnd s = Ok s' →
    round_start eta0 bmax s' ∧
    fidelity s' = eta0 ^ Z.of_nat k * fidelity s ∧
    ((1 ≤ k)%nat → bmax < fidelity s' → end_ s' = true).
Proof.
  induction k as [|k IH]; intros s s' rnd Heta Hs Hr.
  - injection Hr as <-. split; [exact Hs|]. split; [simpl; lia | intros; lia].
  - simpl in Hr. inv_bind Hr as s1 Hround.
    destruct (round_spec eta0 bmax s s1 _ Heta Hs Hround)
      as (Hs1 & Hf1 & _ & Hend1 & _).
    destruct (IH s1 s' _ Heta Hs1 Hr) as (Hs' & Hf' & Hend').
    split; [exact Hs'|]. split.
    + rewrite Hf', Hf1, Nat2Z.inj_succ, Z.pow_succ_r by lia. lia.
    + intros _ Hover. destruct k as [|k].
      * injection Hr as <-. by apply Hend1.
      * apply Hend'; [lia | exact Hover].
Qed.

(** C8, as amended.  For [eta >= 2], [min_fidelity >= 1] and at least one
    architecture per round, after [k] rounds of a fresh optimizer the
    fidelity is [eta ^ k * min_fidelity]; the end flag is set after any
    number [k >= 1] of rounds with [eta ^ k * min_fidelity > budget_max]
    (that is, within [floor(log_eta(budget_max / min_fidelity)) + 1] rounds
    when [budget_max >= min_fidelity]); and every further round strictly
    increases the fidelity, keeps a set end flag, and either strictly
    decreases the population size, or leaves it at 1, or ends the search by
    exceeding [budget_max] and leaves the population size unchanged. *)
Theorem successive_halving_rounds (config : Config) (space : G)
    (api : option Api) (self0 : SuccessiveHalving G Api)
    (Heta : 2 ≤ cfg_eta config)
    (Hfid : 1 ≤ cfg_min_fidelity config)
    (Hpop : 1 ≤ cfg_number_archs config)
    (Hnew : SuccessiveHalving_new config space api = Ok self0) :
  ∀ (k : nat) (rnd : nat → nat → nat → nat) (self : SuccessiveHalving G Api),
    rounds k rnd self0 = Ok self →
    fidelity self = cfg_eta config ^ Z.of_nat k * cfg_min_fidelity config ∧
    ((1 ≤ k)%nat →
     cfg_budget_max config < cfg_eta config ^ Z.of_nat k * cfg_min_fidelity config →
     end_ self = true) ∧
    ∀ (rnd' : nat → nat → nat) (self' : SuccessiveHalving G Api),
      round rnd' self = Ok self' →
      fidelity self < fidelity self' ∧
      (end_ self = true → end_ self' = true) ∧
      number_archs self' = Z.of_nat (length (sampled_archs self')) ∧
      (number_archs self' < number_archs self ∨
       (number_archs self' = 1 ∧ number_archs self = 1) ∨
       (cfg_budget_max config < fidelity self' ∧ end_ self' = true ∧
        number_archs self' = number_archs self)).
Proof.
  intros k rnd self Hrounds.
  assert (Hstart : round_start (cfg_eta config) (cfg_budget_max config) self0).
  { unfold SuccessiveHalving_new in Hnew.
    destruct (negb space_QUERYABLE); [discriminate|]. injection Hnew as <-.
    unfold round_start. simpl. split_and!; first [done | by left]. }
  destruct (rounds_spec _ _ k self0 self rnd Heta Hstart Hrounds)
    as (Hs & Hf & Hend).
  assert (Hf0 : fidelity self0 = cfg_min_fidelity config).
  { unfold SuccessiveHalving_new in Hnew.
    destruct (negb space_QUERYABLE); [discriminate|]. by injection Hnew as <-. }
  rewrite Hf0 in Hf. split; [exact Hf|]. split.
  - intros Hk Hover. apply Hend; [exact Hk | by rewrite Hf].
  - intros rnd' self' Hround.
    destruct (round_spec _ _ self self' rnd' Heta Hs Hround)
      as (Hs' & Hf' & Hn' & Hover & Hkeep & Hpopcase).
    destruct Hs as (_ & _ & _ & _ & _ & Hfpos).
    split; [rewrite Hf'; nia|]. split; [exact Hkeep|]. split; [exact Hn'|].
    destruct Hpopcase as [Hlt|[Hone|[Ho Hsame]]].
    + by left.
    + right. by left.
    + right. right. split; [exact Ho|]. split; [by apply Hover | exact Hsame].
Qed.
End HalvingProperties.

(** C8, as the spec states it, fails in its own scenario (8 architectures,
    [eta = 2], fidelities 1 to 8): [log_2 (8 / 1) = 3], and after three
    rounds the end flag is still unset; the fourth round sets it.  And with
    [budget_max = 3] the second round ends the search with the population
    left at 4 entries. *)
Lemma halving_bound_counterexample :
  2 ^ 3 * 1 = 8 ∧
  (∃ s3 s4,
     scenario_optimizer 8 ≫= @rounds Z unit table_SearchSpace 3 scenario_rnd = Ok s3 ∧
     end_ s3 = false ∧ fidelity s3 = 8 ∧ number_archs s3 = 1 ∧
     @round Z unit table_SearchSpace (scenario_rnd 3) s3 = Ok s4 ∧
     end_ s4 = true ∧ fidelity s4 = 16) ∧
  (∃ s1 s2,
     scenario_optimizer 3 ≫= @rounds Z unit table_SearchSpace 1 scenario_rnd = Ok s1 ∧
     @round Z unit table_SearchSpace (scenario_rnd 1) s1 = Ok s2 ∧
     number_archs s1 = 4 ∧ number_archs s2 = 4 ∧
     length (sampled_archs s2) = 4%nat ∧ end_ s2 = true).
Proof.
  split; [reflexivity|]. split.
  - eexists _, _. split; [vm_compute; reflexivity|].
    split; [reflexivity|]. split; [reflexivity|]. split; [reflexivity|].
    split; [vm_compute; reflexivity|]. split; reflexivity.
  - eexists _, _. split; [vm_compute; reflexivity|].
    split; [vm_compute; reflexivity|]. repeat split.
Qed.

(** [successive_halving_rounds] in the scenario: the fourth round ends the
    search at fidelity 16. *)
Lemma successive_halving_rounds_witness :
  ∃ self0 self,
    scenario_optimizer 8 = Ok self0 ∧
    @rounds Z unit table_SearchSpace 4 scenario_rnd self0 = Ok self ∧
    fidelity self = 16 ∧ end_ self = true.
Proof.
  eexists _, _. split; [reflexivity|].
  pose proof (fun self0 Hnew =>
    @successive_halving_rounds Z unit table_SearchSpace (scenario_config 8) 0 (Some tt)
      self0 ltac:(simpl; lia) ltac:(simpl; lia) ltac:(simpl; lia) Hnew 4%nat scenario_rnd)
    as Hrounds.
  edestruct Hrounds as (Hf & Hend & _); [reflexivity | vm_compute; reflexivity |].
  split; [vm_compute; reflexivity|]. split; [exact Hf|].
  apply Hend; [lia | reflexivity].
Defined.

(** ** Selecting the best [k] elements of a list *)

Lemma filter_ext_in {A : Type} (P Q : A → Prop)
    `{∀ x, Decision (P x)} `{∀ x, Decision (Q x)} (l : list A) :
  (∀ x, x ∈ l → (P x ↔ Q x)) → filter P l = filter Q l.
Proof.
  induction l as [|x l IH]; intros Hext; [reflexivity|].
  rewrite !filter_cons.
  pose proof (Hext x ltac:(left)) as Hx.
  rewrite IH by (intros y Hy; apply Hext; by right).
  destruct (decide (P x)), (decide (Q x)); tauto.
Qed.

Lemma fmap_inj_on_NoDup {A B : Type} (f : A → B) (l : list A) (x y : A) :
  NoDup (f <$> l) → x ∈ l → y ∈ l → f x = f y → x = y.
Proof.
  induction l as [|z l IH]; intros Hnd Hx Hy Hf; [by apply elem_of_nil in Hx|].
  rewrite fmap_cons in Hnd. apply NoDup_cons in Hnd as [Hz Hnd].
  apply elem_of_cons in Hx as [->|Hx]; apply elem_of_cons in Hy as [->|Hy].
  - reflexivity.
  - exfalso. apply Hz. rewrite Hf. by apply list_elem_of_fmap_2.
  - exfalso. apply Hz. rewrite <- Hf. by apply list_elem_of_fmap_2.
  - by apply IH.
Qed.

Lemma before_lookup_lt {A : Type} (l : list A) (i j : nat) (a b : A) :
  NoDup l → l !! i = Some a → l !! j = Some b → before l a b → (i < j)%nat.
Proof.
  intros Hnd Hi Hj (l1 & l2 & -> & Hb).
  apply list_elem_of_lookup in Hb as [n Hn].
  assert (Hi' : (l1 ++ a :: l2) !! length l1 = Some a) by apply list_lookup_middle, eq_refl.
  assert (Hj' : (l1 ++ a :: l2) !! (length l1 + S n)%nat = Some b).
  { rewrite lookup_app_r by lia.
    replace (length l1 + S n - length l1)%nat with (S n) by lia. exact Hn. }
  rewrite (NoDup_lookup _ _ _ _ Hnd Hi Hi').
  rewrite (NoDup_lookup _ _ _ _ Hnd Hj Hj'). lia.
Qed.

Section TopK.
Context {A : Type} (key : A → Q) (id : A → Z) (l : list A) (k : nat).
Hypothesis Hid : NoDup (id <$> l).

Local Abbreviation top := (take k (sorted_desc key l)).

Lemma top_subset (x : A) : x ∈ top → x ∈ l.
Proof.
  intros Hx. rewrite <- (sorted_desc_perm key l).
  exact (subseteq_take k _ x Hx).
Qed.

Lemma NoDup_of_ids : NoDup l.
Proof. eapply NoDup_fmap_1, Hid. Qed.

Lemma id_in_top (x : A) : x ∈ l → id x ∈ id <$> top → x ∈ top.
Proof.
  intros Hx Hin. apply list_elem_of_fmap in Hin as (y & Hxy & Hy).
  rewrite (fmap_inj_on_NoDup id l x y Hid Hx (top_subset y Hy) Hxy). exact Hy.
Qed.

Lemma id_not_in_top (x : A) :
  x ∈ l → id x ∉ id <$> top → x ∈ drop k (sorted_desc key l).
Proof.
  intros Hx Hnot. rewrite <- (sorted_desc_perm key l) in Hx.
  rewrite <- (take_drop k (sorted_desc key l)) in Hx.
  apply elem_of_app in Hx as [Hx|Hx]; [|exact Hx].
  exfalso. apply Hnot. by apply list_elem_of_fmap_2.
Qed.

(** An element among the best [k] ranks before one that is not: its key is
    larger, or equal with an earlier position in [l]. *)
Lemma top_ranked (i j : nat) (a b : A) :
  l !! i = Some a → l !! j = Some b →
  id a ∈ id <$> top → id b ∉ id <$> top →
  (key b < key a)%Q ∨ ((key a == key b)%Q ∧ (i < j)%nat).
Proof.
  intros Hi Hj Ha Hb.
  pose proof (id_in_top a (list_elem_of_lookup_2 _ _ _ Hi) Ha) as Ha'.
  pose proof (id_not_in_top b (list_elem_of_lookup_2 _ _ _ Hj) Hb) as Hb'.
  pose proof (sorted_desc_ranked key l) as Hs.
  rewrite <- (take_drop k (sorted_desc key l)) in Hs.
  destruct (StronglySorted_app_1_elem_of _ _ _ _ _ Hs Ha' Hb') as [Hlt|[Heq Hbefore]].
  - by left.
  - right. split; [exact Heq|].
    exact (before_lookup_lt l i j a b NoDup_of_ids Hi Hj Hbefore).
Qed.

(** Exactly [k] elements of [l] are among the best [k]. *)
Lemma top_count :
  (k ≤ length l)%nat →
  length (filter (fun x => id x ∈ id <$> top) l) = k.
Proof.
  intros Hk.
  assert (Hperm : filter (fun x => id x ∈ id <$> top) l ≡ₚ top).
  { apply NoDup_Permutation.
    - apply NoDup_filter, NoDup_of_ids.
    - assert (Hs : NoDup (take k (sorted_desc key l) ++ drop k (sorted_desc key l))).
      { rewrite take_drop, (sorted_desc_perm key l). apply NoDup_of_ids. }
      by apply NoDup_app in Hs as [Hs _].
    - intros x. rewrite list_elem_of_filter. split.
      + intros [Hin Hx]. by apply id_in_top.
      + intros Hx. split; [by apply list_elem_of_fmap_2 | by apply top_subset]. }
  rewrite Hperm, length_take, sorted_desc_length. lia.
Qed.
End TopK.

(** ** Tensors: minimum, maximum and softmax *)

Lemma foldl_ext_min_NegInf (t : list ext) : foldl ext_min NegInf t = NegInf.
Proof. induction t as [|x t IH]; simpl; [reflexivity | exact IH]. Qed.

Lemma foldl_ext_min_elem (t : list ext) :
  ∀ a, NegInf ∈ t → foldl ext_min a t = NegInf.
Proof.
  induction t as [|x t IH]; intros a Hin; [by apply elem_of_nil in Hin|].
  simpl. apply elem_of_cons in Hin as [<-|Hin].
  - destruct a; apply foldl_ext_min_NegInf.
  - by apply IH.
Qed.

Lemma torch_min_NegInf (t : list ext) : NegInf ∈ t → torch_min t = NegInf.
Proof.
  destruct t as [|a t]; intros Hin; [reflexivity|]. simpl.
  apply elem_of_cons in Hin as [<-|Hin].
  - apply foldl_ext_min_NegInf.
  - by apply foldl_ext_min_elem.
Qed.

Lemma masked_length (a : list ext) : length (masked a) = length a.
Proof. apply length_insert. Qed.

Lemma masked_lookup_1 (a : list ext) :
  (2 ≤ length a)%nat → masked a !! 1%nat = Some NegInf.
Proof. intros Hlen. apply list_lookup_insert_eq. lia. Qed.

Lemma masked_idemp (a : list ext) : masked (masked a) = masked a.
Proof. apply list_insert_insert_eq. Qed.

Lemma torch_min_masked (a : list ext) :
  (2 ≤ length a)%nat → torch_min (masked a) = NegInf.
Proof.
  intros Hlen. apply torch_min_NegInf.
  eapply list_elem_of_lookup_2, masked_lookup_1, Hlen.
Qed.

Lemma Qmax'_ge_l (a b : Q) : (a <= Qmax' a b)%Q.
Proof.
  unfold Qmax'. destruct (Qlt_le_dec a b); [by apply Qlt_le_weak | apply Qle_refl].
Qed.

Lemma Qmax'_ge_r (a b : Q) : (b <= Qmax' a b)%Q.
Proof. unfold Qmax'. destruct (Qlt_le_dec a b); [apply Qle_refl | done]. Qed.

Lemma foldl_Qmax'_ge (t : list Q) :
  ∀ m, (m <= foldl Qmax' m t)%Q ∧ ∀ x, x ∈ t → (x <= foldl Qmax' m t)%Q.
Proof.
  induction t as [|y t IH]; intros m; simpl.
  - split; [apply Qle_refl|]. intros x Hx. by apply elem_of_nil in Hx.
  - destruct (IH (Qmax' m y)) as [Hm Hall]. split.
    + eapply Qle_trans; [apply Qmax'_ge_l | exact Hm].
    + intros x Hx. apply elem_of_cons in Hx as [->|Hx]; [|by apply Hall].
      eapply Qle_trans; [apply Qmax'_ge_r | exact Hm].
Qed.

Lemma torch_max_ge (t : list Q) (x : Q) : x ∈ t → (x <= torch_max t)%Q.
Proof.
  destruct t as [|a t]; intros Hx; [by apply elem_of_nil in Hx|]. simpl.
  destruct (foldl_Qmax'_ge t a) as [Ha Hall].
  apply elem_of_cons in Hx as [->|Hx]; [exact Ha | by apply Hall].
Qed.

Lemma Qsum_nonneg (t : list Q) : Forall (fun x => (0 <= x)%Q) t → (0 <= Qsum t)%Q.
Proof.
  induction 1 as [|x t Hx _ IH]; simpl; [apply Qle_refl | lra].
Qed.

Lemma Qsum_pos (t : list Q) (x : Q) :
  Forall (fun y => (0 <= y)%Q) t → x ∈ t → (0 < x)%Q → (0 < Qsum t)%Q.
Proof.
  induction 1 as [|y t Hy Hall IH]; intros Hx Hpos; [by apply elem_of_nil in Hx|].
  simpl. apply elem_of_cons in Hx as [->|Hx].
  - pose proof (Qsum_nonneg t Hall). lra.
  - pose proof (IH Hx Hpos). lra.
Qed.

Lemma rational_exp_pos (x : Q) : (0 < rational_exp x)%Q.
Proof.
  unfold rational_exp. destruct (Qlt_le_dec x 0) as [Hneg|Hpos]; [|lra].
  unfold Qdiv. rewrite Qmult_1_l. apply Qinv_lt_0_compat. lra.
Qed.

Lemma ext_exp_nonneg (a : ext) : (0 <= ext_exp a)%Q.
Proof. destruct a; simpl; [apply Qle_refl | apply Qlt_le_weak, rational_exp_pos]. Qed.

(** Without rounding, an entry at [-inf] has the softmax weight 0. *)
Lemma exact_softmax_NegInf (t : list ext) (i : nat) (q : Q) :
  t !! i = Some NegInf → exact_softmax t !! i = Some q → (q == 0)%Q.
Proof.
  unfold exact_softmax. rewrite list_lookup_fmap. intros -> Hq. simpl in Hq.
  injection Hq as <-. unfold Qdiv. apply Qmult_0_l.
Qed.

(** Without rounding, with one finite entry the largest softmax weight is
    positive. *)
Lemma exact_softmax_max_pos (t : list ext) (i : nat) (x : Q) :
  t !! i = Some (Fin x) → (0 < torch_max (exact_softmax t))%Q.
Proof.
  intros Hi.
  assert (Hsum : (0 < Qsum (ext_exp <$> t))%Q).
  { apply (Qsum_pos _ (rational_exp x)).
    - apply Forall_fmap, Forall_forall. intros a _. apply ext_exp_nonneg.
    - apply list_elem_of_fmap. exists (Fin x). split; [reflexivity|].
      by eapply list_elem_of_lookup_2.
    - apply rational_exp_pos. }
  eapply Qlt_le_trans;
    [|apply (torch_max_ge _ (rational_exp x / Qsum (ext_exp <$> t))%Q)].
  - unfold Qdiv. apply Qmult_lt_0_compat; [apply rational_exp_pos|].
    by apply Qinv_lt_0_compat.
  - unfold exact_softmax. apply list_elem_of_fmap. exists (Fin x).
    split; [reflexivity | by eapply list_elem_of_lookup_2].
Qed.

(** Rounding up keeps 0 at 0, and never gives less than the weight. *)
Lemma ceil16_zero (q : Q) : (q == 0)%Q → (ceil16 q == 0)%Q.
Proof.
  intros Hq. unfold ceil16.
  assert (Hc : Qceiling (q * 16) = 0%Z).
  { rewrite Hq. reflexivity. }
  rewrite Hc. reflexivity.
Qed.

Lemma ceil16_ge (q : Q) : (q <= ceil16 q)%Q.
Proof.
  unfold ceil16. pose proof (Qle_ceiling (q * 16)) as Hc.
  set (c := Qceiling (q * 16)) in *.
  assert (Heq : ((c # 16) == inject_Z c / 16)%Q).
  { unfold Qeq, Qdiv, Qmult, Qinv, inject_Z. simpl. lia. }
  rewrite Heq. apply Qle_shift_div_l; [reflexivity | exact Hc].
Qed.

Lemma coarse_softmax_NegInf (t : list ext) (i : nat) (q : Q) :
  t !! i = Some NegInf → @F_softmax coarse_Torch t !! i = Some q → (q == 0)%Q.
Proof.
  intros Hi. simpl. rewrite list_lookup_fmap.
  destruct (exact_softmax t !! i) as [w|] eqn:Hw; [|discriminate].
  simpl. intros [= <-]. apply ceil16_zero. by eapply exact_softmax_NegInf.
Qed.

Lemma coarse_softmax_max_pos (t : list ext) (i : nat) (x : Q) :
  t !! i = Some (Fin x) → (0 < torch_max (@F_softmax coarse_Torch t))%Q.
Proof.
  intros Hi. simpl.
  assert (Hw : ∃ w, exact_softmax t !! i = Some w ∧ (0 < w)%Q).
  { unfold exact_softmax. rewrite list_lookup_fmap, Hi. simpl. eexists.
    split; [reflexivity|].
    assert (Hsum : (0 < Qsum (ext_exp <$> t))%Q).
    { apply (Qsum_pos _ (rational_exp x)).
      - apply Forall_fmap, Forall_forall. intros a _. apply ext_exp_nonneg.
      - apply list_elem_of_fmap. exists (Fin x). split; [reflexivity|].
        by eapply list_elem_of_lookup_2.
      - apply rational_exp_pos. }
    unfold Qdiv. apply Qmult_lt_0_compat; [apply rational_exp_pos|].
    by apply Qinv_lt_0_compat. }
  destruct Hw as (w & Hw & Hpos).
  eapply Qlt_le_trans; [|apply (torch_max_ge _ (ceil16 w))].
  - eapply Qlt_le_trans; [exact Hpos | apply ceil16_ge].
  - apply list_elem_of_fmap. exists w. split; [reflexivity|].
    by eapply list_elem_of_lookup_2.
Qed.

(** ** [_truncate_input_edges]: the one-shot case *)

Lemma mapM_Ok {A B : Type} (f : A → result B) (g : A → B) (l : list A) :
  (∀ x, x ∈ l → f x = Ok (g x)) → mapM f l = Ok (g <$> l).
Proof.
  induction l as [|x l IH]; intros Hf; [reflexivity|].
  simpl. rewrite (Hf x) by left. simpl.
  rewrite IH by (intros y Hy; apply Hf; by right). reflexivity.
Qed.

Section OneShotProperties.
Context `{Torch}.

Lemma mask_zero_ops_one_shot (in_edges : list InEdge) :
  Forall one_shot_edge in_edges →
  mask_zero_ops in_edges = Ok (false, mask_edge <$> in_edges).
Proof.
  induction 1 as [|[u data] rest Hx _ IH]; [reflexivity|].
  destruct Hx as (Hfin & _ & a & Ha & Hlen & _). simpl in *.
  rewrite Hfin, Ha. unfold tensor_set1.
  destruct (decide (length a ≤ 1)%nat); [lia|]. simpl.
  rewrite IH. simpl. unfold mask_edge. simpl. rewrite Ha. reflexivity.
Qed.

Lemma largest_post_softmax_weight_masked (e : InEdge) :
  one_shot_edge e →
  _largest_post_softmax_weight (mask_edge e)
    = Ok (post_softmax_weight e.2, mask_edge e).
Proof.
  destruct e as [u data]. intros (_ & _ & a & Ha & Hlen & _). simpl in *.
  unfold mask_edge, post_softmax_weight. simpl. rewrite Ha. simpl.
  rewrite torch_min_masked by exact Hlen. simpl.
  unfold tensor_set1. rewrite masked_length.
  destruct (decide (length a ≤ 1)%nat); [lia|]. simpl.
  fold (masked (masked a)). rewrite masked_idemp. reflexivity.
Qed.

Lemma post_softmax_weight_mask_edge (e : InEdge) :
  post_softmax_weight (mask_edge e).2 = post_softmax_weight e.2.
Proof.
  destruct e as [u data]. unfold mask_edge, post_softmax_weight. simpl.
  destruct (alpha data) as [a|] eqn:Ha; simpl; [|by rewrite Ha].
  by rewrite masked_idemp.
Qed.

Lemma length_filter_fmap {A B : Type} (P : B → Prop) `{∀ y, Decision (P y)}
    (f : A → B) (l : list A) :
  length (filter P (f <$> l)) = length (filter (P ∘ f) l).
Proof.
  induction l as [|x l IH]; [reflexivity|].
  rewrite fmap_cons, !filter_cons. simpl.
  destruct (decide (P (f x))); simpl; by rewrite IH.
Qed.

(** The edge as the final loop leaves it: deleted unless its source is among
    the sources to keep. *)
Lemma mark_deleted (keep : list Z) (m : InEdge) :
  deleted m.2 = false →
  deleted (if bool_decide (m.1 ∈ keep) then m else (m.1, delete m.2)).2 = false
  ↔ m.1 ∈ keep.
Proof.
  intros Hm. destruct (bool_decide_reflect (m.1 ∈ keep)) as [Hin|Hnot]; simpl.
  - tauto.
  - split; [discriminate | tauto].
Qed.

(** What the one-shot case computes: the masked edges, marked by the
    sources of the first two edges of the ranking. *)
Lemma truncate_one_shot_eq (in_edges : list InEdge) (rnd : nat → nat) :
  (2 ≤ length in_edges)%nat → Forall one_shot_edge in_edges →
  let keyed := (fun e : InEdge => (post_softmax_weight e.2, mask_edge e)) <$> in_edges in
  let keep := (fun x : Q * InEdge => x.2.1) <$> take 2 (sorted_desc fst keyed) in
  _truncate_input_edges in_edges rnd
  = Ok ((fun x : Q * InEdge =>
           if bool_decide (x.2.1 ∈ keep) then x.2 else (x.2.1, delete x.2.2))
          <$> keyed).
Proof.
  intros Hlen Hedges keyed keep. unfold _truncate_input_edges.
  destruct (decide (2 ≤ length in_edges)%nat); [|lia].
  replace (existsb _ in_edges) with true.
  2:{ destruct Hedges as [|e rest (_ & _ & a & Ha & _) _]; [simpl in Hlen; lia|].
      simpl. unfold has_alpha. rewrite Ha. reflexivity. }
  rewrite mask_zero_ops_one_shot by exact Hedges. simpl.
  rewrite (mapM_Ok _ (fun m : InEdge => (post_softmax_weight m.2, m))).
  2:{ intros m Hm. apply list_elem_of_fmap in Hm as (e & -> & He).
      rewrite Forall_forall in Hedges.
      rewrite (largest_post_softmax_weight_masked e (Hedges e He)).
      by rewrite post_softmax_weight_mask_edge. }
  simpl. f_equal.
  assert (Hkeyed : (fun m : InEdge => (post_softmax_weight m.2, m)) <$> (mask_edge <$> in_edges)
                   = keyed).
  { unfold keyed. rewrite <- list_fmap_compose. apply list_fmap_ext.
    intros i e _. simpl. by rewrite post_softmax_weight_mask_edge. }
  rewrite Hkeyed.
  assert (Hkeep : fst <$> take 2 (snd <$> sorted_desc fst keyed) = keep).
  { unfold keep. by rewrite <- fmap_take, <- list_fmap_compose. }
  rewrite Hkeep. rewrite <- list_fmap_compose. reflexivity.
Qed.

(** C4.  In the one-shot case (at least two incoming edges with distinct
    sources, each with weights and none finalized), and for every
    floating-point softmax that gives an entry at [-inf] the weight 0 and
    has a positive largest weight whenever an entry is finite,
    [_truncate_input_edges] returns; exactly two edges survive; the edges
    keep their order, their operations and their weights, except that the
    no-op weight is [-inf]; every surviving edge ranks before every deleted
    one by the largest post-softmax weight as the softmax computes it, and
    among weights that come out equal the edge enumerated first survives;
    and on every edge the no-op has the softmax weight 0 while the largest
    weight is positive, so the no-op never is the winning operation. *)
Theorem truncate_one_shot_keeps_top2 (in_edges : list InEdge) (rnd : nat → nat)
    (softmax_length : ∀ t, length (F_softmax t) = length t)
    (softmax_NegInf : ∀ t i j x q,
       t !! j = Some (Fin x) → t !! i = Some NegInf →
       F_softmax t !! i = Some q → (q == 0)%Q)
    (softmax_max_pos : ∀ t j x,
       t !! j = Some (Fin x) → (0 < torch_max (F_softmax t))%Q)
    (Hlen : (2 ≤ length in_edges)%nat)
    (Hids : NoDup (fst <$> in_edges))
    (Hedges : Forall one_shot_edge in_edges) :
  ∃ out,
    _truncate_input_edges in_edges rnd = Ok out ∧
    length (surviving out) = 2%nat ∧
    (∀ i e, in_edges !! i = Some e →
       ∃ o, out !! i = Some o ∧ o.1 = e.1 ∧ alpha o.2 = masked <$> alpha e.2 ∧
            op o.2 = op e.2 ∧ final o.2 = final e.2) ∧
    (∀ i j oi oj, out !! i = Some oi → out !! j = Some oj →
       deleted oi.2 = false → deleted oj.2 = true →
       (post_softmax_weight oj.2 < post_softmax_weight oi.2)%Q ∨
       ((post_softmax_weight oi.2 == post_softmax_weight oj.2)%Q ∧ (i < j)%nat)) ∧
    (∀ o a, o ∈ out → alpha o.2 = Some a →
       a !! 1%nat = Some NegInf ∧
       (∃ q, F_softmax a !! 1%nat = Some q ∧ (q == 0)%Q) ∧
       (0 < torch_max (F_softmax a))%Q).
Proof.
  pose proof (truncate_one_shot_eq in_edges rnd Hlen Hedges) as Heq.
  cbv zeta in Heq.
  set (keyed := (fun e : InEdge => (post_softmax_weight e.2, mask_edge e)) <$> in_edges) in *.
  set (idk := fun x : Q * InEdge => x.2.1) in *.
  set (keep := idk <$> take 2 (sorted_desc fst keyed)) in *.
  set (mark := fun x : Q * InEdge =>
                 if bool_decide (idk x ∈ keep) then x.2 else (x.2.1, delete x.2.2)) in *.
  assert (Hidk : NoDup (idk <$> keyed)).
  { unfold keyed. rewrite <- list_fmap_compose.
    replace (idk ∘ _ <$> in_edges) with (fst <$> in_edges); [exact Hids|].
    apply list_fmap_ext. intros i [u d] _. unfold idk, mask_edge. simpl.
    by destruct (alpha d). }
  assert (Hklen : length keyed = length in_edges) by apply length_fmap.
  assert (Hlive : ∀ x, x ∈ keyed → deleted x.2.2 = false).
  { intros x Hx. apply list_elem_of_fmap in Hx as (e & -> & He).
    rewrite Forall_forall in Hedges. destruct (Hedges e He) as (_ & Hd & a & Ha & _).
    unfold mask_edge. simpl. by rewrite Ha. }
  assert (Hmark : ∀ x, x ∈ keyed → deleted (mark x).2 = false ↔ idk x ∈ keep).
  { intros x Hx. apply (mark_deleted keep x.2). by apply Hlive. }
  assert (Hlook : ∀ i o, (mark <$> keyed) !! i = Some o →
            ∃ e, in_edges !! i = Some e ∧ one_shot_edge e ∧
                 keyed !! i = Some (post_softmax_weight e.2, mask_edge e) ∧
                 o = mark (post_softmax_weight e.2, mask_edge e)).
  { intros i o Ho. rewrite list_lookup_fmap in Ho.
    unfold keyed in Ho |- *. rewrite list_lookup_fmap in Ho |- *.
    destruct (in_edges !! i) as [e|] eqn:He; [|discriminate].
    simpl in Ho. injection Ho as <-. exists e. split; [reflexivity|].
    split; [|by split]. rewrite Forall_forall in Hedges.
    apply Hedges. by eapply list_elem_of_lookup_2. }
  assert (Hw : ∀ x, post_softmax_weight (mark x).2 = post_softmax_weight x.2.2).
  { intros x. unfold mark. by destruct (bool_decide (idk x ∈ keep)). }
  exists (mark <$> keyed). split; [exact Heq|]. split; [|split; [|split]].
  - unfold surviving.
    rewrite (length_filter_fmap (fun e : InEdge => deleted e.2 = false) mark keyed).
    rewrite (filter_ext_in _ (fun x => idk x ∈ keep) keyed) by exact Hmark.
    apply (top_count fst idk keyed 2 Hidk). lia.
  - intros i e He.
    assert (Ho : (mark <$> keyed) !! i
                 = Some (mark (post_softmax_weight e.2, mask_edge e))).
    { unfold keyed. rewrite !list_lookup_fmap. unfold InEdge in *. rewrite He. done. }
    eexists. split; [exact Ho|].
    rewrite Forall_forall in Hedges.
    destruct (Hedges e (list_elem_of_lookup_2 _ _ _ He)) as (_ & _ & a & Ha & _).
    unfold mark, mask_edge. simpl. rewrite Ha. simpl.
    destruct (bool_decide _); simpl; rewrite ?Ha; done.
  - intros i j oi oj Hi Hj Hkept Hgone.
    destruct (Hlook i oi Hi) as (ei & Hei & _ & Hki & ->).
    destruct (Hlook j oj Hj) as (ej & Hej & _ & Hkj & ->).
    rewrite !Hw. simpl. rewrite !post_softmax_weight_mask_edge.
    apply (top_ranked fst idk keyed 2 Hidk i j _ _ Hki Hkj).
    + apply Hmark; [by eapply list_elem_of_lookup_2 | exact Hkept].
    + intros Hin. apply Hmark in Hin; [|by eapply list_elem_of_lookup_2].
      rewrite Hin in Hgone. discriminate.
  - intros o a Ho Ha. apply list_elem_of_lookup in Ho as [i Ho].
    destruct (Hlook i o Ho) as (e & He & (_ & _ & a0 & Ha0 & Hl & k & q & Hk & Hq) & _ & ->).
    assert (Ha' : a = masked a0).
    { revert Ha. unfold mark, mask_edge. simpl. rewrite Ha0. simpl.
      destruct (bool_decide _); simpl; congruence. }
    assert (Hfin : masked a0 !! k = Some (Fin q)).
    { unfold masked. rewrite list_lookup_insert_ne by done. exact Hq. }
    subst a. split; [by apply masked_lookup_1|]. split.
    + assert (Hlt : (1 < length (F_softmax (masked a0)))%nat).
      { rewrite softmax_length, masked_length. lia. }
      destruct (lookup_lt_is_Some_2 _ _ Hlt) as [q0 Hq0].
      exists q0. split; [exact Hq0|].
      apply (softmax_NegInf (masked a0) 1%nat k q q0 Hfin); [|exact Hq0].
      by apply masked_lookup_1.
    + exact (softmax_max_pos (masked a0) k q Hfin).
Qed.
End OneShotProperties.

(** [truncate_one_shot_keeps_top2] under the arithmetic that rounds, on
    three edges whose largest weights come out equal: the first and the
    second survive, the third, whose weight is the largest before rounding,
    is deleted. *)
Lemma truncate_one_shot_keeps_top2_witness :
  @_truncate_input_edges coarse_Torch tied_in_edges (fun _ => O)
    = Ok [ (1, alpha_edge [Fin 100; NegInf; Fin 0]);
           (2, alpha_edge [Fin 100; NegInf; Fin 0]);
           (3, delete (alpha_edge [Fin 200; NegInf; Fin 0])) ] ∧
  ∃ out, @_truncate_input_edges coarse_Torch tied_in_edges (fun _ => O) = Ok out ∧
         length (surviving out) = 2%nat.
Proof.
  split; [vm_compute; reflexivity|].
  destruct (@truncate_one_shot_keeps_top2 coarse_Torch tied_in_edges (fun _ => O))
    as (out & Hout & Hcount & _).
  - intros t. simpl. unfold exact_softmax. by rewrite !length_fmap.
  - intros t i j x q _. apply coarse_softmax_NegInf.
  - exact coarse_softmax_max_pos.
  - simpl. lia.
  - apply (bool_decide_unpack _). vm_compute. exact I.
  - repeat constructor; simpl;
      (eexists; split; [reflexivity|]; split; [simpl; lia|];
       exists 0%nat; eexists; split; [lia | reflexivity]).
  - exists out. split; [exact Hout | exact Hcount].
Defined.

(** ** The budget under the other budget types, and a finalized first edge *)

Section BudgetProperties.
Context {G Api : Type} `{SearchSpace G Api}.

(** Under the "epoch" budget a call of [new_epoch] that returns, returns 1. *)
Lemma new_epoch_epoch_budget (self self' : SuccessiveHalving G Api) rnd (b : Q) :
  budget_type self = "epoch"%string →
  new_epoch self rnd = Ok (b, self') → b = 1%Q.
Proof.
  intros Hty Hnew. apply new_epoch_inv in Hnew as (mid & Heval & _).
  unfold evaluate_next in Heval.
  inv_bind Heval as [[r a] old_time] Hmodel.
  inv_bind Heval as acc Hacc. inv_bind Heval as [budget time'] Hbudget.
  inv_bind Heval as [heap' sampled'] Hstore.
  inv_bind Heval as self2 Hstats. injection Heval as <- _.
  rewrite Hty in Hbudget. simpl in Hbudget. by injection Hbudget as <- _.
Qed.

(** With a budget type that is neither "time" nor "epoch", [new_epoch]
    raises; when the architecture was obtained and its accuracy queried, the
    exception is [NameError]. *)
Lemma new_epoch_unknown_budget (self : SuccessiveHalving G Api) rnd :
  budget_type self ≠ "time"%string → budget_type self ≠ "epoch"%string →
  (∃ e, new_epoch self rnd = Raise e) ∧
  (Z.of_nat (length (sampled_archs self)) < number_archs self →
   ∀ a acc,
     space_sample_random_architecture (search_space self) (dataset_api self) rnd = Ok a →
     space_query a (Some (performance_metric self)) (dataset self) (fidelity self)
       (dataset_api self) = Ok acc →
     new_epoch self rnd = Raise NameError).
Proof.
  intros Htime Hepoch.
  apply String.eqb_neq in Htime. apply String.eqb_neq in Hepoch. split.
  - destruct (new_epoch self rnd) as [[b self']|e] eqn:Hnew; [|eauto].
    exfalso. apply new_epoch_inv in Hnew as (mid & Heval & _).
    unfold evaluate_next in Heval.
    inv_bind Heval as [[r a] old_time] Hmodel.
    inv_bind Heval as acc Hacc. inv_bind Heval as [budget time'] Hbudget.
    rewrite Htime, Hepoch in Hbudget. discriminate.
  - intros Hfill a acc Ha Hacc. unfold new_epoch, evaluate_next.
    apply Z.ltb_lt in Hfill. rewrite Hfill, Ha. simpl. rewrite Hacc. simpl.
    rewrite Htime, Hepoch. reflexivity.
Qed.
End BudgetProperties.

(** A node whose first enumerated incoming edge is finalized, as the output
    node of a cell, is left as it is. *)
Lemma truncate_first_finalized_unchanged `{Torch} (u : Z) (data : EdgeData)
    (rest : list InEdge) (rnd : nat → nat) :
  is_final data = true →
  _truncate_input_edges ((u, data) :: rest) rnd = Ok ((u, data) :: rest).
Proof.
  intros Hfin. unfold _truncate_input_edges.
  destruct (decide _); [|reflexivity].
  simpl. rewrite Hfin, orb_true_r. reflexivity.
Qed.

(** * Further properties of the optimizer *)

(** ** What one evaluation does to the objects *)

Lemma py_setitem_same {A : Type} (l : list A) (i : Z) (x : A) (l' : list A) :
  py_index l i = Ok x → py_setitem l i x = Ok l' → l' = l.
Proof.
  unfold py_index, py_setitem. intros Hi Hs.
  destruct (i <? 0); [discriminate|].
  destruct (l !! Z.to_nat i) as [y|] eqn:Hy; [|discriminate].
  injection Hi as ->. simpl in Hs.
  destruct (Z.of_nat (length l) <=? i); [discriminate|].
  injection Hs as <-. by apply list_insert_id.
Qed.

Lemma py_index_elem {A : Type} (l : list A) (i : Z) (x : A) :
  py_index l i = Ok x → x ∈ l.
Proof.
  unfold py_index. destruct (i <? 0); [discriminate|].
  destruct (l !! Z.to_nat i) as [y|] eqn:Hy; [|discriminate].
  intros [= <-]. by eapply list_elem_of_lookup_2.
Qed.

Section EvaluationProperties.
Context {G Api : Type} `{SearchSpace G Api}.

(** The evaluation part of [new_epoch], case by case: a fresh object is
    allocated while the population is filling; afterwards the object at the
    position counter is measured again, in place. *)
Lemma evaluate_next_inv (self mid : SuccessiveHalving G Api) rnd (b : Q) :
  evaluate_next self rnd = Ok (b, mid) →
  ∃ (r : nat) (a : G) (acc : Q) (t : option Q) (sampled' : list nat)
    (heap' : list (Model G)) stats,
    space_query a (Some (performance_metric self)) (dataset self) (fidelity self)
      (dataset_api self) = Ok acc ∧
    mid = _update_history
            (assign self (end_ self) (fidelity self) (number_archs self)
               (fidelity_counter self + 1) sampled' (history self) stats heap') r ∧
    ((Z.of_nat (length (sampled_archs self)) < number_archs self ∧
      space_sample_random_architecture (search_space self) (dataset_api self) rnd = Ok a ∧
      r = length (heap self) ∧
      heap' = heap self ++ [mkModel a acc t] ∧
      sampled' = sampled_archs self ++ [r]) ∨
     (number_archs self ≤ Z.of_nat (length (sampled_archs self)) ∧
      py_index (sampled_archs self) (fidelity_counter self) = Ok r ∧
      (∃ m, heap self !! r = Some m ∧ a = arch m) ∧
      heap' = <[r := mkModel a acc t]> (heap self) ∧
      sampled' = sampled_archs self)).
Proof.
  unfold evaluate_next. intros He.
  inv_bind He as [[r a] old_time] Hmodel.
  inv_bind He as acc Hacc. inv_bind He as [budget time'] Hbudget.
  inv_bind He as [heap' sampled'] Hstore.
  inv_bind He as self2 Hstats. injection He as <- <-.
  apply update_optimizer_stats_frame in Hstats as [stats ->]. simpl.
  exists r, a, acc, time', sampled', heap', stats.
  split; [exact Hacc|]. split; [reflexivity|].
  destruct (Z.ltb_spec (Z.of_nat (length (sampled_archs self))) (number_archs self))
    as [Hfill|Hfull].
  - left. inv_bind Hmodel as a' Ha. injection Hmodel as <- <- <-.
    injection Hstore as <- <-. done.
  - right. inv_bind Hmodel as r' Hr.
    destruct (heap self !! r') as [m|] eqn:Hm; [|discriminate].
    injection Hmodel as <- <- <-.
    inv_bind Hstore as s Hs. injection Hstore as <- <-.
    rewrite (py_setitem_same _ _ _ _ Hr Hs).
    split; [exact Hfull|]. split; [exact Hr|]. split; [eauto | done].
Qed.

Lemma replace_first_lower_elem (acc : nat → Q) (child : nat) (hist : list nat) (x : nat) :
  x ∈ replace_first_lower acc child hist → x = child ∨ x ∈ hist.
Proof.
  induction hist as [|p rest IH]; simpl; [by right|].
  destruct (Qlt_le_dec (acc p) (acc child)); rewrite !elem_of_cons; [tauto|].
  intros [->|Hx]; [tauto|]. destruct (IH Hx); tauto.
Qed.

Lemma update_history_elem (s : SuccessiveHalving G Api) (child x : nat) :
  x ∈ history (_update_history s child) → x = child ∨ x ∈ history s.
Proof.
  unfold _update_history. simpl.
  destruct (decide _).
  - rewrite elem_of_app, list_elem_of_singleton. tauto.
  - apply replace_first_lower_elem.
Qed.

Lemma update_history_length (s : SuccessiveHalving G Api) (child : nat) :
  length (history (_update_history s child))
  = if decide (length (history s) < 100)%nat then S (length (history s))
    else length (history s).
Proof.
  unfold _update_history. simpl. destruct (decide _).
  - rewrite length_app. simpl. lia.
  - apply replace_first_lower_length.
Qed.

Lemma evaluate_next_heap_wf (self mid : SuccessiveHalving G Api) rnd (b : Q) :
  heap_wf self → evaluate_next self rnd = Ok (b, mid) → heap_wf mid.
Proof.
  intros (Hnd & Hpop & Hhist) Heval.
  apply evaluate_next_inv in Heval
    as (r & a & acc & t & sampled' & heap' & stats & _ & -> & Hcase).
  set (s1 := assign self _ _ _ _ sampled' _ stats heap').
  assert (Hs : sampled_archs (_update_history s1 r) = sampled') by reflexivity.
  assert (Hh : heap (_update_history s1 r) = heap') by reflexivity.
  assert (Hhis : ∀ x, x ∈ history (_update_history s1 r) → x = r ∨ x ∈ history self).
  { intros x Hx. by apply update_history_elem in Hx. }
  unfold heap_wf. rewrite Hs, Hh. clearbody s1.
  destruct Hcase as [(_ & _ & -> & -> & ->)|(_ & Hr & _ & -> & ->)].
  - rewrite length_app. simpl. split_and!.
    + apply NoDup_app. split_and!; [exact Hnd | | apply NoDup_singleton].
      intros x Hx Hx'. apply list_elem_of_singleton in Hx'. subst x.
      specialize (Hpop _ Hx). lia.
    + intros x Hx. apply elem_of_app in Hx as [Hx|Hx].
      * specialize (Hpop _ Hx). lia.
      * apply list_elem_of_singleton in Hx. lia.
    + intros x Hx. apply Hhis in Hx as [->|Hx]; [lia|].
      specialize (Hhist _ Hx). lia.
  - rewrite length_insert. split_and!; [exact Hnd | exact Hpop |].
    intros x Hx. apply Hhis in Hx as [->|Hx].
    + apply Hpop. by eapply py_index_elem.
    + by apply Hhist.
Qed.

Lemma end_of_round_heap_wf (mid self' : SuccessiveHalving G Api) :
  heap_wf mid → end_of_round mid = Ok self' → heap_wf self'.
Proof.
  intros (Hnd & Hpop & Hhist) Hend. unfold end_of_round in Hend.
  inv_bind Hend as [end' sampled'] Hcase. injection Hend as <-.
  unfold heap_wf. simpl.
  assert (Hsub : sampled' `sublist_of` sorted_desc (accuracy_at (heap mid)) (sampled_archs mid)).
  { destruct (budget_max mid <? eta mid * fidelity mid); [by injection Hcase as _ <-|].
    destruct (eta mid =? 0); [discriminate|].
    destruct (negb _).
    - injection Hcase as _ <-. unfold py_slice_to.
      destruct (_ <? 0); apply sublist_take.
    - inv_bind Hcase as best Hbest. injection Hcase as _ <-.
      unfold py_index in Hbest. simpl in Hbest.
      destruct (sorted_desc _ _) as [|x rest]; [discriminate|].
      injection Hbest as ->. apply sublist_skip. apply sublist_nil_l. }
  assert (Hnds : NoDup (sorted_desc (accuracy_at (heap mid)) (sampled_archs mid)))
    by (by rewrite sorted_desc_perm).
  split_and!.
  - by eapply sublist_NoDup.
  - intros x Hx. apply Hpop.
    rewrite <- (sorted_desc_perm (accuracy_at (heap mid))).
    by apply (sublist_subseteq _ _ Hsub).
  - exact Hhist.
Qed.

Lemma new_epoch_heap_wf (self self' : SuccessiveHalving G Api) rnd (b : Q) :
  heap_wf self → new_epoch self rnd = Ok (b, self') → heap_wf self'.
Proof.
  intros Hwf Hnew. apply new_epoch_inv in Hnew as (mid & Heval & Hcase).
  pose proof (evaluate_next_heap_wf _ _ _ _ Hwf Heval) as Hmid.
  destruct Hcase as [[_ ->]|[_ Hend]]; [exact Hmid|].
  by eapply end_of_round_heap_wf.
Qed.

Lemma end_of_round_history (mid self' : SuccessiveHalving G Api) :
  end_of_round mid = Ok self' → history self' = history mid ∧ heap self' = heap mid.
Proof.
  unfold end_of_round. intros Hend.
  inv_bind Hend as [end' sampled'] Hcase. by injection Hend as <-.
Qed.

Lemma new_epoch_history_length (self self' : SuccessiveHalving G Api) rnd (b : Q) :
  new_epoch self rnd = Ok (b, self') →
  length (history self')
  = if decide (length (history self) < 100)%nat then S (length (history self))
    else length (history self).
Proof.
  intros Hnew. apply new_epoch_inv in Hnew as (mid & Heval & Hcase).
  assert (Hmid : length (history mid)
                 = if decide (length (history self) < 100)%nat
                   then S (length (history self)) else length (history self)).
  { apply evaluate_next_inv in Heval
      as (r & a & acc & t & sampled' & heap' & stats & _ & -> & _).
    by rewrite update_history_length. }
  destruct Hcase as [[_ ->]|[_ Hend]]; [exact Hmid|].
  apply end_of_round_history in Hend as [-> _]. exact Hmid.
Qed.

(** X1.  any number of calls of [new_epoch] on a fresh optimizer that all
    return leave the objects in order (the population names each object
    once, no address dangles), one budget per call, and a history of
    [min n 100] entries. *)
Theorem run_keeps_objects_in_order (config : Config) (space : G)
    (api : option Api) (self0 self : SuccessiveHalving G Api)
    (n : nat) (rnd : nat → nat → nat) (bs : list Q)
    (Hnew : SuccessiveHalving_new config space api = Ok self0)
    (Hrun : run n rnd self0 = Ok (bs, self)) :
  heap_wf self ∧ length bs = n ∧ length (history self) = (n `min` 100)%nat.
Proof.
  assert (Hgen : ∀ n (s s' : SuccessiveHalving G Api) rnd bs,
    heap_wf s → (length (history s) ≤ 100)%nat → run n rnd s = Ok (bs, s') →
    heap_wf s' ∧ length bs = n ∧
    length (history s') = ((length (history s) + n) `min` 100)%nat).
  { clear. intros n. induction n as [|n IH]; intros s s' rnd bs Hwf Hlen Hrun.
    - injection Hrun as <- <-. split; [exact Hwf|]. split; [reflexivity | lia].
    - simpl in Hrun. inv_bind Hrun as [b s1] Hstep.
      inv_bind Hrun as [bs' s2] Hrest. injection Hrun as <- <-.
      pose proof (new_epoch_heap_wf _ _ _ _ Hwf Hstep) as Hwf1.
      pose proof (new_epoch_history_length _ _ _ _ Hstep) as Hl1.
      destruct (IH s1 s2 _ bs' Hwf1 ltac:(destruct (decide _); lia) Hrest)
        as (Hwf2 & Hbs & Hl2).
      split; [exact Hwf2|]. split; [simpl; lia|].
      rewrite Hl2, Hl1. destruct (decide _); lia. }
  unfold SuccessiveHalving_new in Hnew.
  destruct (negb space_QUERYABLE); [discriminate|]. injection Hnew as <-.
  edestruct (Hgen n) as (Hwf & Hbs & Hl); [| |exact Hrun|].
  - unfold heap_wf. simpl.
    split_and!; [constructor | |]; intros r Hr; by apply elem_of_nil in Hr.
  - simpl. lia.
  - split; [exact Hwf|]. split; [exact Hbs|]. simpl in Hl. exact Hl.
Qed.

(** X2.  once the population is full, [new_epoch] measures the object at the
    position counter again, in place: the population is unchanged, no object
    is allocated, the object keeps its architecture and carries the new
    accuracy (seen through every list that names it), the other objects are
    untouched, and below 100 entries the history names the object once
    more. *)
Theorem reevaluation_in_place (self mid : SuccessiveHalving G Api)
    (rnd : nat → nat) (b : Q)
    (Hfull : number_archs self ≤ Z.of_nat (length (sampled_archs self)))
    (Heval : evaluate_next self rnd = Ok (b, mid)) :
  ∃ (r : nat) (m m' : Model G) (acc : Q),
    py_index (sampled_archs self) (fidelity_counter self) = Ok r ∧
    heap self !! r = Some m ∧
    space_query (arch m) (Some (performance_metric self)) (dataset self)
      (fidelity self) (dataset_api self) = Ok acc ∧
    sampled_archs mid = sampled_archs self ∧
    length (heap mid) = length (heap self) ∧
    heap mid !! r = Some m' ∧ arch m' = arch m ∧ accuracy m' = acc ∧
    accuracy_at (heap mid) r = acc ∧
    (∀ r', r' ≠ r → heap mid !! r' = heap self !! r') ∧
    ((length (history self) < 100)%nat → history mid = history self ++ [r]).
Proof.
  apply evaluate_next_inv in Heval
    as (r & a & acc & t & sampled' & heap' & stats & Hacc & -> & Hcase).
  destruct Hcase as [(Hfill & _)|(_ & Hr & (m & Hm & ->) & -> & ->)]; [lia|].
  assert (Hlt : (r < length (heap self))%nat) by (by eapply lookup_lt_Some).
  exists r, m, (mkModel (arch m) acc t), acc.
  split; [exact Hr|]. split; [exact Hm|]. split; [exact Hacc|].
  split; [reflexivity|]. split; [apply length_insert|].
  split; [by apply list_lookup_insert_eq|]. split; [reflexivity|].
  split; [reflexivity|]. split.
  - unfold accuracy_at. simpl. by rewrite list_lookup_insert_eq.
  - split.
    + intros r' Hne. simpl. by apply list_lookup_insert_ne.
    + intros Hlen. unfold _update_history. simpl.
      destruct (decide _); [reflexivity | lia].
Qed.
End EvaluationProperties.

(** ** [get_final_architecture] *)

Lemma py_max_from_spec {A : Type} (key : A → Q) (l : list A) :
  ∀ best,
    (py_max_from key best l = best ∧ ∀ x, x ∈ l → (key x <= key best)%Q) ∨
    (∃ l1 l2, l = l1 ++ py_max_from key best l :: l2 ∧
       (key best < key (py_max_from key best l))%Q ∧
       (∀ x, x ∈ l1 → (key x < key (py_max_from key best l))%Q) ∧
       (∀ x, x ∈ l2 → (key x <= key (py_max_from key best l))%Q)).
Proof.
  induction l as [|y l IH]; intros best; simpl.
  - left. split; [reflexivity|]. intros x Hx. by apply elem_of_nil in Hx.
  - destruct (Qlt_le_dec (key best) (key y)) as [Hlt|Hle].
    + right. destruct (IH y) as [[Hy Hall]|(l1 & l2 & Hl & Hk & H1 & H2)].
      * rewrite Hy. exists [], l. split; [reflexivity|]. split; [exact Hlt|].
        split; [|exact Hall]. intros x Hx. by apply elem_of_nil in Hx.
      * exists (y :: l1), l2. split; [by rewrite Hl at 1|].
        split; [by eapply Qlt_trans|]. split; [|exact H2].
        intros x Hx. apply elem_of_cons in Hx as [->|Hx]; [exact Hk | by apply H1].
    + destruct (IH best) as [[Hb Hall]|(l1 & l2 & Hl & Hk & H1 & H2)].
      * left. split; [exact Hb|]. intros x Hx.
        apply elem_of_cons in Hx as [->|Hx]; [exact Hle | by apply Hall].
      * right. exists (y :: l1), l2. split; [by rewrite Hl at 1|].
        split; [exact Hk|]. split; [|exact H2].
        intros x Hx. apply elem_of_cons in Hx as [->|Hx]; [|by apply H1].
        by eapply Qle_lt_trans.
Qed.

Lemma py_max_from_head {A : Type} (key : A → Q) (l : list A) (best : A) :
  (∀ x, x ∈ l → (key x <= key best)%Q) → py_max_from key best l = best.
Proof.
  revert best. induction l as [|y l IH]; intros best Hall; [reflexivity|]. simpl.
  destruct (Qlt_le_dec (key best) (key y)) as [Hlt|_].
  - exfalso. apply (Qlt_not_le _ _ Hlt). apply Hall. by left.
  - apply IH. intros x Hx. apply Hall. by right.
Qed.

Section FinalArchitecture.
Context {G Api : Type} `{SearchSpace G Api}.

(** X3.  [get_final_architecture] raises [ValueError] on an empty population;
    when it returns, the architecture is that of the first population entry
    with the largest accuracy: the entries before it are strictly worse, the
    entries after it are not better; and it returns whenever the population
    is not empty and names allocated objects. *)
Theorem get_final_architecture_best (self : SuccessiveHalving G Api) :
  let acc := accuracy_at (heap self) in
  (sampled_archs self = [] → get_final_architecture self = Raise ValueError) ∧
  (∀ a, get_final_architecture self = Ok a →
     ∃ r m l1 l2,
       sampled_archs self = l1 ++ r :: l2 ∧ heap self !! r = Some m ∧ a = arch m ∧
       (∀ x, x ∈ l1 → (acc x < acc r)%Q) ∧ (∀ x, x ∈ l2 → (acc x <= acc r)%Q)) ∧
  (sampled_archs self ≠ [] →
   (∀ r, r ∈ sampled_archs self → (r < length (heap self))%nat) →
   ∃ a, get_final_architecture self = Ok a).
Proof.
  intros acc. unfold get_final_architecture. split; [|split].
  - intros ->. reflexivity.
  - intros a Hget. inv_bind Hget as r Hr.
    destruct (heap self !! r) as [m|] eqn:Hm; [|discriminate]. injection Hget as <-.
    destruct (sampled_archs self) as [|x l]; [discriminate|].
    injection Hr as <-. fold acc in Hm |- *.
    destruct (py_max_from_spec acc l x) as [[Hx Hall]|(l1 & l2 & Hl & Hk & H1 & H2)].
    + rewrite Hx in *. exists x, m, [], l. split; [reflexivity|].
      split; [exact Hm|]. split; [reflexivity|]. split; [|exact Hall].
      intros y Hy. by apply elem_of_nil in Hy.
    + exists (py_max_from acc x l), m, (x :: l1), l2.
      split; [by rewrite Hl at 1|]. split; [exact Hm|]. split; [reflexivity|].
      split; [|exact H2].
      intros y Hy. apply elem_of_cons in Hy as [->|Hy]; [exact Hk | by apply H1].
  - intros Hne Hwf. destruct (sampled_archs self) as [|x l] eqn:Hs; [done|]. simpl.
    assert (Hin : py_max_from acc x l ∈ x :: l).
    { destruct (py_max_from_spec acc l x) as [[-> _]|(l1 & l2 & Hl & _)]; [by left|].
      right. rewrite Hl at 2. apply elem_of_app. right. by left. }
    apply Hwf in Hin. apply lookup_lt_is_Some in Hin as [m Hm].
    fold acc. rewrite Hm. eauto.
Qed.

Lemma take_sorted_head_best (key : nat → Q) (l : list nat) (j : nat) (r : nat)
    (rest : list nat) :
  take j (sorted_desc key l) = r :: rest →
  ∀ x, x ∈ rest → (key x <= key r)%Q.
Proof.
  intros Htake x Hx.
  pose proof (sorted_desc_descending key l) as Hs.
  rewrite <- (take_drop j (sorted_desc key l)), Htake in Hs.
  apply StronglySorted_app_1_l in Hs. apply StronglySorted_inv in Hs as [_ Hall].
  rewrite Forall_forall in Hall. by apply Hall.
Qed.

(** X4.  after the call of [new_epoch] that ends a round (positive [eta],
    objects in order), the population is not empty and
    [get_final_architecture] returns the architecture of its first entry. *)
Theorem final_architecture_after_round (self self' : SuccessiveHalving G Api)
    (rnd : nat → nat) (b : Q)
    (Heta : 0 < eta self)
    (Hwf : heap_wf self)
    (Hlast : fidelity_counter self + 1 = number_archs self)
    (Hnew : new_epoch self rnd = Ok (b, self')) :
  ∃ r rest m,
    sampled_archs self' = r :: rest ∧ heap self' !! r = Some m ∧
    get_final_architecture self' = Ok (arch m).
Proof.
  pose proof (new_epoch_heap_wf _ _ _ _ Hwf Hnew) as (_ & Hpop' & _).
  apply new_epoch_inv in Hnew as (mid & Heval & Hcase).
  pose proof (evaluate_next_frame _ _ _ _ Heval)
    as (Hbm & He & Hf & Hn & Hend & Hc & Hlen).
  destruct Hcase as [[Hne _]|[_ Hround]]; [lia|].
  assert (Hne : sampled_archs mid ≠ []).
  { intros Hnil. rewrite Hnil in Hlen. simpl in Hlen. lia. }
  destruct (end_of_round_spec mid ltac:(lia) ltac:(lia) Hne)
    as (s & Hr & _ & _ & _ & Hheap & _ & _ & _ & Hover & Hcut & Hone).
  rewrite Hround in Hr. injection Hr as <-.
  set (sorted := sorted_desc (accuracy_at (heap mid)) (sampled_archs mid)) in *.
  assert (Hsl : length sorted = length (sampled_archs mid)) by apply sorted_desc_length.
  assert (Htake : ∃ j, (1 ≤ j)%nat ∧ sampled_archs self' = take j sorted).
  { destruct (Z.lt_ge_cases (budget_max mid) (eta mid * fidelity mid)) as [Ho|Hfit].
    - destruct (Hover Ho) as [_ ->]. exists (length sorted).
      split; [|by rewrite firstn_all].
      destruct (sampled_archs mid); [done | simpl in Hsl; lia].
    - destruct (Z.lt_ge_cases 0 (number_archs mid `div` eta mid)) as [Hk|Hk].
      + destruct (Hcut Hfit Hk) as [_ ->]. eexists. split; [|reflexivity]. lia.
      + destruct (Hone Hfit ltac:(lia)) as (_ & -> & _). exists 1%nat. done. }
  destruct Htake as (j & Hj & Hs).
  destruct (sampled_archs self') as [|r rest] eqn:Hpop.
  { exfalso. symmetry in Hs. apply (f_equal length) in Hs.
    rewrite length_take in Hs. simpl in Hs.
    destruct (sampled_archs mid); [done | simpl in Hsl; lia]. }
  assert (Hr : (r < length (heap self'))%nat) by (apply Hpop'; by left).
  apply lookup_lt_is_Some in Hr as [m Hm].
  exists r, rest, m. split; [reflexivity|]. split; [exact Hm|].
  unfold get_final_architecture. rewrite Hpop. simpl.
  rewrite py_max_from_head; [by rewrite Hm|].
  rewrite Hheap. by apply (take_sorted_head_best _ (sampled_archs mid) j).
Qed.
End FinalArchitecture.

(** ** [update_optimizer_stats] *)

Lemma stat_list_append_same stats (h : nat) (name : string) (v : Q) :
  stat_list (stats_append h name v stats) h name = stat_list stats h name ++ [v].
Proof.
  unfold stat_list, stats_append. rewrite lookup_insert_eq. simpl.
  by rewrite lookup_insert_eq.
Qed.

Lemma stat_list_append_name stats (h : nat) (name name' : string) (v : Q) :
  name ≠ name' →
  stat_list (stats_append h name v stats) h name' = stat_list stats h name'.
Proof.
  intros Hne. unfold stat_list, stats_append. rewrite lookup_insert_eq. simpl.
  by rewrite lookup_insert_ne.
Qed.

Lemma stats_append_other stats (h h' : nat) (name : string) (v : Q) :
  h ≠ h' → stats_append h name v stats !! h' = stats !! h'.
Proof. intros Hne. unfold stats_append. by rewrite lookup_insert_ne. Qed.

Section StatsProperties.
Context {G Api : Type} `{SearchSpace G Api}.

(** X5.  a call of [update_optimizer_stats] that returns appends exactly one
    value to each of the five lists kept for the object at the position
    counter (the four queried metrics at the current fidelity, and the
    fidelity itself); every other list of that object and the entries of all
    other objects stay as they are. *)
Theorem update_optimizer_stats_appends (self self' : SuccessiveHalving G Api)
    (Hupd : update_optimizer_stats self = Ok self') :
  ∃ (r : nat) (m : Model G) (v1 v2 v3 v4 : Q),
    py_index (sampled_archs self) (fidelity_counter self) = Ok r ∧
    heap self !! r = Some m ∧
    space_query (arch m) (Some TRAIN_ACCURACY) (dataset self) (fidelity self)
      (dataset_api self) = Ok v1 ∧
    space_query (arch m) (Some VAL_ACCURACY) (dataset self) (fidelity self)
      (dataset_api self) = Ok v2 ∧
    space_query (arch m) (Some TEST_ACCURACY) (dataset self) (fidelity self)
      (dataset_api self) = Ok v3 ∧
    space_query (arch m) (Some TRAIN_TIME) (dataset self) (fidelity self)
      (dataset_api self) = Ok v4 ∧
    let old := stat_list (optimizer_stats self) r in
    let new := stat_list (optimizer_stats self') r in
    new "train_acc"%string = old "train_acc"%string ++ [v1] ∧
    new "val_acc"%string = old "val_acc"%string ++ [v2] ∧
    new "test_acc"%string = old "test_acc"%string ++ [v3] ∧
    new "train_time"%string = old "train_time"%string ++ [v4] ∧
    new "fidelity"%string = old "fidelity"%string ++ [inject_Z (fidelity self)] ∧
    (∀ name : string,
       name ∉ ["train_acc"; "val_acc"; "test_acc"; "train_time"; "fidelity"]%string →
       new name = old name) ∧
    (∀ h, h ≠ r → optimizer_stats self' !! h = optimizer_stats self !! h) ∧
    sampled_archs self' = sampled_archs self ∧ history self' = history self ∧
    heap self' = heap self ∧ fidelity_counter self' = fidelity_counter self.
Proof.
  unfold update_optimizer_stats in Hupd.
  inv_bind Hupd as r Hr. destruct (heap self !! r) as [m|] eqn:Hm; [|discriminate].
  inv_bind Hupd as stats Hstats. injection Hupd as <-.
  unfold stat_metrics in Hstats. simpl in Hstats.
  inv_bind Hstats as st3 H3. inv_bind H3 as st2 H2. inv_bind H2 as st1 H1.
  inv_bind H1 as v1 Hv1. injection H1 as <-.
  inv_bind H2 as v2 Hv2. injection H2 as <-.
  inv_bind H3 as v3 Hv3. injection H3 as <-.
  inv_bind Hstats as v4 Hv4. injection Hstats as <-.
  exists r, m, v1, v2, v3, v4.
  split; [exact Hr|]. split; [exact Hm|].
  split; [exact Hv1|]. split; [exact Hv2|]. split; [exact Hv3|]. split; [exact Hv4|].
  cbv zeta. simpl.
  split_and!; try reflexivity;
    try (repeat first [ rewrite stat_list_append_same
                      | rewrite stat_list_append_name by done ]; reflexivity).
  - intros name Hname. rewrite !elem_of_cons, elem_of_nil in Hname.
    rewrite !stat_list_append_name; [reflexivity|..]; intros <-; tauto.
  - intros h Hne. by rewrite !stats_append_other.
Qed.
End StatsProperties.

(** ** The population along promoting rounds *)

Section PromotionProperties.
Context {G Api : Type} `{SearchSpace G Api}.

(** A round that leaves the end flag unset is a promotion. *)
Lemma round_promotes (eta0 bmax : Z) (s s' : SuccessiveHalving G Api) rnd :
  2 ≤ eta0 → round_start eta0 bmax s → round rnd s = Ok s' → end_ s' = false →
  end_ s = false ∧ number_archs s' = number_archs s `div` eta0 ∧
  1 ≤ number_archs s `div` eta0 ∧ fidelity s' ≤ bmax.
Proof.
  intros Heta Hs Hround Hend'. unfold round in Hround.
  inv_bind Hround as [bs s1] Hrun. injection Hround as <-.
  pose proof Hs as (Hc & Hn & Hlen & He & Hb & Hf).
  destruct (Z.to_nat (number_archs s)) as [|m] eqn:Hm; [lia|].
  destruct (run_round m s s s1 rnd bs 0 (round_start_in_round _ _ _ Hs)
              ltac:(lia) ltac:(lia) Hrun)
    as (mid & (Hmc & Hmlen & Hme & Hmb & Hmf & Hmn & Hmend) & Hne & Hend).
  destruct (end_of_round_spec mid ltac:(lia) ltac:(lia) Hne)
    as (s1' & Hr & Hf' & Hc' & Hn' & _ & _ & He' & Hb' & Hover & Hcut & Hone).
  rewrite Hend in Hr. injection Hr as <-.
  rewrite Hme, Hmb, Hmf, Hmn, Hmend in *. rewrite He, Hb in *.
  assert (Hmid_len : Z.of_nat (length (sampled_archs mid)) = number_archs s).
  { destruct Hmlen as [Hl|Hl]; lia. }
  assert (Hsorted : length (sorted_desc (accuracy_at (heap mid)) (sampled_archs mid))
                    = length (sampled_archs mid)) by apply sorted_desc_length.
  assert (Hkn : number_archs s `div` eta0 < number_archs s)
    by (apply Z.div_lt; lia).
  destruct (Z.lt_ge_cases bmax (eta0 * fidelity s)) as [Ho|Hfit].
  - destruct (Hover Ho) as [Hendt _]. congruence.
  - destruct (Z.lt_ge_cases 0 (number_archs s `div` eta0)) as [Hk|Hk].
    + destruct (Hcut Hfit Hk) as [Hende Hsa].
      split; [congruence|]. split; [|lia].
      rewrite Hn', Hsa, length_take. lia.
    + destruct (Hone Hfit ltac:(lia)) as (Hendt & _). congruence.
Qed.

Lemma rounds_keep_end (eta0 bmax : Z) (k : nat) :
  ∀ (s s' : SuccessiveHalving G Api) rnd,
    2 ≤ eta0 → round_start eta0 bmax s → rounds k rnd s = Ok s' →
    end_ s = true → end_ s' = true.
Proof.
  induction k as [|k IH]; intros s s' rnd Heta Hs Hr Hend.
  - by injection Hr as <-.
  - simpl in Hr. inv_bind Hr as s1 Hround.
    destruct (round_spec eta0 bmax s s1 _ Heta Hs Hround) as (Hs1 & _ & _ & _ & Hkeep & _).
    exact (IH s1 s' _ Heta Hs1 Hr (Hkeep Hend)).
Qed.

Lemma rounds_full (eta0 bmax : Z) (k : nat) :
  ∀ (s s' : SuccessiveHalving G Api) rnd,
    2 ≤ eta0 → round_start eta0 bmax s → rounds k rnd s = Ok s' →
    (1 ≤ k)%nat ∨ Z.of_nat (length (sampled_archs s)) = number_archs s →
    Z.of_nat (length (sampled_archs s')) = number_archs s'.
Proof.
  induction k as [|k IH]; intros s s' rnd Heta Hs Hr Hk.
  - injection Hr as <-. destruct Hk as [Hk|Hk]; [lia | exact Hk].
  - simpl in Hr. inv_bind Hr as s1 Hround.
    destruct (round_spec eta0 bmax s s1 _ Heta Hs Hround) as (Hs1 & _ & Hl1 & _).
    apply (IH s1 s' _ Heta Hs1 Hr). right. lia.
Qed.

Lemma rounds_promote (eta0 bmax : Z) (k : nat) :
  ∀ (s s' : SuccessiveHalving G Api) rnd,
    2 ≤ eta0 → round_start eta0 bmax s → rounds k rnd s = Ok s' →
    end_ s' = false →
    number_archs s' = number_archs s `div` eta0 ^ Z.of_nat k ∧
    1 ≤ number_archs s `div` eta0 ^ Z.of_nat k.
Proof.
  induction k as [|k IH]; intros s s' rnd Heta Hs Hr Hend.
  - injection Hr as <-. destruct Hs as (_ & Hn & _).
    simpl. rewrite Z.div_1_r. done.
  - simpl in Hr. inv_bind Hr as s1 Hround.
    destruct (round_spec eta0 bmax s s1 _ Heta Hs Hround) as (Hs1 & _).
    destruct (IH s1 s' _ Heta Hs1 Hr Hend) as (Hn' & Hpos).
    assert (Hend1 : end_ s1 = false).
    { destruct (end_ s1) eqn:He1; [|done].
      pose proof (rounds_keep_end eta0 bmax k s1 s' _ Heta Hs1 Hr He1). congruence. }
    destruct (round_promotes eta0 bmax s s1 _ Heta Hs Hround Hend1)
      as (_ & Hn1 & _ & _).
    rewrite Hn1 in Hn', Hpos.
    rewrite Z.div_div in Hn', Hpos by lia.
    rewrite Nat2Z.inj_succ, Z.pow_succ_r by lia. done.
Qed.

(** X6.  on a fresh optimizer with [eta >= 2], [min_fidelity >= 1] and
    [number_archs >= 1], as long as the end flag is unset after [k] rounds,
    every round was a promotion: the population holds
    [floor(number_archs / eta ^ k)] architectures, which is at least one. *)
Theorem population_after_promotions (config : Config) (space : G)
    (api : option Api) (self0 self : SuccessiveHalving G Api)
    (k : nat) (rnd : nat → nat → nat → nat)
    (Heta : 2 ≤ cfg_eta config)
    (Hfid : 1 ≤ cfg_min_fidelity config)
    (Hpop : 1 ≤ cfg_number_archs config)
    (Hnew : SuccessiveHalving_new config space api = Ok self0)
    (Hrounds : rounds k rnd self0 = Ok self)
    (Hend : end_ self = false) :
  number_archs self = cfg_number_archs config `div` cfg_eta config ^ Z.of_nat k ∧
  1 ≤ number_archs self ∧
  ((1 ≤ k)%nat → Z.of_nat (length (sampled_archs self)) = number_archs self).
Proof.
  assert (Hstart : round_start (cfg_eta config) (cfg_budget_max config) self0 ∧
                   number_archs self0 = cfg_number_archs config).
  { unfold SuccessiveHalving_new in Hnew.
    destruct (negb space_QUERYABLE); [discriminate|]. injection Hnew as <-.
    unfold round_start. simpl. split_and!; first [done | by left]. }
  destruct Hstart as [Hstart Hn0].
  destruct (rounds_promote _ _ k self0 self rnd Heta Hstart Hrounds Hend) as [Hn Hpos].
  rewrite Hn0 in Hn, Hpos. split; [exact Hn|]. split; [lia|].
  intros Hk. apply (rounds_full _ _ k self0 self rnd Heta Hstart Hrounds). by left.
Qed.
End PromotionProperties.

(** ** Successive halving on the NAS-Bench-301 search space *)

Section NasBench301Halving.
Context `{Conversions}.

Lemma query_returns (self : NasBench301SearchSpace) (metric : option Metric)
    (ds : string) (epoch : Z) (api : option DatasetApi) (v : Q) :
  query self metric ds epoch api = Ok v →
  is_Some api ∧ (epoch = 0 ∨ epoch = -1 ∨ epoch = 100).
Proof.
  unfold query. destruct api as [api|]; [|discriminate].
  destruct (epoch_assertion epoch) eqn:He; [|discriminate].
  intros _. split; [eauto|]. by apply epoch_assertion_spec.
Qed.

Lemma new_epoch_nb301_returns
    (self self' : SuccessiveHalving NasBench301SearchSpace DatasetApi)
    (rnd : nat → nat) (b : Q) :
  new_epoch self rnd = Ok (b, self') →
  is_Some (dataset_api self) ∧
  (fidelity self = 0 ∨ fidelity self = -1 ∨ fidelity self = 100).
Proof.
  intros Hnew. apply new_epoch_inv in Hnew as (mid & Heval & _).
  apply evaluate_next_inv in Heval
    as (r & a & acc & t & sampled' & heap' & stats & Hacc & _).
  exact (query_returns _ _ _ _ _ _ Hacc).
Qed.

(** X7.  on the NAS-Bench-301 search space a call of [new_epoch] returns only
    with a benchmark handle and at fidelity 0, -1 or 100, because every
    query passes the fidelity as the epoch; while the population is filling,
    a call at any other fidelity raises [AssertionError] (with a handle) or
    [NotImplementedError] (without). *)
Theorem new_epoch_nb301_fidelity
    (self : SuccessiveHalving NasBench301SearchSpace DatasetApi) (rnd : nat → nat) :
  (∀ self' b, new_epoch self rnd = Ok (b, self') →
     is_Some (dataset_api self) ∧
     (fidelity self = 0 ∨ fidelity self = -1 ∨ fidelity self = 100)) ∧
  (Z.of_nat (length (sampled_archs self)) < number_archs self →
   ¬ (fidelity self = 0 ∨ fidelity self = -1 ∨ fidelity self = 100) →
   new_epoch self rnd
   = Raise (match dataset_api self with
            | Some _ => AssertionError
            | None => NotImplementedError
            end)).
Proof.
  split.
  - intros self' b. apply new_epoch_nb301_returns.
  - intros Hfill Hfid. unfold new_epoch, evaluate_next.
    apply Z.ltb_lt in Hfill. rewrite Hfill. simpl.
    unfold query. destruct (dataset_api self) as [api|]; [|reflexivity].
    destruct (epoch_assertion (fidelity self)) eqn:He; [|reflexivity].
    exfalso. apply Hfid. by apply epoch_assertion_spec.
Qed.

Lemma round_first_call {G Api : Type} `{SearchSpace G Api}
    (s s' : SuccessiveHalving G Api) rnd :
  1 ≤ number_archs s → round rnd s = Ok s' →
  ∃ b s1, new_epoch s (rnd O) = Ok (b, s1).
Proof.
  intros Hn Hround. unfold round in Hround.
  inv_bind Hround as [bs s2] Hrun.
  destruct (Z.to_nat (number_archs s)) as [|m] eqn:Hm; [lia|].
  simpl in Hrun. inv_bind Hrun as [b s1] Hnew. eauto.
Qed.

(** X8.  with [eta >= 2], [min_fidelity >= 1] and [number_archs >= 1],
    successive halving on the NAS-Bench-301 search space never completes two
    rounds: the first round runs only at fidelity 100, and the second would
    query the benchmark at [eta * 100], which the epoch assertion of
    [query] refuses. *)
Theorem nb301_no_second_round (config : Config) (space : NasBench301SearchSpace)
    (api : option DatasetApi)
    (self0 : SuccessiveHalving NasBench301SearchSpace DatasetApi)
    (k : nat) (rnd : nat → nat → nat → nat)
    (Heta : 2 ≤ cfg_eta config)
    (Hfid : 1 ≤ cfg_min_fidelity config)
    (Hpop : 1 ≤ cfg_number_archs config)
    (Hnew : SuccessiveHalving_new config space api = Ok self0) :
  ∃ e, rounds (S (S k)) rnd self0 = Raise e.
Proof.
  destruct (rounds (S (S k)) rnd self0) as [s|e] eqn:Hr; [|eauto]. exfalso.
  assert (Hstart : round_start (cfg_eta config) (cfg_budget_max config) self0 ∧
                   fidelity self0 = cfg_min_fidelity config).
  { unfold SuccessiveHalving_new in Hnew. simpl in Hnew. injection Hnew as <-.
    unfold round_start. simpl. split_and!; first [done | by left]. }
  destruct Hstart as [Hstart Hf0].
  change (rounds (S (S k)) rnd self0) with
    (round (rnd O) self0 ≫= λ s1,
       round (rnd 1%nat) s1 ≫= rounds k (fun j => rnd (S (S j)))) in Hr.
  inv_bind Hr as s1 Hround1. inv_bind Hr as s2 Hround2.
  destruct (round_spec _ _ self0 s1 _ Heta Hstart Hround1) as (Hs1 & Hf1 & _).
  destruct (round_first_call self0 s1 _ ltac:(destruct Hstart as (_ & ? & _); lia) Hround1)
    as (b1 & t1 & Hcall1).
  destruct (round_first_call s1 s2 _ ltac:(destruct Hs1 as (_ & ? & _); lia) Hround2)
    as (b2 & t2 & Hcall2).
  destruct (new_epoch_nb301_returns _ _ _ _ Hcall1) as [_ Hfa].
  destruct (new_epoch_nb301_returns _ _ _ _ Hcall2) as [_ Hfb].
  rewrite Hf1 in Hfb. nia.
Qed.
End NasBench301Halving.

(** ** The properties of the optimizer on concrete runs *)

(** [run_keeps_objects_in_order] in the scenario: ten calls, ten history
    entries. *)
Lemma run_keeps_objects_in_order_witness :
  ∃ self0 bs self,
    scenario_optimizer 8 = Ok self0 ∧
    @run Z unit table_SearchSpace 10 (scenario_rnd 0) self0 = Ok (bs, self) ∧
    heap_wf self ∧ length bs = 10%nat ∧ length (history self) = 10%nat.
Proof.
  eexists _, _, _. split; [reflexivity|].
  pose proof (fun self0 self bs Hnew Hrun =>
    @run_keeps_objects_in_order Z unit table_SearchSpace (scenario_config 8) 0 (Some tt)
      self0 self 10 (scenario_rnd 0) bs Hnew Hrun) as Hkeep.
  edestruct Hkeep as (Hwf & Hbs & Hl); [reflexivity | vm_compute; reflexivity |].
  split; [vm_compute; reflexivity|]. split; [exact Hwf|]. split; [exact Hbs | exact Hl].
Defined.

(** [reevaluation_in_place]: the only architecture of [full_state] is
    measured again at fidelity 2. *)
Lemma reevaluation_in_place_witness :
  ∃ b mid,
    @evaluate_next Z unit table_SearchSpace full_state (fun _ => O) = Ok (b, mid) ∧
    sampled_archs mid = [0%nat] ∧ accuracy_at (heap mid) 0 = inject_Z 7 ∧
    history mid = [0%nat; 0%nat].
Proof.
  eexists _, _. split; [vm_compute; reflexivity|].
  pose proof (fun mid b Heval =>
    @reevaluation_in_place Z unit table_SearchSpace full_state mid (fun _ => O) b
      ltac:(simpl; lia) Heval) as Hre.
  edestruct Hre as (r & m & m' & acc & Hr & Hm & Hq & Hs & _ & _ & _ & _ & Hacc & _ & Hh);
    [vm_compute; reflexivity|].
  injection Hr as <-. injection Hm as <-. injection Hq as <-.
  split; [exact Hs|]. split; [exact Hacc|]. apply Hh. simpl. lia.
Defined.

(** [final_architecture_after_round]: the round of [last_call_state] ends
    with the better architecture first. *)
Lemma final_architecture_after_round_witness :
  ∃ b self',
    @new_epoch Z unit table_SearchSpace last_call_state (fun _ => 9%nat) = Ok (b, self') ∧
    ∃ r rest m, sampled_archs self' = r :: rest ∧ heap self' !! r = Some m ∧
                @get_final_architecture Z unit self' = Ok (arch m).
Proof.
  eexists _, _. split; [vm_compute; reflexivity|].
  refine (@final_architecture_after_round Z unit table_SearchSpace last_call_state _
            (fun _ => 9%nat) _ eq_refl _ eq_refl _).
  - unfold heap_wf. simpl. split_and!.
    + apply NoDup_singleton.
    + intros r Hr. apply list_elem_of_singleton in Hr. lia.
    + intros r Hr. apply list_elem_of_singleton in Hr. lia.
  - vm_compute. reflexivity.
Defined.

(** [update_optimizer_stats_appends] on [full_state]: the first values of
    the five lists of object 0. *)
Lemma update_optimizer_stats_appends_witness :
  ∃ self',
    @update_optimizer_stats Z unit table_SearchSpace full_state = Ok self' ∧
    stat_list (optimizer_stats self') 0 "val_acc" = [inject_Z 7] ∧
    stat_list (optimizer_stats self') 0 "fidelity" = [inject_Z 2].
Proof.
  eexists. split; [vm_compute; reflexivity|].
  pose proof (fun self' Hupd =>
    @update_optimizer_stats_appends Z unit table_SearchSpace full_state self' Hupd) as Happ.
  edestruct Happ as (r & m & v1 & v2 & v3 & v4 & Hr & Hm & _ & Hv2 & _ & _ & Hnew);
    [vm_compute; reflexivity|].
  injection Hr as <-. injection Hm as <-. injection Hv2 as <-.
  destruct Hnew as (_ & Hval & _ & _ & Hfid & _).
  split; [exact Hval | exact Hfid].
Defined.

(** [population_after_promotions] in the scenario: two promotions leave
    [8 / 2 ^ 2 = 2] architectures. *)
Lemma population_after_promotions_witness :
  ∃ self0 self,
    scenario_optimizer 8 = Ok self0 ∧
    @rounds Z unit table_SearchSpace 2 scenario_rnd self0 = Ok self ∧
    number_archs self = 2 ∧ Z.of_nat (length (sampled_archs self)) = 2.
Proof.
  eexists _, _. split; [reflexivity|].
  pose proof (fun self0 self Hnew Hrounds Hend =>
    @population_after_promotions Z unit table_SearchSpace (scenario_config 8) 0 (Some tt)
      self0 self 2 scenario_rnd ltac:(simpl; lia) ltac:(simpl; lia) ltac:(simpl; lia)
      Hnew Hrounds Hend) as Hpop.
  edestruct Hpop as (Hn & _ & Hl);
    [reflexivity | vm_compute; reflexivity | reflexivity |].
  split; [vm_compute; reflexivity|]. split; [exact Hn|].
  rewrite Hl by lia. exact Hn.
Defined.

(** [nb301_no_second_round] from fidelity 100 with the constant benchmark. *)
Lemma nb301_no_second_round_witness :
  ∃ self0 e,
    @SuccessiveHalving_new _ _ (@NasBench301_SearchSpace compact_Conversions)
      nb301_config NasBench301SearchSpace_init (Some constant_api) = Ok self0 ∧
    @rounds _ _ (@NasBench301_SearchSpace compact_Conversions) 2 scenario_rnd self0
      = Raise e.
Proof.
  eexists _. 
  destruct (@nb301_no_second_round compact_Conversions nb301_config
              NasBench301SearchSpace_init (Some constant_api) _ 0 scenario_rnd
              ltac:(simpl; lia) ltac:(simpl; lia) ltac:(simpl; lia) eq_refl) as [e He].
  exists e. split; [reflexivity | exact He].
Defined.

(** * Further properties of the search space *)

(** ** [_truncate_input_edges]: the random deletions of the discrete case *)

Lemma remove_dups_length_le {A : Type} `{EqDecision A} (l : list A) :
  (length (remove_dups l) ≤ length l)%nat.
Proof.
  induction l as [|x l IH]; simpl; [lia|].
  destruct (decide_rel elem_of x l); simpl; lia.
Qed.

Lemma remove_dups_length_NoDup {A : Type} `{EqDecision A} (l : list A) :
  length (remove_dups l) = length l ↔ NoDup l.
Proof.
  induction l as [|x l IH]; simpl.
  - split; [constructor | reflexivity].
  - pose proof (remove_dups_length_le l).
    destruct (decide_rel elem_of x l) as [Hin|Hnot]; simpl.
    + split; [lia|]. intros Hnd. apply NoDup_cons in Hnd as [Hx _]. done.
    + rewrite NoDup_cons. split.
      * intros Hl. split; [exact Hnot|]. apply IH. lia.
      * intros [_ Hnd]. f_equal. by apply IH.
Qed.

Lemma drawn_indices_S (n len : nat) (rnd : nat → nat) :
  drawn_indices (S n) len rnd
  = Z.to_nat (randint 0 (Z.of_nat len - 1) (rnd O))
    :: drawn_indices n len (fun j => rnd (S j)).
Proof.
  unfold drawn_indices. simpl. f_equal.
  rewrite <- fmap_S_seq, <- list_fmap_compose. reflexivity.
Qed.

Lemma drawn_indices_lt (n len : nat) (rnd : nat → nat) (p : nat) :
  (1 ≤ len)%nat → p ∈ drawn_indices n len rnd → (p < len)%nat.
Proof.
  intros Hlen Hp. unfold drawn_indices in Hp.
  apply list_elem_of_fmap in Hp as (j & -> & _). unfold randint.
  pose proof (Z.mod_pos_bound (Z.of_nat (rnd j)) (Z.of_nat len - 1 - 0 + 1) ltac:(lia)).
  lia.
Qed.

(** The deletions as a whole: the edges at the drawn positions are flagged,
    the others are as they were. *)
Lemma delete_random_imap (n : nat) :
  ∀ (rnd : nat → nat) (l : list InEdge),
    delete_random n rnd l
    = imap (fun p e => if bool_decide (p ∈ drawn_indices n (length l) rnd)
                       then (e.1, delete e.2) else e) l.
Proof.
  induction n as [|n IH]; intros rnd l; unfold InEdge in *.
  - simpl. apply list_eq. intros p. rewrite list_lookup_imap.
    destruct (l !! p) as [e|]; [|reflexivity]. simpl.
    reflexivity.
  - cbn [delete_random]. rewrite IH, length_alter, drawn_indices_S. unfold InEdge in *.
    set (i := Z.to_nat (randint 0 (Z.of_nat (length l) - 1) (rnd O))).
    set (D := drawn_indices n (length l) (fun j => rnd (S j))).
    apply list_eq. intros p. rewrite !list_lookup_imap.
    destruct (decide (i = p)) as [<-|Hne].
    + rewrite list_lookup_alter_eq. destruct (l !! i) as [e|]; [|reflexivity]. simpl.
      rewrite (bool_decide_eq_true_2 (i ∈ i :: D)) by left.
      by destruct (bool_decide (i ∈ D)).
    + rewrite list_lookup_alter_ne by done.
      destruct (l !! p) as [e|]; [|reflexivity]. simpl.
      assert (Hiff : p ∈ i :: D ↔ p ∈ D).
      { rewrite elem_of_cons. split; [intros [->|]; done | by right]. }
      by rewrite (bool_decide_ext _ _ Hiff).
Qed.

Lemma surviving_imap_count (D : list nat) (l : list InEdge) :
  ∀ k : nat,
    Forall (fun e : InEdge => deleted e.2 = false) l →
    length (surviving (imap (fun p e => if bool_decide ((k + p)%nat ∈ D)
                                        then (e.1, delete e.2) else e) l))
    = length (filter (fun p => p ∉ D) (seq k (length l))).
Proof.
  induction l as [|e l IH]; intros k Hall; [reflexivity|].
  apply Forall_cons in Hall as [He Hall].
  rewrite imap_cons. cbn [length seq]. unfold surviving in *.
  rewrite !filter_cons. replace (k + 0)%nat with k by lia.
  rewrite (imap_ext _ (fun p e0 => if bool_decide ((S k + p)%nat ∈ D)
                                   then (e0.1, delete e0.2) else e0)).
  2:{ intros p e0 _. simpl. by replace (k + S p)%nat with (S (k + p)) by lia. }
  specialize (IH (S k) Hall).
  destruct (bool_decide_reflect (k ∈ D)) as [Hin|Hnot].
  - destruct (decide (k ∉ D)); [done|].
    destruct (decide (deleted (e.1, delete e.2).2 = false)); [discriminate|].
    exact IH.
  - destruct (decide (k ∉ D)); [|done].
    destruct (decide (deleted e.2 = false)); [|done].
    simpl. f_equal. exact IH.
Qed.

Lemma filter_not_drawn_length (D : list nat) (len : nat) :
  (∀ p, p ∈ D → (p < len)%nat) →
  length (filter (fun p => p ∉ D) (seq 0 len)) = (len - length (remove_dups D))%nat.
Proof.
  intros Hlt.
  pose proof (filter_app_complement (fun p => p ∈ D) (seq 0 len)) as Hperm.
  apply Permutation_length in Hperm. rewrite length_app, length_seq in Hperm.
  assert (Hin : filter (fun p => p ∈ D) (seq 0 len) ≡ₚ remove_dups D).
  { apply NoDup_Permutation.
    - apply NoDup_filter, NoDup_seq.
    - apply NoDup_remove_dups.
    - intros p. rewrite list_elem_of_filter, elem_of_remove_dups, elem_of_seq.
      split; [tauto|]. intros Hp. split; [exact Hp|]. specialize (Hlt p Hp). lia. }
  rewrite Hin in Hperm. lia.
Qed.

Section DiscreteProperties.
Context `{Torch}.

Lemma drop_zero_op_discrete (e : InEdge) :
  discrete_edge e →
  drop_zero_op e = Ok (without_zero e) ∧
  (without_zero e).1 = e.1 ∧ deleted (without_zero e).2 = false ∧
  is_final (without_zero e).2 = false.
Proof.
  destruct e as [u data]. intros (_ & Hfin & Hdel & Hops).
  unfold without_zero, drop_zero_op. simpl in *.
  destruct (op data) as [p|ps] eqn:Hop; [done|].
  specialize (Hops ps eq_refl).
  destruct (ps !! 1%nat) as [p|] eqn:Hp.
  - destruct (String.eqb (get_op_name p) "Zero"); done.
  - apply lookup_ge_None in Hp. lia.
Qed.

(** X9.  in the discrete case (at least two incoming edges, none with
    weights, finalized or deleted, candidate lists of at least two
    operations) [_truncate_input_edges] returns and keeps the edges in their
    order; the number of surviving edges is the number of edges minus the
    number of distinct positions drawn, so at least 2 edges always survive,
    fewer than all when there are more than 2, and exactly 2 survive if and
    only if the [len - 2] draws are pairwise distinct. *)
Theorem truncate_discrete_survivors (in_edges : list InEdge) (rnd : nat → nat)
    (Hlen : (2 ≤ length in_edges)%nat)
    (Hedges : Forall discrete_edge in_edges) :
  let n := length in_edges in
  let D := drawn_indices (n - 2) n rnd in
  ∃ out,
    _truncate_input_edges in_edges rnd = Ok out ∧
    fst <$> out = fst <$> in_edges ∧
    length (surviving out) = (n - length (remove_dups D))%nat ∧
    (2 ≤ length (surviving out))%nat ∧
    ((2 < n)%nat → (length (surviving out) < n)%nat) ∧
    (length (surviving out) = 2%nat ↔ NoDup D).
Proof.
  intros n D.
  set (l1 := without_zero <$> in_edges).
  assert (Hl1 : length l1 = n) by apply length_fmap.
  assert (Hmap : mapM drop_zero_op in_edges = Ok l1).
  { apply mapM_Ok. intros e He. rewrite Forall_forall in Hedges.
    by destruct (drop_zero_op_discrete e (Hedges e He)). }
  assert (Hlive : Forall (fun e : InEdge => deleted e.2 = false) l1).
  { apply Forall_fmap. eapply Forall_impl; [exact Hedges|].
    intros e He. by destruct (drop_zero_op_discrete e He) as (_ & _ & ? & _). }
  assert (Hids : fst <$> l1 = fst <$> in_edges).
  { unfold l1. rewrite <- list_fmap_compose. apply Forall_fmap_ext.
    eapply Forall_impl; [exact Hedges|].
    intros e He. by destruct (drop_zero_op_discrete e He) as (_ & ? & _). }
  assert (Hcase1 : existsb (fun e : InEdge => has_alpha e.2 || is_final e.2) in_edges = false).
  { apply not_true_is_false. intros Hex. apply existsb_exists in Hex as (e & He & Hor).
    rewrite Forall_forall in Hedges. apply list_elem_of_In in He.
    destruct (Hedges e He) as (Ha & Hf & _). by rewrite Ha, Hf in Hor. }
  assert (Hcase2 : existsb (fun e : InEdge => is_final e.2) l1 = false).
  { apply not_true_is_false. intros Hex. apply existsb_exists in Hex as (e & He & Hf).
    apply list_elem_of_In, list_elem_of_fmap in He as (e0 & -> & He0).
    rewrite Forall_forall in Hedges.
    destruct (drop_zero_op_discrete e0 (Hedges e0 He0)) as (_ & _ & _ & Hnf). congruence. }
  assert (HD : ∀ p, p ∈ D → (p < n)%nat).
  { intros p. apply drawn_indices_lt. unfold n. lia. }
  assert (Hcount : length (surviving (delete_random (n - 2) rnd l1))
                   = (n - length (remove_dups D))%nat).
  { rewrite delete_random_imap, Hl1. fold D.
    etrans; [exact (surviving_imap_count D l1 0 Hlive)|].
    rewrite Hl1. by apply filter_not_drawn_length. }
  assert (HlenD : length D = (n - 2)%nat).
  { unfold D, drawn_indices. by rewrite length_fmap, length_seq. }
  pose proof (remove_dups_length_le D) as Hle.
  exists (delete_random (n - 2) rnd l1). split.
  - unfold _truncate_input_edges. destruct (decide _); [|lia].
    unfold InEdge in *. rewrite Hcase1, Hmap. simpl. rewrite Hcase2, Hl1. reflexivity.
  - split.
    { rewrite delete_random_imap. rewrite <- Hids. unfold InEdge in *.
      apply list_eq. intros p. rewrite !list_lookup_fmap, list_lookup_imap.
      destruct (l1 !! p) as [e|]; [|reflexivity]. simpl.
      by destruct (bool_decide _). }
    rewrite Hcount. split; [reflexivity|]. split; [lia|]. split.
    + intros Hn. assert (Hne : D ≠ []).
      { intros Hnil. rewrite Hnil in HlenD. simpl in HlenD. lia. }
      destruct D as [|p D'] eqn:HeqD; [done|].
      assert (Hp : p ∈ remove_dups (p :: D')) by (apply elem_of_remove_dups; left).
      destruct (remove_dups (p :: D')) as [|q R]; [by apply elem_of_nil in Hp|].
      simpl. lia.
    + rewrite <- remove_dups_length_NoDup. lia.
Qed.
End DiscreteProperties.

(** [truncate_discrete_survivors] on node 5 of the normal cell: with two
    different draws exactly two edges survive. *)
Lemma truncate_discrete_survivors_witness :
  ∃ out,
    @_truncate_input_edges rational_Torch node5_in_edges (fun j => j) = Ok out ∧
    length (surviving out) = 2%nat.
Proof.
  destruct (@truncate_discrete_survivors rational_Torch node5_in_edges (fun j => j))
    as (out & Hout & _ & _ & _ & _ & Hiff).
  - simpl. lia.
  - repeat constructor; intros ps [= <-]; simpl; lia.
  - exists out. split; [exact Hout|]. apply Hiff.
    apply (bool_decide_unpack _). vm_compute. exact I.
Defined.


(** ** Further properties of the search space: the channels of the macro-graph *)

Lemma range_dict_lookup (lo hi v i : Z) :
  range_dict lo hi v !! i = if decide (lo ≤ i < hi) then Some v else None.
Proof.
  unfold range_dict. destruct (decide (lo ≤ i < hi)) as [Hi|Hi].
  - apply elem_of_list_to_map.
    + rewrite <- list_fmap_compose. simpl. rewrite list_fmap_id. apply NoDup_seqZ.
    + apply list_elem_of_fmap. exists i. split; [reflexivity|].
      apply elem_of_seqZ. lia.
  - apply not_elem_of_list_to_map. rewrite <- list_fmap_compose. simpl.
    rewrite list_fmap_id. rewrite elem_of_seqZ. lia.
Qed.

Lemma dict_update_lookup (d e : gmap Z Z) (i : Z) :
  dict_update d e !! i = match e !! i with Some v => Some v | None => d !! i end.
Proof.
  unfold dict_update. rewrite lookup_union. destruct (e !! i), (d !! i); reflexivity.
Qed.

(** X10.  [channel_maps] fails unless there are exactly two reduction
    indices.  With two, the first map sends a node to the stage whose
    channels leave it (the later range wins where ranges overlap), and the
    second map is the first one moved up by one node: below the last index,
    what the second map gives for [i + 1] is what the first gives for [i]. *)
Theorem channel_maps_shift (reduction_cell_indices : list Z) (max_index : Z) :
  (length reduction_cell_indices ≠ 2%nat →
     channel_maps reduction_cell_indices max_index = Raise AssertionError)
  ∧ ∀ r_1 r_2, reduction_cell_indices = [r_1; r_2] →
      ∃ channel_map_from channel_map_to,
        channel_maps reduction_cell_indices max_index
          = Ok (channel_map_from, channel_map_to)
        ∧ (∀ i, channel_map_from !! i =
                  if decide (r_2 ≤ i < max_index) then Some 2
                  else if decide (r_1 ≤ i < r_2) then Some 1
                  else if decide (2 ≤ i < r_1) then Some 0
                  else None)
        ∧ (∀ i, i + 1 < max_index →
                  channel_map_to !! (i + 1) = channel_map_from !! i).
Proof.
  split.
  - intros Hlen. destruct reduction_cell_indices as [|a [|b [|c l]]];
      simpl in *; try reflexivity; congruence.
  - intros r_1 r_2 ->. eexists _, _. split; [reflexivity|]. split.
    + intros i. rewrite !dict_update_lookup, !range_dict_lookup, lookup_empty.
      repeat case_decide; reflexivity.
    + intros i Hi. rewrite !dict_update_lookup, !range_dict_lookup, !lookup_empty.
      repeat case_decide; try reflexivity; lia.
Qed.

(** X11.  in the macro-graph that [__init__] builds and [prepare_evaluation]
    completes, the operations on the edges fit the channels that
    [_set_cell_ops] gives the cells: the stem turns the input channels into
    96; an operation between two cells takes four times the channels of the
    cell it leaves and returns the channels of the cell it enters; an
    operation from the stem into a cell takes 96; and an operation that
    leaves a cell for an output node is the classifier or the auxiliary
    head, on four times the channels of that cell. *)
Theorem makrograph_channels_fit (in_channels num_classes : Z) (auxiliary : bool) :
  let cell := cell_channels [32; 64; 128] [6; 9] in
  ∃ ops,
    (ops0 ← makrograph_ops in_channels num_classes auxiliary;
     prepare_evaluation num_classes [32; 64; 128] 4 auxiliary ops0) = Ok ops
    ∧ ops !! (1, 2) = Some (MStem in_channels 96)
    ∧ (∀ u v o c_u c_v, ops !! (u, v) = Some o →
         cell !! u = Some c_u → cell !! v = Some c_v →
         maps_width o (4 * c_u) c_v)
    ∧ (∀ v o c_v, ops !! (2, v) = Some o → cell !! v = Some c_v →
         maps_width o 96 c_v)
    ∧ (∀ u v o c_u, ops !! (u, v) = Some o →
         cell !! u = Some c_u → cell !! v = None →
         o = MClassifier (4 * c_u) num_classes
         ∨ o = MAuxiliaryHead (4 * c_u) num_classes).
Proof.
  intros cell. subst cell. destruct auxiliary.
  all: eexists; split; [vm_compute; reflexivity|].
  all: split; [vm_compute; reflexivity|].
  all: split; [|split].
  all: intros; 
    match goal with H : _ !! (_, _) = Some _ |- _ =>
      apply elem_of_map_to_list in H; vm_compute in H end.
  all: repeat match goal with
         | H : list_elem_of _ (_ :: _) |- _ => apply elem_of_cons in H as [H|H]
         | H : list_elem_of _ [] |- _ => apply elem_of_nil in H; destruct H
         | H : _ ∈ _ :: _ |- _ => apply elem_of_cons in H as [H|H]
         | H : _ ∈ [] |- _ => apply elem_of_nil in H; destruct H
         end.
  all: match goal with H : (_, _) = _ |- _ => inversion H; subst; clear H end.
  all: repeat match goal with H : cell_channels _ _ !! _ = _ |- _ => progress vm_compute in H end.
  all: try discriminate.
  all: repeat match goal with H : Some _ = Some _ |- _ => inversion H; subst; clear H end.
  all: try (vm_compute; split; reflexivity).
  all: try (left; reflexivity).
  all: try (right; reflexivity).
Qed.


(** ** Further properties of the optimizer: the statistics *)

Lemma py_max_elem_of {A : Type} (key : A → Q) (l : list A) (x : A) :
  py_max key l = Ok x → x ∈ l.
Proof.
  destruct l as [|y l]; [discriminate|]. intros [= <-].
  destruct (py_max_from_spec key l y) as [[-> _]|(l1 & l2 & Hl & _)]; [by left|].
  right. rewrite Hl at 2. apply elem_of_app. right. by left.
Qed.

Lemma py_last_elem_of {A : Type} (l : list A) (x : A) : py_last l = Ok x → x ∈ l.
Proof.
  unfold py_last. destruct (last l) as [a|] eqn:Hl; [|discriminate].
  intros [= <-]. rewrite last_lookup in Hl. by eapply list_elem_of_lookup_2.
Qed.

Section Statistics.
Context {G Api : Type} `{SearchSpace G Api}.

(** X12.  before the first architecture is sampled the reports of the
    optimizer raise: with an empty population [train_statistics] raises
    [ValueError] when it reports the incumbent and [IndexError] when it
    reports the last architecture, and [test_statistics] raises
    [ValueError]. *)
Theorem statistics_before_sampling (self : SuccessiveHalving G Api)
    (Hempty : sampled_archs self = []) :
  train_statistics self true = Raise ValueError ∧
  train_statistics self false = Raise IndexError ∧
  test_statistics self = Raise ValueError.
Proof.
  unfold train_statistics, test_statistics, get_final_architecture.
  rewrite Hempty. done.
Qed.
End Statistics.

Section NasBench301Statistics.
Context `{Conversions}.

(** X13.  on the NAS-Bench-301 search space, with a benchmark handle and a
    population that is not empty and names allocated objects, the reports
    return; the train accuracy and the test accuracy that
    [train_statistics] reports are the sentinel -1 whatever the
    architecture, the validation accuracy and the train time are the two
    predictions for the reported architecture, which is a member of the
    population; and [test_statistics] returns -1. *)
Theorem train_statistics_nb301
    (self : SuccessiveHalving NasBench301SearchSpace DatasetApi)
    (report_incumbent : bool) (api : DatasetApi)
    (Hapi : dataset_api self = Some api)
    (Hne : sampled_archs self ≠ [])
    (Hwf : ∀ r, r ∈ sampled_archs self → (r < length (heap self))%nat) :
  (∃ r m, r ∈ sampled_archs self ∧ heap self !! r = Some m ∧
     train_statistics self report_incumbent
     = Ok ((-1)%Q,
           (nb301_model api).1 (convert_naslib_to_genotype (arch m)),
           (-1)%Q,
           (nb301_model api).2 (convert_naslib_to_genotype (arch m)))) ∧
  test_statistics self = Ok (-1)%Q.
Proof.
  assert (Hbest : ∃ r m, r ∈ sampled_archs self ∧ heap self !! r = Some m ∧
                    get_final_architecture self = Ok (arch m)).
  { unfold get_final_architecture.
    destruct (py_max (accuracy_at (heap self)) (sampled_archs self)) as [r|e] eqn:Hr.
    - pose proof (py_max_elem_of _ _ _ Hr) as Hin.
      destruct (lookup_lt_is_Some_2 _ _ (Hwf r Hin)) as [m Hm].
      exists r, m. simpl. rewrite Hm. done.
    - destruct (sampled_archs self); [done | discriminate]. }
  assert (Hlast : ∃ r m, r ∈ sampled_archs self ∧ heap self !! r = Some m ∧
                    (r ← py_last (sampled_archs self);
                     match heap self !! r with
                     | Some m => Ok (arch m)
                     | None => Raise IndexError
                     end) = Ok (arch m)).
  { destruct (py_last (sampled_archs self)) as [r|e] eqn:Hr.
    - pose proof (py_last_elem_of _ _ Hr) as Hin.
      destruct (lookup_lt_is_Some_2 _ _ (Hwf r Hin)) as [m Hm].
      exists r, m. simpl. rewrite Hm. done.
    - unfold py_last in Hr. destruct (last (sampled_archs self)) eqn:Hl; [discriminate|].
      apply last_None in Hl. done. }
  split.
  - unfold train_statistics.
    destruct report_incumbent;
      [destruct Hbest as (r & m & Hin & Hm & Hb) | destruct Hlast as (r & m & Hin & Hm & Hb)];
      exists r, m; (split; [exact Hin|]); (split; [exact Hm|]);
      rewrite Hb, Hapi; reflexivity.
  - unfold test_statistics. destruct Hbest as (r & m & _ & _ & ->).
    rewrite Hapi. reflexivity.
Qed.
End NasBench301Statistics.

(** [statistics_before_sampling] on the optimizer of the scenario before
    its first call. *)
Lemma statistics_before_sampling_witness :
  ∃ self0,
    scenario_optimizer 8 = Ok self0 ∧
    @train_statistics Z unit table_SearchSpace self0 true = Raise ValueError ∧
    @train_statistics Z unit table_SearchSpace self0 false = Raise IndexError ∧
    @test_statistics Z unit table_SearchSpace self0 = Raise ValueError.
Proof.
  eexists. split; [reflexivity|].
  apply (@statistics_before_sampling Z unit table_SearchSpace). reflexivity.
Defined.

(** [train_statistics_nb301] on [nb301_state] with the constant benchmark:
    the report is (-1, 90, -1, 5000). *)
Lemma train_statistics_nb301_witness :
  @train_statistics _ _ (@NasBench301_SearchSpace compact_Conversions) nb301_state true
  = Ok ((-1)%Q, 90%Q, (-1)%Q, 5000%Q) ∧
  @test_statistics _ _ (@NasBench301_SearchSpace compact_Conversions) nb301_state
  = Ok (-1)%Q.
Proof.
  destruct (@train_statistics_nb301 compact_Conversions nb301_state true constant_api)
    as [(r & m & Hin & Hm & Hts) Htest].
  - reflexivity.
  - discriminate.
  - intros r Hr. apply list_elem_of_singleton in Hr. subst r. simpl. lia.
  - split; [|exact Htest]. rewrite Hts. reflexivity.
Defined.


(** ** Further properties of the search space: the candidate operations *)

Lemma fresh_edge_discrete (e : InEdge) : fresh_edge e → discrete_edge e.
Proof.
  destruct e as [u d]. intros (stride & data & He & Ha & Hf & Hd). simpl in He.
  subst d. unfold discrete_edge, has_alpha, is_final in *. simpl.
  rewrite Ha. split; [done|]. split; [exact Hf|]. split; [exact Hd|].
  intros ps [= <-]. simpl. lia.
Qed.

Lemma fresh_edge_without_zero (e : InEdge) :
  fresh_edge e →
  ∃ ps, op e.2 = OpList ps ∧ Z.of_nat (length ps) = NUM_OPS + 1 ∧
        ps !! 1%nat = Some Zero ∧
        op (without_zero e).2 = OpList (pop1 ps) ∧
        Z.of_nat (length (pop1 ps)) = NUM_OPS ∧ Zero ∉ pop1 ps.
Proof.
  destruct e as [u d]. intros (stride & data & He & _). simpl in He. subst d.
  eexists. split; [reflexivity|]. split; [reflexivity|]. split; [reflexivity|].
  split; [reflexivity|]. split; [reflexivity|].
  unfold pop1. simpl. destruct (stride =? 1);
    rewrite !elem_of_cons, elem_of_nil; intros Hin; decompose [or] Hin; done.
Qed.

Section CandidateProperties.
Context `{Torch}.

(** X14.  on a node with at least two incoming edges that all carry the
    candidate list of [_set_ops] (eight operations, [Zero] second),
    [_truncate_input_edges] returns, and every edge it returns, deleted or
    not, is the edge at the same position with the same source whose
    candidate list lost its second entry: [NUM_OPS] = 7 candidates remain in
    their order, and [Zero] is none of them. *)
Theorem truncate_discrete_candidates (in_edges : list InEdge) (rnd : nat → nat)
    (Hlen : (2 ≤ length in_edges)%nat)
    (Hedges : Forall fresh_edge in_edges) :
  ∃ out,
    _truncate_input_edges in_edges rnd = Ok out ∧
    length out = length in_edges ∧
    ∀ i e, in_edges !! i = Some e →
      ∃ o ps, out !! i = Some o ∧ o.1 = e.1 ∧
        op e.2 = OpList ps ∧ ps !! 1%nat = Some Zero ∧
        op o.2 = OpList (pop1 ps) ∧
        Z.of_nat (length (pop1 ps)) = NUM_OPS ∧ Zero ∉ pop1 ps.
Proof.
  assert (Hdisc : Forall discrete_edge in_edges).
  { eapply Forall_impl; [exact Hedges | exact fresh_edge_discrete]. }
  set (n := length in_edges).
  set (l1 := without_zero <$> in_edges).
  assert (Hl1 : length l1 = n) by apply length_fmap.
  assert (Hmap : mapM drop_zero_op in_edges = Ok l1).
  { apply mapM_Ok. intros e He. rewrite Forall_forall in Hdisc.
    by destruct (drop_zero_op_discrete e (Hdisc e He)). }
  assert (Hcase1 : existsb (fun e : InEdge => has_alpha e.2 || is_final e.2) in_edges = false).
  { apply not_true_is_false. intros Hex. apply existsb_exists in Hex as (e & He & Hor).
    rewrite Forall_forall in Hdisc. apply list_elem_of_In in He.
    destruct (Hdisc e He) as (Ha & Hf & _). by rewrite Ha, Hf in Hor. }
  assert (Hcase2 : existsb (fun e : InEdge => is_final e.2) l1 = false).
  { apply not_true_is_false. intros Hex. apply existsb_exists in Hex as (e & He & Hf).
    apply list_elem_of_In, list_elem_of_fmap in He as (e0 & -> & He0).
    rewrite Forall_forall in Hdisc.
    destruct (drop_zero_op_discrete e0 (Hdisc e0 He0)) as (_ & _ & _ & Hnf). congruence. }
  exists (delete_random (n - 2) rnd l1). split; [|split].
  - unfold _truncate_input_edges. destruct (decide _); [|lia].
    unfold InEdge in *. rewrite Hcase1, Hmap. simpl. rewrite Hcase2, Hl1. reflexivity.
  - rewrite delete_random_imap, length_imap. exact Hl1.
  - intros i e He.
    rewrite Forall_forall in Hedges, Hdisc.
    pose proof (list_elem_of_lookup_2 _ _ _ He) as Hin.
    destruct (fresh_edge_without_zero e (Hedges e Hin)) as (ps & Hps & _ & Hz & Hop & Hn & Hnz).
    destruct (drop_zero_op_discrete e (Hdisc e Hin)) as (_ & Hsrc & _).
    rewrite delete_random_imap. unfold InEdge in *.
    rewrite list_lookup_imap. unfold l1. rewrite list_lookup_fmap, He. simpl.
    eexists _, ps. split; [reflexivity|].
    destruct (bool_decide _); simpl; done.
Qed.
End CandidateProperties.

(** [truncate_discrete_candidates] on node 5 of the normal cell: the first
    edge returned comes from node 1 and has lost [Zero]. *)
Lemma truncate_discrete_candidates_witness :
  ∃ out o,
    @_truncate_input_edges rational_Torch node5_in_edges (fun j => j) = Ok out ∧
    out !! 0%nat = Some o ∧ o.1 = 1 ∧
    op o.2 = OpList [Identity; MaxPool; AvgPool; SepConv 3; SepConv 5;
                     DilConv 3; DilConv 5].
Proof.
  destruct (@truncate_discrete_candidates rational_Torch node5_in_edges (fun j => j))
    as (out & Hout & _ & Hall).
  - simpl. lia.
  - repeat constructor; eexists _, _; (split; [reflexivity|]); done.
  - destruct (Hall 0%nat _ eq_refl) as (o & ps & Ho & Hsrc & Hps & _ & Hop & _).
    exists out, o. split; [exact Hout|]. split; [exact Ho|]. split; [exact Hsrc|].
    injection Hps as <-. exact Hop.
Defined.


(** ** Further properties of the search space: sampling *)

Lemma np_choice_raw (n a : Z) : 0 ≤ a < n → np_choice n (Z.to_nat a) = a.
Proof. intros Ha. unfold np_choice. rewrite Z2Nat.id by lia. apply Z.mod_small. lia. Qed.

Lemma np_choice2_raw (n a b : Z) :
  0 ≤ a < n → 0 ≤ b < n → a ≠ b →
  np_choice2 n (Z.to_nat a) (Z.to_nat (if b <? a then b else b - 1)) = (a, b).
Proof.
  intros Ha Hb Hab. unfold np_choice2.
  rewrite !Z2Nat.id by (destruct (Z.ltb_spec b a); lia).
  rewrite (Z.mod_small a n) by lia.
  destruct (Z.ltb_spec b a) as [Hlt|Hge].
  - rewrite (Z.mod_small b (n - 1)) by lia.
    destruct (Z.ltb_spec b a); [reflexivity | lia].
  - rewrite (Z.mod_small (b - 1) (n - 1)) by lia.
    destruct (Z.ltb_spec (b - 1) a); [lia | f_equal; lia].
Qed.

Lemma random_choice_elem_of {A : Type} (l : list A) (r : nat) :
  match l with
  | [] => random_choice l r = Raise IndexError
  | _ => ∃ a, a ∈ l ∧ random_choice l r = Ok a
  end.
Proof.
  destruct l as [|x l]; [unfold random_choice; by rewrite lookup_nil|].
  unfold random_choice.
  assert (Hlt : (r `mod` length (x :: l) < length (x :: l))%nat).
  { apply Nat.mod_upper_bound. simpl. lia. }
  destruct (lookup_lt_is_Some_2 _ _ Hlt) as [a Ha]. rewrite Ha.
  exists a. split; [by eapply list_elem_of_lookup_2 | reflexivity].
Qed.

Lemma sample_vertex_raw (rnd : nat → nat) (c : Compact) (i : nat)
    (p1 p2 q1 q2 : Z * Z) :
  vertex_pairs_ok i p1 p2 → vertex_pairs_ok i q1 q2 →
  rnd (8 * i + 0)%nat = Z.to_nat p1.2 → rnd (8 * i + 1)%nat = Z.to_nat p2.2 →
  rnd (8 * i + 2)%nat = Z.to_nat q1.2 → rnd (8 * i + 3)%nat = Z.to_nat q2.2 →
  rnd (8 * i + 4)%nat = Z.to_nat p1.1 →
  rnd (8 * i + 5)%nat = Z.to_nat (if p2.1 <? p1.1 then p2.1 else p2.1 - 1) →
  rnd (8 * i + 6)%nat = Z.to_nat q1.1 →
  rnd (8 * i + 7)%nat = Z.to_nat (if q2.1 <? q1.1 then q2.1 else q2.1 - 1) →
  sample_vertex rnd c i = (c.1 ++ [p1; p2], c.2 ++ [q1; q2]).
Proof.
  intros (Hp & Hp1 & Hp2 & Ho1 & Ho2) (Hq & Hq1 & Hq2 & Ho3 & Ho4).
  intros E0 E1 E2 E3 E4 E5 E6 E7.
  unfold sample_vertex. change (Z.to_nat NUM_VERTICES) with 4%nat.
  cbn [seq fmap list_fmap lookup list_lookup default from_option id].
  rewrite E0, E1, E2, E3, E4, E5, E6, E7. unfold NUM_OPS.
  rewrite !np_choice_raw by lia.
  rewrite !np_choice2_raw by lia.
  destruct p1, p2, q1, q2. reflexivity.
Qed.

Section SamplingCoverage.
Context `{Conversions}.

(** X15.  with [load_labeled] set, [sample_random_architecture] draws nothing
    of its own: it raises [AssertionError] when no labeled architectures are
    attached, [IndexError] when the attached list is empty, and otherwise
    installs one member of the list as the compact encoding, as it is,
    leaving the list itself attached. *)
Theorem sample_labeled_installs_member (self : NasBench301SearchSpace)
    (api : option DatasetApi) (rnd : nat → nat) :
  match labeled_archs self with
  | None => sample_random_architecture self api true rnd = Raise AssertionError
  | Some [] => sample_random_architecture self api true rnd = Raise IndexError
  | Some archs =>
      ∃ c self', c ∈ archs ∧
        sample_random_architecture self api true rnd = Ok self' ∧
        compact self' = Some c ∧ labeled_archs self' = Some archs
  end.
Proof.
  unfold sample_random_architecture, sample_random_labeled_architecture.
  destruct (labeled_archs self) as [archs|] eqn:Hl; [|reflexivity].
  pose proof (random_choice_elem_of archs (rnd O)) as Hc.
  destruct archs as [|a archs]; [by rewrite Hc|].
  destruct Hc as (c & Hin & ->). exists c. eexists. split; [exact Hin|].
  split; [reflexivity|]. simpl. by rewrite Hl.
Qed.

(** X16.  [sample_random_architecture] reaches the whole search space: every
    pair of well-formed cell encodings (8 pairs each, the two inputs of
    intermediate node i distinct and below i + 2, operations in 0..6) is
    installed for some outcome of the random draws. *)
Theorem sample_random_architecture_onto (self : NasBench301SearchSpace)
    (api : option DatasetApi) (normal reduce : list (Z * Z))
    (Hnormal : cell_encoding_ok normal) (Hreduce : cell_encoding_ok reduce) :
  ∃ rnd self',
    sample_random_architecture self api false rnd = Ok self' ∧
    compact self' = Some (normal, reduce).
Proof.
  destruct Hnormal as [Hln Hn], Hreduce as [Hlr Hr].
  destruct normal as [|n0 [|n1 [|n2 [|n3 [|n4 [|n5 [|n6 [|n7 [|? ?]]]]]]]]];
    try discriminate Hln.
  destruct reduce as [|r0 [|r1 [|r2 [|r3 [|r4 [|r5 [|r6 [|r7 [|? ?]]]]]]]]];
    try discriminate Hlr.
  set (raw := fun p1 p2 q1 q2 : Z * Z =>
    [ Z.to_nat p1.2; Z.to_nat p2.2; Z.to_nat q1.2; Z.to_nat q2.2;
      Z.to_nat p1.1; Z.to_nat (if p2.1 <? p1.1 then p2.1 else p2.1 - 1);
      Z.to_nat q1.1; Z.to_nat (if q2.1 <? q1.1 then q2.1 else q2.1 - 1) ]).
  set (tbl := raw n0 n1 r0 r1 ++ raw n2 n3 r2 r3 ++ raw n4 n5 r4 r5 ++ raw n6 n7 r6 r7).
  exists (fun j => default O (tbl !! j)). eexists. split; [reflexivity|].
  destruct (Hn 0%nat ltac:(lia)) as (? & ? & [= <-] & [= <-] & Hn0).
  destruct (Hn 1%nat ltac:(lia)) as (? & ? & [= <-] & [= <-] & Hn1).
  destruct (Hn 2%nat ltac:(lia)) as (? & ? & [= <-] & [= <-] & Hn2).
  destruct (Hn 3%nat ltac:(lia)) as (? & ? & [= <-] & [= <-] & Hn3).
  destruct (Hr 0%nat ltac:(lia)) as (? & ? & [= <-] & [= <-] & Hr0).
  destruct (Hr 1%nat ltac:(lia)) as (? & ? & [= <-] & [= <-] & Hr1).
  destruct (Hr 2%nat ltac:(lia)) as (? & ? & [= <-] & [= <-] & Hr2).
  destruct (Hr 3%nat ltac:(lia)) as (? & ? & [= <-] & [= <-] & Hr3).
  clear Hn Hr Hln Hlr.
  cbn [set_compact compact]. f_equal.
  change (Z.to_nat NUM_VERTICES) with 4%nat. cbn [seq foldl].
  rewrite (sample_vertex_raw _ _ 0 n0 n1 r0 r1) by (try assumption; reflexivity).
  rewrite (sample_vertex_raw _ _ 1 n2 n3 r2 r3) by (try assumption; reflexivity).
  rewrite (sample_vertex_raw _ _ 2 n4 n5 r4 r5) by (try assumption; reflexivity).
  rewrite (sample_vertex_raw _ _ 3 n6 n7 r6 r7) by (try assumption; reflexivity).
  reflexivity.
Qed.
End SamplingCoverage.

(** [sample_random_architecture_onto] at an encoding that uses the last
    admissible operation and the latest admissible inputs. *)
Lemma sample_random_architecture_onto_witness :
  let cell := [(1, 6); (0, 6); (2, 6); (1, 6); (3, 6); (2, 6); (4, 6); (3, 6)] in
  ∃ rnd self',
    @sample_random_architecture compact_Conversions NasBench301SearchSpace_init
      (Some constant_api) false rnd = Ok self' ∧
    compact self' = Some (cell, cell).
Proof.
  intros cell.
  assert (Hok : cell_encoding_ok cell).
  { split; [reflexivity|]. intros i Hi.
    destruct i as [|[|[|[|i]]]]; try lia;
      eexists _, _; (split; [reflexivity|]); (split; [reflexivity|]);
      unfold vertex_pairs_ok; simpl; lia. }
  exact (@sample_random_architecture_onto compact_Conversions NasBench301SearchSpace_init
           (Some constant_api) cell cell Hok Hok).
Defined.


(** * Finalized edges *)

(** ** What the bulk update does to the incoming edges of a node *)

Lemma in_edges_of_elem (v : Z) (edges : list (Z * Z * EdgeData)) (e : InEdge) :
  e ∈ in_edges_of v edges ↔ (e.1, v, e.2) ∈ edges.
Proof.
  unfold in_edges_of. rewrite list_elem_of_omap. split.
  - intros ([[u w] d] & Hin & Hsome). simpl in Hsome.
    destruct (decide (w = v)) as [->|]; [|discriminate].
    injection Hsome as <-. exact Hin.
  - intros Hin. exists (e.1, v, e.2). split; [exact Hin|]. simpl.
    destruct (decide (v = v)); [|done]. by destruct e.
Qed.

Lemma in_edges_of_store_other (v w : Z) (edges : list (Z * Z * EdgeData)) :
  v ≠ w → ∀ new, in_edges_of v (store_in_edges w new edges) = in_edges_of v edges.
Proof.
  intros Hvw. unfold in_edges_of.
  induction edges as [|[[a b] d] edges IH]; intros new; [reflexivity|].
  cbn [store_in_edges fst snd]. destruct (decide (b = w)) as [->|Hb].
  - destruct new as [|n new]; [reflexivity|].
    cbn [omap list_omap fst snd]. destruct (decide (w = v)); [congruence|]. apply IH.
  - cbn [omap list_omap fst snd]. destruct (decide (b = v)); [f_equal|]; apply IH.
Qed.

Lemma store_in_edges_same (v : Z) (edges : list (Z * Z * EdgeData)) :
  store_in_edges v (in_edges_of v edges) edges = edges.
Proof.
  unfold in_edges_of.
  induction edges as [|[[a b] d] edges IH]; [reflexivity|].
  cbn [store_in_edges omap list_omap fst snd].
  destruct (decide (b = v)) as [->|Hb]; [|by rewrite IH].
  cbn [fst snd]. by rewrite IH.
Qed.

Lemma in_edges_of_delete_flagged (v : Z) (edges : list (Z * Z * EdgeData)) :
  Forall (fun e : InEdge => deleted e.2 = false) (in_edges_of v edges) →
  in_edges_of v (_delete_flagged_edges edges) = in_edges_of v edges.
Proof.
  unfold in_edges_of, _delete_flagged_edges.
  induction edges as [|[[a b] d] edges IH]; intros Hall; [reflexivity|].
  cbn [omap list_omap fst snd] in Hall. rewrite filter_cons. cbn [fst snd].
  destruct (decide (b = v)) as [->|Hb].
  - apply Forall_cons in Hall as [Hd Hall]. simpl in Hd.
    destruct (decide (deleted d = false)); [|done].
    cbn [omap list_omap fst snd]. destruct (decide (v = v)); [|done].
    by rewrite IH.
  - destruct (decide (deleted d = false)).
    + cbn [omap list_omap fst snd]. destruct (decide (b = v)); [done|]. by apply IH.
    + cbn [omap list_omap fst snd]. destruct (decide (b = v)); [done|]. by apply IH.
Qed.

Section FinalizedProperties.
Context `{Torch}.

Lemma truncate_all_finalized_unchanged (in_edges : list InEdge) (rnd : nat → nat) :
  Forall (fun e : InEdge => is_final e.2 = true) in_edges →
  _truncate_input_edges in_edges rnd = Ok in_edges.
Proof.
  intros Hall. destruct in_edges as [|[u d] rest]; [reflexivity|].
  apply Forall_cons in Hall as [Hd _]. by apply truncate_first_finalized_unchanged.
Qed.

Lemma truncate_discrete_returns (in_edges : list InEdge) (rnd : nat → nat) :
  Forall discrete_edge in_edges →
  ∃ out, _truncate_input_edges in_edges rnd = Ok out.
Proof.
  intros Hdisc. unfold _truncate_input_edges.
  destruct (decide _); [|eauto].
  assert (Hcase1 : existsb (fun e : InEdge => has_alpha e.2 || is_final e.2) in_edges = false).
  { apply not_true_is_false. intros Hex. apply existsb_exists in Hex as (e & He & Hor).
    rewrite Forall_forall in Hdisc. apply list_elem_of_In in He.
    destruct (Hdisc e He) as (Ha & Hf & _). by rewrite Ha, Hf in Hor. }
  assert (Hmap : mapM drop_zero_op in_edges = Ok (without_zero <$> in_edges)).
  { apply mapM_Ok. intros e He. rewrite Forall_forall in Hdisc.
    by destruct (drop_zero_op_discrete e (Hdisc e He)). }
  unfold InEdge in *. rewrite Hcase1, Hmap. simpl.
  match goal with |- context [if ?b then _ else _] => destruct b end; eauto.
Qed.

(** The bulk update over nodes whose incoming edges are fewer than two, all
    finalized, or all of the discrete case, returns, and the incoming edges
    of a node whose incoming edges are all finalized are what they were. *)
Lemma update_nodes_edges_finalized (rnd : Z → nat → nat)
    (edges0 : list (Z * Z * EdgeData)) (v : Z) :
  Forall (fun e : InEdge => is_final e.2 = true) (in_edges_of v edges0) →
  ∀ nodes, NoDup nodes →
    (∀ w, w ∈ nodes →
       Forall (fun e : InEdge => is_final e.2 = true) (in_edges_of w edges0) ∨
       Forall discrete_edge (in_edges_of w edges0)) →
    ∀ edges,
      (∀ w, w ∈ nodes → in_edges_of w edges = in_edges_of w edges0) →
      in_edges_of v edges = in_edges_of v edges0 →
      ∃ edges', update_nodes_edges nodes rnd edges = Ok edges' ∧
                in_edges_of v edges' = in_edges_of v edges0.
Proof.
  intros Hv nodes. induction nodes as [|w nodes IH]; intros Hnd Hkind edges Hrest Hsame.
  - exists edges. split; [reflexivity | exact Hsame].
  - apply NoDup_cons in Hnd as [Hw Hnd]. cbn [update_nodes_edges].
    assert (Hnew : ∃ new, _truncate_input_edges (in_edges_of w edges) (rnd w) = Ok new ∧
                     (w = v → new = in_edges_of w edges)).
    { destruct (decide (w = v)) as [->|Hwv].
      - exists (in_edges_of v edges). split; [|done].
        apply truncate_all_finalized_unchanged. by rewrite Hsame.
      - rewrite (Hrest w) by left.
        destruct (Hkind w ltac:(left)) as [Hfin|Hdisc].
        + eexists. split; [by apply truncate_all_finalized_unchanged | done].
        + destruct (truncate_discrete_returns _ (rnd w) Hdisc) as [out Hout].
          exists out. split; [exact Hout | done]. }
    destruct Hnew as (new & -> & Hnew). simpl.
    apply IH.
    + exact Hnd.
    + intros w' Hw'. apply Hkind. by right.
    + intros w' Hw'. rewrite in_edges_of_store_other by (intros ->; done).
      apply Hrest. by right.
    + destruct (decide (w = v)) as [Hwv|Hwv].
      * rewrite (Hnew Hwv), store_in_edges_same. exact Hsame.
      * rewrite in_edges_of_store_other by done. exact Hsame.
Qed.

Lemma cell_template_edges (name : string) (reduction : bool) (u v : Z) (d : EdgeData) :
  (u, v, d) ∈ cell_edges (cell_template name reduction) →
  (v = 7 ∧ d = finalize EdgeData_new) ∨
  (v ≠ 7 ∧ is_final d = false ∧ discrete_edge (u, d)).
Proof.
  intros Hin. destruct reduction; vm_compute in Hin;
  repeat match type of Hin with
         | list_elem_of _ (_ :: _) => apply elem_of_cons in Hin as [Hin|Hin]
         | _ ∈ _ :: _ => apply elem_of_cons in Hin as [Hin|Hin]
         | list_elem_of _ [] => apply elem_of_nil in Hin; destruct Hin
         | _ ∈ [] => apply elem_of_nil in Hin; destruct Hin
         end;
  injection Hin as -> -> ->;
  first [ left; split; reflexivity
        | right; split; [discriminate|]; split; [reflexivity|];
          split; [reflexivity|]; split; [reflexivity|]; split; [reflexivity|];
          intros ps [= <-]; simpl; lia ].
Qed.

(** C7.  A node whose first enumerated incoming edge is finalized, and so
    every node all of whose incoming edges are finalized, is left as it is
    by [_truncate_input_edges]: the call returns the edges it received,
    none deleted, with their operations and weights.  In the cells that
    [__init__] builds, a node with at least one finalized incoming edge is
    such a node (it is the output node 7, whose four incoming edges are
    finalized): the call leaves its incoming edges unchanged, and so does
    the whole discretization of the cell, which returns for every outcome
    of the random draws. *)
Theorem truncate_finalized_unchanged :
  (∀ (u : Z) (data : EdgeData) (rest : list InEdge) (rnd : nat → nat),
     is_final data = true →
     _truncate_input_edges ((u, data) :: rest) rnd = Ok ((u, data) :: rest)) ∧
  (∀ (in_edges : list InEdge) (rnd : nat → nat),
     Forall (fun e : InEdge => is_final e.2 = true) in_edges →
     _truncate_input_edges in_edges rnd = Ok in_edges) ∧
  (∀ (name : string) (reduction : bool) (v : Z),
     let c := cell_template name reduction in
     (∃ e, e ∈ incoming v c ∧ is_final e.2 = true) →
     v = 7 ∧
     Forall (fun e : InEdge => is_final e.2 = true) (incoming v c) ∧
     (∀ rnd, _truncate_input_edges (incoming v c) rnd = Ok (incoming v c)) ∧
     (∀ rnd, ∃ c', prepare_discretization_cell c rnd = Ok c' ∧
                   incoming v c' = incoming v c)) ∧
  (∀ (name : string) (reduction : bool),
     length (incoming 7 (cell_template name reduction)) = 4%nat ∧
     ∃ e, e ∈ incoming 7 (cell_template name reduction) ∧ is_final e.2 = true).
Proof.
  split; [|split; [|split]].
  - intros u data rest rnd. apply truncate_first_finalized_unchanged.
  - intros in_edges rnd. apply truncate_all_finalized_unchanged.
  - intros name reduction v c (e & He & Hfin).
    assert (Hkinds : ∀ w,
              Forall (fun e : InEdge => is_final e.2 = true) (incoming w c) ∨
              Forall discrete_edge (incoming w c)).
    { intros w. destruct (decide (w = 7)) as [->|Hw7].
      - left. apply Forall_forall. intros [u d] Hd.
        apply in_edges_of_elem, cell_template_edges in Hd as [[_ ->]|[Hw _]];
          [reflexivity | done].
      - right. apply Forall_forall. intros [u d] Hd.
        apply in_edges_of_elem, cell_template_edges in Hd as [[Hw _]|(_ & _ & Hdisc)];
          [done | exact Hdisc]. }
    assert (Hv : v = 7).
    { destruct e as [u d]. apply in_edges_of_elem, cell_template_edges in He
        as [[Hv _]|(_ & Hnf & _)]; [exact Hv|].
      cbn [fst snd] in *. congruence. }
    subst v.
    assert (Hall : Forall (fun e : InEdge => is_final e.2 = true) (incoming 7 c)).
    { destruct (Hkinds 7) as [Hall|Hdisc]; [exact Hall|].
      rewrite Forall_forall in Hdisc. by destruct (Hdisc e He) as (_ & Hnf & _); congruence. }
    split; [reflexivity|]. split; [exact Hall|]. split.
    + intros rnd. by apply truncate_all_finalized_unchanged.
    + intros rnd. unfold prepare_discretization_cell.
      assert (Hnd : NoDup (cell_nodes c)).
      { apply (bool_decide_unpack _). destruct reduction; vm_compute; exact I. }
      destruct (update_nodes_edges_finalized rnd (cell_edges c) 7 Hall (cell_nodes c) Hnd
                  (fun w _ => Hkinds w) (cell_edges c) (fun _ _ => eq_refl) eq_refl)
        as (edges' & Hupd & Hsame).
      rewrite Hupd. simpl. eexists. split; [reflexivity|].
      unfold incoming. simpl. rewrite in_edges_of_delete_flagged; [exact Hsame|].
      rewrite Hsame. apply Forall_forall. intros [u d] Hd.
      apply in_edges_of_elem, cell_template_edges in Hd as [[_ ->]|[Hw _]];
        [reflexivity | done].
  - intros name reduction. split; [by destruct reduction|].
    exists (3, finalize EdgeData_new). split; [|reflexivity].
    destruct reduction; vm_compute; left.
Qed.
End FinalizedProperties.
